(** * Dependency analyzer: graph construction, heuristic analysis, orchestration

    A shallow embedding of the TypeScript dependency analyzer
    ([src/core/parser.ts], [src/analyzers/heuristicAnalyzer.ts],
    [src/core/server.ts]) together with the properties of its
    specification.

    JavaScript [Map] and [Set] iterate in insertion order, and the
    analyzers depend on that order, so both are modelled as lists that
    keep it. *)

From Stdlib Require Import String Ascii List ZArith Bool Arith Lia Permutation Sorted.
Import ListNotations.

Open Scope string_scope.
Open Scope list_scope.

(* ================================================================= *)
(** ** JavaScript collections *)

(** [Map<string, V>]: entries in insertion order, one entry per key as
    long as the map is only built with [set]. *)
Module JsMap.

Definition t (V : Type) : Type := list (string * V).

Definition empty {V : Type} : t V := [].

Fixpoint get {V : Type} (m : t V) (k : string) : option V :=
  match m with
  | [] => None
  | (k', v) :: m' => if String.eqb k' k then Some v else get m' k
  end.

(** [m.set(k, v)]: an existing key keeps its position, a new key goes
    to the end. *)
Fixpoint set {V : Type} (k : string) (v : V) (m : t V) : t V :=
  match m with
  | [] => [(k, v)]
  | (k', v') :: m' =>
      if String.eqb k' k then (k, v) :: m' else (k', v') :: set k v m'
  end.

Definition keys {V : Type} (m : t V) : list string := map fst m.

Definition size {V : Type} (m : t V) : nat := length m.

End JsMap.

(** [Set<string>]: elements in insertion order, without duplicates. *)
Module JsSet.

Definition t : Type := list string.

Definition empty : t := [].

Fixpoint has (s : t) (x : string) : bool :=
  match s with
  | [] => false
  | y :: s' => if String.eqb y x then true else has s' x
  end.

Definition add (x : string) (s : t) : t :=
  if has s x then s else s ++ [x].

Fixpoint delete (x : string) (s : t) : t :=
  match s with
  | [] => []
  | y :: s' => if String.eqb y x then s' else y :: delete x s'
  end.

Definition of_list (l : list string) : t :=
  fold_left (fun s x => add x s) l empty.

End JsSet.

(** [Array.prototype.indexOf]: the first index of [x], or [-1]. *)
Fixpoint indexOf (x : string) (l : list string) : Z :=
  match l with
  | [] => (-1)%Z
  | y :: l' =>
      if String.eqb y x then 0%Z
      else let i := indexOf x l' in
           if (i <? 0)%Z then (-1)%Z else (i + 1)%Z
  end.

(** [Array.prototype.slice(start)]: a negative [start] counts from the
    end of the array. *)
Definition slice {A : Type} (l : list A) (start : Z) : list A :=
  let len := Z.of_nat (length l) in
  let k := if (start <? 0)%Z then Z.max (len + start) 0 else Z.min start len in
  skipn (Z.to_nat k) l.

(** The graph built by the parser: [Map<string, string[]>]. *)
Definition DependencyMap : Type := JsMap.t (list string).

(* ================================================================= *)
(** ** Heuristic analysis ([heuristicAnalyzer.ts]) *)

Module Heuristic.

Record CycleRecord : Type := mkCycle { path : list string }.

Record HubRecord : Type := mkHub { module : string; importedBy : list string }.

Record HeuristicAnalysisResult : Type := mkHeuristic {
  circularDependencies : list CycleRecord;
  tightlyCoupledModules : list HubRecord
}.

Definition HUB_THRESHOLD : Z := 3.

(** *** findCircularDependencies *)

(** The variables the closure [detectCycle] shares with its caller:
    [cycles], [visited], [recursionStack], and the array bound to its
    parameter [path] (one array per DFS root, mutated in place). *)
Record DfsState : Type := mkDfs {
  cycles : list CycleRecord;
  visited : JsSet.t;
  recursionStack : JsSet.t;
  openPath : list string
}.

Definition dependenciesOf (dependencyMap : DependencyMap) (node : string)
  : list string :=
  match JsMap.get dependencyMap node with
  | Some deps => deps
  | None => []
  end.

(** The record pushed at a back edge:
    [[...path.slice(path.indexOf(dependency)), dependency]]. *)
Definition cyclePath (p : list string) (dependency : string) : list string :=
  slice p (indexOf dependency p) ++ [dependency].

Definition pushCycle (st : DfsState) (dependency : string) : DfsState :=
  {| cycles := cycles st ++ [mkCycle (cyclePath (openPath st) dependency)];
     visited := visited st;
     recursionStack := recursionStack st;
     openPath := openPath st |}.

(** One iteration of the loop over the dependencies of a node; [rec]
    is the recursive call. *)
Definition visitDependency (rec : string -> DfsState -> option DfsState)
    (dependency : string) (st : DfsState) : option DfsState :=
  if JsSet.has (recursionStack st) dependency then
    Some (pushCycle st dependency)
  else if negb (JsSet.has (visited st) dependency) then
    rec dependency st
  else Some st.

Fixpoint forEachDependency (rec : string -> DfsState -> option DfsState)
    (dependencies : list string) (st : DfsState) : option DfsState :=
  match dependencies with
  | [] => Some st
  | dependency :: rest =>
      match visitDependency rec dependency st with
      | Some st' => forEachDependency rec rest st'
      | None => None
      end
  end.

Definition enter (node : string) (st : DfsState) : DfsState :=
  {| cycles := cycles st;
     visited := JsSet.add node (visited st);
     recursionStack := JsSet.add node (recursionStack st);
     openPath := openPath st ++ [node] |}.

Definition leave (node : string) (st : DfsState) : DfsState :=
  {| cycles := cycles st;
     visited := visited st;
     recursionStack := JsSet.delete node (recursionStack st);
     openPath := removelast (openPath st) |}.

(** The recursion of [detectCycle] is bounded by [fuel], the depth of
    nested calls still allowed; [None] means the bound was hit. *)
Fixpoint detectCycle (dependencyMap : DependencyMap) (fuel : nat)
    (node : string) (st : DfsState) : option DfsState :=
  match fuel with
  | O => None
  | S fuel' =>
      match forEachDependency (detectCycle dependencyMap fuel')
              (dependenciesOf dependencyMap node) (enter node st) with
      | Some st' => Some (leave node st')
      | None => None
      end
  end.

(** [allNodes]: the keys, then every edge target, in iteration order. *)
Definition allNodes (dependencyMap : DependencyMap) : JsSet.t :=
  fold_left
    (fun all entry => fold_left (fun all' dep => JsSet.add dep all') (snd entry) all)
    dependencyMap
    (JsSet.of_list (JsMap.keys dependencyMap)).

(** The loop over [allNodes]; every root call gets a fresh [[]] as
    [path]. *)
Fixpoint forEachRoot (dependencyMap : DependencyMap) (fuel : nat)
    (nodes : list string) (st : DfsState) : option DfsState :=
  match nodes with
  | [] => Some st
  | node :: rest =>
      if negb (JsSet.has (visited st) node) then
        match detectCycle dependencyMap fuel node
                {| cycles := cycles st; visited := visited st;
                   recursionStack := recursionStack st; openPath := [] |} with
        | Some st' => forEachRoot dependencyMap fuel rest st'
        | None => None
        end
      else forEachRoot dependencyMap fuel rest st
  end.

Definition initialDfs : DfsState :=
  {| cycles := []; visited := JsSet.empty;
     recursionStack := JsSet.empty; openPath := [] |}.

(** The nesting of [detectCycle] never exceeds the number of nodes, so
    that many levels (plus one) are granted. *)
Definition findCircularDependencies (dependencyMap : DependencyMap)
  : option (list CycleRecord) :=
  let nodes := allNodes dependencyMap in
  match forEachRoot dependencyMap (S (length nodes)) nodes initialDfs with
  | Some st => Some (cycles st)
  | None => None
  end.

(** *** findTightlyCoupledModules *)

Definition addImporter (importer : string)
    (incomingMap : JsMap.t (list string)) (importedModule : string)
  : JsMap.t (list string) :=
  let importers :=
    match JsMap.get incomingMap importedModule with
    | Some l => l
    | None => []
    end in
  JsMap.set importedModule (importers ++ [importer]) incomingMap.

Definition buildIncomingMap (dependencyMap : DependencyMap)
  : JsMap.t (list string) :=
  fold_left
    (fun incomingMap entry =>
       fold_left (addImporter (fst entry)) (snd entry) incomingMap)
    dependencyMap JsMap.empty.

(** [Array.prototype.sort] with a comparator is stable: an element
    goes before the first one the comparator ranks strictly after it. *)
Fixpoint insertBy {A : Type} (cmp : A -> A -> Z) (x : A) (l : list A) : list A :=
  match l with
  | [] => [x]
  | y :: l' => if (cmp x y <=? 0)%Z then x :: y :: l' else y :: insertBy cmp x l'
  end.

Definition sortBy {A : Type} (cmp : A -> A -> Z) (l : list A) : list A :=
  fold_right (insertBy cmp) [] l.

Definition importerCount (h : HubRecord) : Z :=
  Z.of_nat (length (importedBy h)).

Definition findTightlyCoupledModules (dependencyMap : DependencyMap)
    (threshold : Z) : list HubRecord :=
  let incomingMap := buildIncomingMap dependencyMap in
  let hubs :=
    map (fun e => mkHub (fst e) (snd e))
      (filter (fun e => (threshold <=? Z.of_nat (length (snd e)))%Z) incomingMap) in
  sortBy (fun a b => (importerCount b - importerCount a)%Z) hubs.

Definition analyzeHeuristically (dependencyMap : DependencyMap)
  : option HeuristicAnalysisResult :=
  match findCircularDependencies dependencyMap with
  | Some circular =>
      Some (mkHeuristic circular
              (findTightlyCoupledModules dependencyMap HUB_THRESHOLD))
  | None => None
  end.

End Heuristic.


(* ================================================================= *)
(** ** Node's [path] module

    [parser.ts] calls [path.extname], [path.dirname], [path.join] and
    [path.normalize]; which implementation answers ([path.posix] or
    [path.win32]) depends on the host.  Both are given here for paths
    without a drive letter or UNC prefix, which is what
    [path.relative(process.cwd(), file)] and a [./] import target are. *)

Module Path.

Record Api : Type := mkApi {
  sep : ascii;
  isPathSeparator : ascii -> bool;
  extname : string -> string;
  dirname : string -> string;
  join : list string -> string;
  normalize : string -> string
}.

Definition chars (s : string) : list ascii := list_ascii_of_string s.
Definition str (cs : list ascii) : string := string_of_list_ascii cs.

Section Implementation.

Variable separator : ascii.
Variable isSep : ascii -> bool.

(** *** extname: a scan from the end of the string *)

Record ExtScan : Type := mkExtScan {
  startDot : Z;
  startPart : Z;
  endPart : Z;
  matchedSlash : bool;
  preDotState : Z
}.

Definition seeChar (code : ascii) (i : Z) (s : ExtScan) : ExtScan :=
  let s1 :=
    if (endPart s =? -1)%Z
    then mkExtScan (startDot s) (startPart s) (i + 1) false (preDotState s)
    else s in
  if Ascii.eqb code "."%char then
    if (startDot s1 =? -1)%Z
    then mkExtScan i (startPart s1) (endPart s1) (matchedSlash s1) (preDotState s1)
    else if negb (preDotState s1 =? 1)%Z
    then mkExtScan (startDot s1) (startPart s1) (endPart s1) (matchedSlash s1) 1
    else s1
  else if negb (startDot s1 =? -1)%Z
  then mkExtScan (startDot s1) (startPart s1) (endPart s1) (matchedSlash s1) (-1)
  else s1.

(** [backwards] holds the characters at indices [i], [i-1], ..., [0]. *)
Fixpoint extnameScan (backwards : list ascii) (i : Z) (s : ExtScan) : ExtScan :=
  match backwards with
  | [] => s
  | code :: rest =>
      if isSep code then
        if negb (matchedSlash s)
        then mkExtScan (startDot s) (i + 1) (endPart s) (matchedSlash s) (preDotState s)
        else extnameScan rest (i - 1) s
      else extnameScan rest (i - 1) (seeChar code i s)
  end.

Definition extname_impl (p : string) : string :=
  let cs := chars p in
  let s := extnameScan (rev cs) (Z.of_nat (length cs) - 1)
             (mkExtScan (-1) 0 (-1) true 0) in
  if ((startDot s =? -1) || (endPart s =? -1) || (preDotState s =? 0)
      || ((preDotState s =? 1) && (startDot s =? endPart s - 1)
          && (startDot s =? startPart s + 1)))%Z%bool
  then ""
  else str (firstn (Z.to_nat (endPart s - startDot s))
              (skipn (Z.to_nat (startDot s)) cs)).

(** *** dirname: the index of the separator that ends the parent *)

Fixpoint dirnameScan (backwards : list ascii) (i : nat) (matched : bool)
  : option nat :=
  match backwards with
  | [] => None
  | code :: rest =>
      if isSep code then
        if negb matched then Some i else dirnameScan rest (i - 1) matched
      else dirnameScan rest (i - 1) false
  end.

Definition dirname_impl (p : string) : string :=
  match chars p with
  | [] => "."
  | first :: others =>
      match dirnameScan (rev others) (length others) true with
      | None => if isSep first then str [separator] else "."
      | Some e =>
          if isSep first && (e =? 1)%nat
          then str [separator; separator]
          else str (firstn e (first :: others))
      end
  end.

(** *** normalize: drop empty and [.] segments, resolve [..] *)

Fixpoint segments (cs : list ascii) (current : list ascii)
  : list (list ascii) :=
  match cs with
  | [] => [rev current]
  | c :: cs' =>
      if isSep c then rev current :: segments cs' []
      else segments cs' (c :: current)
  end.

Definition isDots (n : nat) (segment : list ascii) : bool :=
  (length segment =? n)%nat && forallb (Ascii.eqb "."%char) segment.

(** [kept] is the result so far, last segment first. *)
Definition addSegment (allowAboveRoot : bool)
    (kept : list (list ascii)) (segment : list ascii) : list (list ascii) :=
  if isDots 0 segment || isDots 1 segment then kept
  else if isDots 2 segment then
    match kept with
    | [] => if allowAboveRoot then [segment] else []
    | top :: below => if isDots 2 top then segment :: kept else below
    end
  else segment :: kept.

Fixpoint joinSegments (l : list (list ascii)) : list ascii :=
  match l with
  | [] => []
  | [s] => s
  | s :: l' => s ++ separator :: joinSegments l'
  end.

Definition normalize_impl (p : string) : string :=
  match chars p with
  | [] => "."
  | (first :: _) as cs =>
      let isAbsolute := isSep first in
      let trailingSeparator := isSep (last cs first) in
      let tail :=
        joinSegments
          (rev (fold_left (addSegment (negb isAbsolute)) (segments cs [] ) [])) in
      match tail with
      | [] =>
          if isAbsolute then str [separator]
          else if trailingSeparator then str ["."%char; separator] else "."
      | _ =>
          let tail' := if trailingSeparator then tail ++ [separator] else tail in
          str (if isAbsolute then separator :: tail' else tail')
      end
  end.

Definition join_impl (parts : list string) : string :=
  match filter (fun a => negb (String.eqb a "")) parts with
  | [] => "."
  | nonEmpty => normalize_impl (String.concat (str [separator]) nonEmpty)
  end.

End Implementation.

Definition isPosixSeparator (c : ascii) : bool := Ascii.eqb c "/"%char.

Definition isWin32Separator (c : ascii) : bool :=
  Ascii.eqb c "/"%char || Ascii.eqb c "\"%char.

Definition posix : Api :=
  {| sep := "/"%char;
     isPathSeparator := isPosixSeparator;
     extname := extname_impl isPosixSeparator;
     dirname := dirname_impl "/"%char isPosixSeparator;
     join := join_impl "/"%char isPosixSeparator;
     normalize := normalize_impl "/"%char isPosixSeparator |}.

Definition win32 : Api :=
  {| sep := "\"%char;
     isPathSeparator := isWin32Separator;
     extname := extname_impl isWin32Separator;
     dirname := dirname_impl "\"%char isWin32Separator;
     join := join_impl "\"%char isWin32Separator;
     normalize := normalize_impl "\"%char isWin32Separator |}.

End Path.

(* ================================================================= *)
(** ** Graph construction ([parser.ts]) *)

Module Parser.

Definition sourceExtensions : list string := [".ts"; ".tsx"; ".js"; ".jsx"].

Definition includes (l : list string) (x : string) : bool :=
  existsb (String.eqb x) l.

(** The body of the loop over the matches of [importRegex]:
    [importPath] is [match[1]]; [None] is the [continue]. *)
Definition resolveImport (P : Path.Api) (relativeFilePath importPath : string)
  : option string :=
  let fileExtension := Path.extname P importPath in
  if negb (String.eqb fileExtension "") then
    if includes sourceExtensions fileExtension then
      Some (Path.normalize P
              (Path.join P [Path.dirname P relativeFilePath; importPath]))
    else None
  else
    Some (Path.normalize P
            (Path.join P [Path.dirname P relativeFilePath; (importPath ++ ".ts")%string])).

(** [dependencies] after the loop, given the import targets matched in
    the file, in order. *)
Fixpoint collectDependencies (P : Path.Api) (relativeFilePath : string)
    (importPaths : list string) : list string :=
  match importPaths with
  | [] => []
  | importPath :: rest =>
      match resolveImport P relativeFilePath importPath with
      | Some dependencyName =>
          dependencyName :: collectDependencies P relativeFilePath rest
      | None => collectDependencies P relativeFilePath rest
      end
  end.

(** [s.replace(/\\/g, '/')] *)
Definition replaceBackslashes (s : string) : string :=
  Path.str (map (fun c => if Ascii.eqb c "\"%char then "/"%char else c)
              (Path.chars s)).

(** A file to analyze: its path relative to the working directory, and
    the import targets matched in its content, or [None] when reading
    it failed. *)
Definition SourceFile : Type := (string * option (list string))%type.

Definition parseFile (P : Path.Api) (dependencyMap : DependencyMap)
    (file : SourceFile) : DependencyMap :=
  let relativeFilePath := fst file in
  match snd file with
  | Some importPaths =>
      JsMap.set (replaceBackslashes relativeFilePath)
        (collectDependencies P relativeFilePath importPaths) dependencyMap
  | None => dependencyMap
  end.

Definition parseDependencies (P : Path.Api) (analysisFiles : list SourceFile)
  : DependencyMap :=
  fold_left (parseFile P) analysisFiles JsMap.empty.

End Parser.


(* ================================================================= *)
(** ** Analysis orchestration ([server.ts])

    [runFullAnalysis] is an [async] function over two module-level
    variables.  JavaScript runs it one piece at a time: from a call or a
    resumption up to the next [await], nothing else runs.  The server is
    therefore a transition system whose events are the calls of
    [runFullAnalysis], the settling of the promises it awaits, and the
    firing of the interval timers of its waiting branch.  [step] is the
    handling of one event; [serve] is the process, which starts with
    the call made by the callback of [app.listen] and ends when that
    call is rejected. *)

Module Server.

(** A thrown or rejected value, as far as [getErrorMessage] tells
    values apart. *)
Inductive Thrown : Type :=
| ErrorObject (message : string)
| StringValue (s : string)
| OtherValue.

Definition getErrorMessage (error : Thrown) : string :=
  match error with
  | ErrorObject message => message
  | StringValue s => s
  | OtherValue => "An unknown error occurred."
  end.

(** How a promise settles. *)
Inductive Settled (A : Type) : Type :=
| Fulfilled (value : A)
| Rejected (reason : Thrown).
Arguments Fulfilled {A} value.
Arguments Rejected {A} reason.

(** [AnalysisResult] of [llmAnalyzer.ts]. *)
Record LlmAnalysisResult : Type := mkLlm {
  llmCircularDependencies : list (list string * string);
  llmTightlyCoupledModules : list (string * list string * string);
  refactoringRecommendations : list string
}.

Record FullAnalysisReport : Type := mkReport {
  timestamp : string;
  llmAnalysis : LlmAnalysisResult;
  heuristicAnalysis : Heuristic.HeuristicAnalysisResult
}.

(** Where an invocation that took the running branch is suspended. *)
Inductive Suspended : Type :=
| AwaitParse
| AwaitAnalyses (heuristicResult : Heuristic.HeuristicAnalysisResult).

(** The two variables of the module, and the invocations of
    [runFullAnalysis], numbered in call order: those suspended at an
    [await] of the running branch, those polling in the waiting branch,
    and how the promises of the others have settled.  [graphBuilds]
    counts the calls of [parseDependencies]. *)
Record State : Type := mkState {
  cachedAnalysis : option FullAnalysisReport;
  isAnalysisRunning : bool;
  running : list (nat * Suspended);
  waiting : list nat;
  settled : list (nat * Settled FullAnalysisReport);
  nextCall : nat;
  graphBuilds : nat
}.

Definition initial : State :=
  mkState None false [] [] [] 0 0.

Fixpoint lookup {A : Type} (l : list (nat * A)) (call : nat) : option A :=
  match l with
  | [] => None
  | (c, a) :: l' => if (c =? call)%nat then Some a else lookup l' call
  end.

Definition without {A : Type} (call : nat) (l : list (nat * A)) : list (nat * A) :=
  filter (fun e => negb (fst e =? call)%nat) l.

(** A call of [runFullAnalysis], up to its first suspension: either the
    waiting branch (a promise and an interval timer), or the flag is
    set and [parseDependencies()] is called. *)
Definition runFullAnalysis (st : State) : State :=
  let call := nextCall st in
  if isAnalysisRunning st then
    mkState (cachedAnalysis st) (isAnalysisRunning st) (running st)
      (waiting st ++ [call]) (settled st) (S call) (graphBuilds st)
  else
    mkState (cachedAnalysis st) true (running st ++ [(call, AwaitParse)])
      (waiting st) (settled st) (S call) (S (graphBuilds st)).

(** [catch] and [finally]: the promise rejects with
    [new Error(getErrorMessage(error))] and the flag is cleared. *)
Definition fail (call : nat) (error : Thrown) (st : State) : State :=
  mkState (cachedAnalysis st) false (without call (running st)) (waiting st)
    (settled st ++ [(call, Rejected (ErrorObject (getErrorMessage error)))])
    (nextCall st) (graphBuilds st).

(** The end of the [try] block, then [finally]. *)
Definition succeed (call : nat) (report : FullAnalysisReport) (st : State)
  : State :=
  mkState (Some report) false (without call (running st)) (waiting st)
    (settled st ++ [(call, Fulfilled report)])
    (nextCall st) (graphBuilds st).

(** Resumption after [await parseDependencies()].  The heuristic
    analysis is synchronous, so it runs here, while the array given to
    [Promise.all] is built.  Its [None] is the recursion bound of the
    model, which is never hit; were it an exception, [catch] would turn
    it into a rejection like any other. *)
Definition afterParse (call : nat) (parsed : Settled DependencyMap) (st : State)
  : State :=
  match lookup (running st) call with
  | Some AwaitParse =>
      match parsed with
      | Rejected error => fail call error st
      | Fulfilled dependencyMap =>
          if (JsMap.size dependencyMap =? 0)%nat then
            fail call (ErrorObject "Parser found no files or dependencies.") st
          else
            match Heuristic.analyzeHeuristically dependencyMap with
            | Some heuristicResult =>
                mkState (cachedAnalysis st) (isAnalysisRunning st)
                  (map (fun e => if (fst e =? call)%nat
                                 then (call, AwaitAnalyses heuristicResult) else e)
                     (running st))
                  (waiting st) (settled st) (nextCall st) (graphBuilds st)
            | None => fail call OtherValue st
            end
      end
  | _ => st
  end.

(** Resumption after [await Promise.all([...])]; [llm] is how the
    promise of [analyzeWithLlm] settled and [now] is
    [new Date().toISOString()]. *)
Definition afterAnalyses (call : nat) (llm : Settled (option LlmAnalysisResult))
    (now : string) (st : State) : State :=
  match lookup (running st) call with
  | Some (AwaitAnalyses heuristicResult) =>
      match llm with
      | Rejected error => fail call error st
      | Fulfilled None => fail call (ErrorObject "LLM analysis failed.") st
      | Fulfilled (Some llmResult) =>
          succeed call (mkReport now llmResult heuristicResult) st
      end
  | _ => st
  end.

(** The callback given to [setInterval] in the waiting branch. *)
Definition check (call : nat) (st : State) : State :=
  if existsb (Nat.eqb call) (waiting st) then
    match negb (isAnalysisRunning st), cachedAnalysis st with
    | true, Some report =>
        mkState (cachedAnalysis st) (isAnalysisRunning st) (running st)
          (filter (fun w => negb (w =? call)%nat) (waiting st))
          (settled st ++ [(call, Fulfilled report)])
          (nextCall st) (graphBuilds st)
    | _, _ => st
    end
  else st.

(** [GET /api/analysis]: what the handler does before it returns. *)
Inductive GetResponse : Type :=
| Success (data : FullAnalysisReport)
| OnDemand (call : nat)
| Pending503.

Definition getAnalysis (st : State) : GetResponse * State :=
  match cachedAnalysis st with
  | Some report => (Success report, st)
  | None =>
      if negb (isAnalysisRunning st)
      then (OnDemand (nextCall st), runFullAnalysis st)
      else (Pending503, st)
  end.

Inductive Event : Type :=
| Call
| Get
| ParseSettles (call : nat) (parsed : Settled DependencyMap)
| AnalysesSettle (call : nat) (llm : Settled (option LlmAnalysisResult))
    (now : string)
| IntervalFires (call : nat).

Definition step (st : State) (e : Event) : State :=
  match e with
  | Call => runFullAnalysis st
  | Get => snd (getAnalysis st)
  | ParseSettles call parsed => afterParse call parsed st
  | AnalysesSettle call llm now => afterAnalyses call llm now st
  | IntervalFires call => check call st
  end.

Definition exec (st : State) (trace : list Event) : State :=
  fold_left step trace st.

(** The callback given to [app.listen] makes the first call of
    [runFullAnalysis], before any request is handled: the process
    starts in the state that call leaves. *)
Definition startupCall : nat := 0.

Definition started : State := runFullAnalysis initial.

(** The callback awaits the startup call without a handler.  When that
    promise is rejected, the promise of the callback is rejected with
    nothing to handle it, and Node ends the process.  The routes handle
    the rejections of their own calls ([.catch], [try]/[catch]). *)
Definition exited (st : State) : bool :=
  match lookup (settled st) startupCall with
  | Some (Rejected _) => true
  | _ => false
  end.

(** The process: an event is handled as long as the process lives. *)
Definition handle (st : State) (e : Event) : State :=
  if exited st then st else step st e.

Definition serve (st : State) (trace : list Event) : State :=
  fold_left handle trace st.

(** An event that is a request for a report. *)
Definition isRequest (e : Event) : bool :=
  match e with
  | Call | Get => true
  | _ => false
  end.

(** Every request of the trace arrives while a run is in flight. *)
Fixpoint requestsWhileRunning (st : State) (trace : list Event) : bool :=
  match trace with
  | [] => true
  | e :: rest =>
      (negb (isRequest e) || isAnalysisRunning st)
      && requestsWhileRunning (step st e) rest
  end.

(** An event that completes a run with a report. *)
Definition isSuccess (e : Event) : bool :=
  match e with
  | AnalysesSettle _ (Fulfilled (Some _)) _ => true
  | _ => false
  end.

End Server.


(* ================================================================= *)
(** ** Vocabulary of the specification *)

Module Spec.

(** [b] occurs in the edge list the graph records for [a]. *)
Definition edge (g : DependencyMap) (a b : string) : Prop :=
  In b (Heuristic.dependenciesOf g a).

(** Every consecutive pair of [p] is an edge. *)
Fixpoint walk (g : DependencyMap) (p : list string) : Prop :=
  match p with
  | a :: (b :: _) as rest => edge g a b /\ walk g rest
  | _ => True
  end.

(** A walk of at least one edge that ends where it starts. *)
Definition closedWalk (g : DependencyMap) (p : list string) : Prop :=
  exists x middle, p = x :: middle ++ [x] /\ walk g p.

Definition acyclic (g : DependencyMap) : Prop :=
  forall p, ~ closedWalk g p.

(** The importers of [m], one per edge into [m], in the order the
    edges are iterated. *)
Definition importersOf (g : DependencyMap) (m : string) : list string :=
  flat_map
    (fun entry => map (fun _ => fst entry) (filter (String.eqb m) (snd entry)))
    g.

(** What holds of the shared variables of the traversal whenever
    [detectCycle] is entered, left, or about to look at a dependency:
    the recursion stack holds the nodes of the open path in the same
    order, without repetition, all of them marked visited, and the
    open path follows edges of the graph. *)
Definition consistent (g : DependencyMap) (st : Heuristic.DfsState) : Prop :=
  Heuristic.recursionStack st = Heuristic.openPath st /\
  NoDup (Heuristic.openPath st) /\
  incl (Heuristic.openPath st) (Heuristic.visited st) /\
  walk g (Heuristic.openPath st).

(** The states the shared variables of the traversal go through, one
    operation at a time: [detectCycle] is entered only at a node that is
    not visited, a record is pushed only for a dependency on the stack,
    and [detectCycle] is left at the node that ends the open path. *)
Inductive during : Heuristic.DfsState -> Prop :=
| during_start : during Heuristic.initialDfs
| during_enter st node :
    during st ->
    JsSet.has (Heuristic.visited st) node = false ->
    during (Heuristic.enter node st)
| during_record st dependency :
    during st ->
    JsSet.has (Heuristic.recursionStack st) dependency = true ->
    during (Heuristic.pushCycle st dependency)
| during_leave st p node :
    during st ->
    Heuristic.openPath st = p ++ [node] ->
    during (Heuristic.leave node st).

(** [st'] is [st] after some calls of [detectCycle] that have all
    returned: the open path and the stack are as before, every node
    visited before still is, and the records added are closed walks. *)
Definition extends (g : DependencyMap) (st st' : Heuristic.DfsState) : Prop :=
  Heuristic.openPath st' = Heuristic.openPath st /\
  Heuristic.recursionStack st' = Heuristic.recursionStack st /\
  incl (Heuristic.visited st) (Heuristic.visited st') /\
  exists new,
    Heuristic.cycles st' = Heuristic.cycles st ++ new /\
    Forall (fun c => closedWalk g (Heuristic.path c)) new.

(** The nodes of [universe] not yet visited. *)
Definition unvisited (universe : list string) (st : Heuristic.DfsState) : nat :=
  length (filter (fun x => negb (JsSet.has (Heuristic.visited st) x)) universe).

(** What [incomingMap.get] answers for a module with these importers. *)
Definition entryFor (importers : list string) : option (list string) :=
  match importers with
  | [] => None
  | _ => Some importers
  end.

(** What holds of every state the server can reach: the flag is set
    exactly while one invocation is suspended in the running branch;
    calls are numbered below [nextCall]; an invocation that is
    suspended or waiting has not settled. *)
Definition coherent (st : Server.State) : Prop :=
  ((Server.running st = [] /\ Server.isAnalysisRunning st = false) \/
   (exists call point,
       Server.running st = [(call, point)] /\
       Server.isAnalysisRunning st = true /\
       call < Server.nextCall st /\
       Server.lookup (Server.settled st) call = None)) /\
  (forall call, Server.nextCall st <= call ->
                Server.lookup (Server.settled st) call = None) /\
  (forall w, In w (Server.waiting st) ->
             w < Server.nextCall st /\
             Server.lookup (Server.settled st) w = None /\
             Server.lookup (Server.running st) w = None).

(** What has become of the startup call, in every state of the
    process: it is the run in flight and nothing is cached yet; or it
    was fulfilled and a report is cached; or it was rejected, with
    nothing cached, and the process has ended. *)
Definition startup (st : Server.State) : Prop :=
  (exists point,
      Server.running st = [(Server.startupCall, point)] /\
      Server.cachedAnalysis st = None) \/
  (exists report,
      Server.lookup (Server.settled st) Server.startupCall =
      Some (Server.Fulfilled report) /\
      Server.cachedAnalysis st <> None) \/
  (Server.exited st = true /\
   Server.isAnalysisRunning st = false /\
   Server.cachedAnalysis st = None).

(** The ways a run fails, with the message of the error it rejects
    with: the graph build rejects, the graph is empty, the external
    analyzer rejects, the external analyzer answers [null]. *)
Inductive FailsAt (call : nat) : Server.Suspended -> Server.Event -> string -> Prop :=
| graph_build_rejects error :
    FailsAt call Server.AwaitParse
      (Server.ParseSettles call (Server.Rejected error))
      (Server.getErrorMessage error)
| graph_is_empty (dependencyMap : DependencyMap) :
    JsMap.size dependencyMap = 0 ->
    FailsAt call Server.AwaitParse
      (Server.ParseSettles call (Server.Fulfilled dependencyMap))
      "Parser found no files or dependencies."
| analyzer_rejects heuristicResult error now :
    FailsAt call (Server.AwaitAnalyses heuristicResult)
      (Server.AnalysesSettle call (Server.Rejected error) now)
      (Server.getErrorMessage error)
| analyzer_unavailable heuristicResult now :
    FailsAt call (Server.AwaitAnalyses heuristicResult)
      (Server.AnalysesSettle call (Server.Fulfilled None) now)
      "LLM analysis failed.".

(** What holds while the only requests are those that arrive during
    one run, started before call number [n0] when [b0] graphs had been
    built and nothing was cached: no further graph is built, the cache
    is empty until that run fulfils, and every later call that has
    settled was fulfilled with the report the cache holds. *)
Definition sharing (n0 b0 : nat) (st : Server.State) : Prop :=
  Server.graphBuilds st = b0 /\
  n0 <= Server.nextCall st /\
  (forall call point,
      Server.lookup (Server.running st) call = Some point -> call < n0) /\
  (Server.isAnalysisRunning st = true -> Server.cachedAnalysis st = None) /\
  (forall report,
      Server.cachedAnalysis st = Some report ->
      exists call,
        call < n0 /\
        Server.lookup (Server.settled st) call = Some (Server.Fulfilled report)) /\
  (forall w outcome,
      n0 <= w ->
      Server.lookup (Server.settled st) w = Some outcome ->
      exists report,
        outcome = Server.Fulfilled report /\
        Server.cachedAnalysis st = Some report).

Definition hasBackslash (s : string) : bool :=
  existsb (Ascii.eqb "\"%char) (Path.chars s).

End Spec.

(* ================================================================= *)
(** ** Unwrapping the answer of the model ([llmAnalyzer.ts])

    Before [JSON.parse], [analyzeDependencies] cuts the text of the
    response down twice with [String.prototype.match]: to the content of
    a [```json] fence, then to the span from the first [{] to the last
    [}].  A text is the sequence of its characters.  Both patterns are a
    literal, any characters under a greedy star, and a literal: the
    match starts at the leftmost position from which it can succeed, and
    the star takes as much as it can. *)

Module Llm.

Fixpoint startsWith (pattern text : list ascii) : bool :=
  match pattern, text with
  | [], _ => true
  | p :: pattern', c :: text' => Ascii.eqb p c && startsWith pattern' text'
  | _ :: _, [] => false
  end.

(** The greatest index at which [pattern] occurs in [text]. *)
Fixpoint lastOccurrence (pattern text : list ascii) : option nat :=
  match text with
  | [] => if startsWith pattern [] then Some 0 else None
  | _ :: text' =>
      match lastOccurrence pattern text' with
      | Some j => Some (S j)
      | None => if startsWith pattern text then Some 0 else None
      end
  end.

Definition fenceOpen : list ascii := list_ascii_of_string "```json".
Definition fenceClose : list ascii := list_ascii_of_string "```".

(** [text.match] with the fence pattern (the literal [```json], a group
    of any characters, the literal [```]): the group, when there is a
    match. *)
Fixpoint matchFence (text : list ascii) : option (list ascii) :=
  match text with
  | [] => None
  | _ :: text' =>
      if startsWith fenceOpen text then
        let rest := skipn (length fenceOpen) text in
        match lastOccurrence fenceClose rest with
        | Some j => Some (firstn j rest)
        | None => matchFence text'
        end
      else matchFence text'
  end.

(** [text.match] with the object pattern (a [{], any characters, a
    [}]): the whole match, when there is one. *)
Fixpoint matchObject (text : list ascii) : option (list ascii) :=
  match text with
  | [] => None
  | c :: text' =>
      if Ascii.eqb c "{"%char then
        match lastOccurrence ["}"%char] text' with
        | Some j => Some (c :: firstn (S j) text')
        | None => matchObject text'
        end
      else matchObject text'
  end.

(** The text given to [JSON.parse].  An empty group is falsy, so it is
    not taken. *)
Definition unwrapResponse (responseText : list ascii) : list ascii :=
  let unfenced :=
    match matchFence responseText with
    | Some (c :: group) => c :: group
    | _ => responseText
    end in
  match matchObject unfenced with
  | Some object => object
  | None => unfenced
  end.

End Llm.

(** Further vocabulary, for the properties beyond the specification. *)
Module Notions.

(** [text] has an opening brace with a closing brace somewhere after. *)
Definition hasObject (text : list ascii) : Prop :=
  exists a b c, text = a ++ "{"%char :: b ++ "}"%char :: c.

(** [h] is the heuristic analysis of some graph that is not empty. *)
Definition analysed (h : Heuristic.HeuristicAnalysisResult) : Prop :=
  exists g : DependencyMap,
    JsMap.size g <> 0 /\ Heuristic.analyzeHeuristically g = Some h.

(** [finished] lists nodes, the latest first, so that every edge from
    one of them leads to one listed after it. *)
Definition finishedIn (g : DependencyMap) (finished : list string) : Prop :=
  forall before u after,
    finished = before ++ u :: after ->
    forall v, Spec.edge g u v -> In v after.

(** [finished] are the nodes that [detectCycle] has been entered at and
    left: the visited nodes that are not on the recursion stack. *)
Definition leftBehind (g : DependencyMap) (st : Heuristic.DfsState)
    (finished : list string) : Prop :=
  (forall x, In x (Heuristic.visited st) <->
             In x (Heuristic.recursionStack st) \/ In x finished) /\
  (forall x, In x (Heuristic.recursionStack st) -> ~ In x finished) /\
  finishedIn g finished.

(** The number of edges the graph records. *)
Definition edgeCount (g : DependencyMap) : nat :=
  list_sum (map (fun entry => length (snd entry)) g).

(** The number of edges looked at when [detectCycle] is entered at each
    of [nodes]. *)
Definition edgesFrom (g : DependencyMap) (nodes : list string) : nat :=
  list_sum (map (fun n => length (Heuristic.dependenciesOf g n)) nodes).

(** [a] has at least as many importers as [b]. *)
Definition moreImporters (a b : Heuristic.HubRecord) : Prop :=
  (Heuristic.importerCount b <= Heuristic.importerCount a)%Z.

End Notions.

Import Heuristic.

(* ================================================================= *)
(** ** Facts about the collections *)

Section Collections.

Context {V : Type}.

Lemma get_set (m : JsMap.t V) (k k' : string) (v : V) :
  JsMap.get (JsMap.set k v m) k' =
  if String.eqb k k' then Some v else JsMap.get m k'.
Proof.
  induction m as [|[k0 v0] m IH]; simpl.
  - reflexivity.
  - destruct (String.eqb_spec k0 k) as [->|Hne]; simpl.
    + destruct (String.eqb k k'); reflexivity.
    + destruct (String.eqb_spec k0 k') as [->|Hne'].
      * destruct (String.eqb_spec k k'); [congruence|reflexivity].
      * exact IH.
Qed.

Lemma keys_set (m : JsMap.t V) (k : string) (v : V) :
  JsMap.keys (JsMap.set k v m) =
  if JsSet.has (JsMap.keys m) k then JsMap.keys m else JsMap.keys m ++ [k].
Proof.
  unfold JsMap.keys.
  induction m as [|[k0 v0] m IH]; simpl.
  - reflexivity.
  - destruct (String.eqb_spec k0 k) as [->|Hne]; simpl.
    + reflexivity.
    + rewrite IH. destruct (JsSet.has (map fst m) k); reflexivity.
Qed.

Lemma has_In (s : JsSet.t) (x : string) : JsSet.has s x = true <-> In x s.
Proof.
  induction s as [|y s IH]; simpl.
  - split; [discriminate|tauto].
  - destruct (String.eqb_spec y x) as [->|Hne].
    + tauto.
    + rewrite IH. split; [tauto|intros [H|H]; [congruence|exact H]].
Qed.

Lemma has_false (s : JsSet.t) (x : string) : JsSet.has s x = false <-> ~ In x s.
Proof.
  rewrite <- has_In. destruct (JsSet.has s x); split; congruence.
Qed.

Lemma set_keeps_NoDup (m : JsMap.t V) (k : string) (v : V) :
  NoDup (JsMap.keys m) -> NoDup (JsMap.keys (JsMap.set k v m)).
Proof.
  intros H. rewrite keys_set.
  destruct (JsSet.has (JsMap.keys m) k) eqn:E; [exact H|].
  apply has_false in E.
  apply NoDup_app; [exact H|repeat constructor; simpl; tauto|].
  intros x Hx [<-|[]]. exact (E Hx).
Qed.

Lemma get_In (m : JsMap.t V) (k : string) (v : V) :
  JsMap.get m k = Some v -> In (k, v) m.
Proof.
  induction m as [|[k0 v0] m IH]; simpl; [discriminate|].
  destruct (String.eqb_spec k0 k) as [->|Hne].
  - intros [= ->]. now left.
  - intros H. right. exact (IH H).
Qed.

Lemma In_get (m : JsMap.t V) (k : string) (v : V) :
  NoDup (JsMap.keys m) -> In (k, v) m -> JsMap.get m k = Some v.
Proof.
  induction m as [|[k0 v0] m IH]; simpl; [tauto|].
  intros Hnd [[= -> ->]|Hin].
  - now rewrite String.eqb_refl.
  - inversion Hnd as [|? ? Hnotin Hnd']; subst.
    destruct (String.eqb_spec k0 k) as [->|Hne].
    + exfalso. apply Hnotin. exact (in_map fst _ _ Hin).
    + exact (IH Hnd' Hin).
Qed.

End Collections.

(* ================================================================= *)
(** ** Hub detection *)

Section Hubs.

Implicit Types (g : DependencyMap) (incoming : JsMap.t (list string)).

Lemma addImporter_get importer incoming d m :
  JsMap.get (addImporter importer incoming d) m =
  if String.eqb d m
  then Spec.entryFor
         (match JsMap.get incoming d with Some l => l | None => [] end ++ [importer])
  else JsMap.get incoming m.
Proof.
  unfold addImporter. rewrite get_set.
  destruct (String.eqb d m); [|reflexivity].
  destruct (JsMap.get incoming d) as [[|x l]|]; reflexivity.
Qed.

Lemma entryFor_get incoming (f : string -> list string) m :
  (forall m, JsMap.get incoming m = Spec.entryFor (f m)) ->
  match JsMap.get incoming m with Some l => l | None => [] end = f m.
Proof.
  intros H. rewrite H. destruct (f m); reflexivity.
Qed.

Lemma importers_of_file importer deps : forall incoming f,
  (forall m, JsMap.get incoming m = Spec.entryFor (f m)) ->
  forall m,
    JsMap.get (fold_left (addImporter importer) deps incoming) m =
    Spec.entryFor
      (f m ++ map (fun _ => importer) (filter (String.eqb m) deps)).
Proof.
  induction deps as [|d deps IH]; intros incoming f Hinv m; simpl.
  - rewrite app_nil_r. apply Hinv.
  - rewrite (IH _ (fun m => f m ++ if String.eqb m d then [importer] else [])).
    + destruct (String.eqb m d); simpl; [rewrite <- app_assoc|rewrite app_nil_r];
        reflexivity.
    + intros m'. rewrite addImporter_get, (String.eqb_sym m' d).
      destruct (String.eqb_spec d m') as [->|Hne].
      * now rewrite (entryFor_get _ f).
      * rewrite app_nil_r. apply Hinv.
Qed.

Lemma importers_of_graph g : forall incoming f,
  (forall m, JsMap.get incoming m = Spec.entryFor (f m)) ->
  forall m,
    JsMap.get
      (fold_left
         (fun incomingMap entry =>
            fold_left (addImporter (fst entry)) (snd entry) incomingMap)
         g incoming) m =
    Spec.entryFor (f m ++ Spec.importersOf g m).
Proof.
  induction g as [|[importer deps] g IH]; intros incoming f Hinv m; simpl.
  - rewrite app_nil_r. apply Hinv.
  - rewrite (IH _ (fun m => f m ++ map (fun _ => importer)
                                    (filter (String.eqb m) deps))).
    + now rewrite <- app_assoc.
    + intros m'. now apply importers_of_file.
Qed.

Lemma buildIncomingMap_get g m :
  JsMap.get (buildIncomingMap g) m = Spec.entryFor (Spec.importersOf g m).
Proof.
  unfold buildIncomingMap.
  now rewrite (importers_of_graph g JsMap.empty (fun _ => [])).
Qed.

Lemma buildIncomingMap_NoDup g : NoDup (JsMap.keys (buildIncomingMap g)).
Proof.
  unfold buildIncomingMap.
  assert (H : NoDup (JsMap.keys (@JsMap.empty (list string)))) by constructor.
  revert H. generalize (@JsMap.empty (list string)).
  induction g as [|[importer deps] g IH]; intros incoming H; simpl; [exact H|].
  apply IH. clear IH. revert incoming H.
  induction deps as [|d deps IH]; intros incoming H; simpl; [exact H|].
  apply IH. unfold addImporter. now apply set_keeps_NoDup.
Qed.

Lemma insertBy_perm {A} (cmp : A -> A -> Z) x l :
  Permutation (insertBy cmp x l) (x :: l).
Proof.
  induction l as [|y l IH]; simpl.
  - reflexivity.
  - destruct (cmp x y <=? 0)%Z; [reflexivity|].
    rewrite IH. apply perm_swap.
Qed.

Lemma sortBy_perm {A} (cmp : A -> A -> Z) l : Permutation (sortBy cmp l) l.
Proof.
  induction l as [|x l IH]; simpl.
  - reflexivity.
  - rewrite insertBy_perm. now constructor.
Qed.

Lemma hub_record_iff g threshold m ims :
  In (mkHub m ims) (findTightlyCoupledModules g threshold) <->
  ims = Spec.importersOf g m /\ ims <> [] /\
  (threshold <= Z.of_nat (length ims))%Z.
Proof.
  unfold findTightlyCoupledModules.
  split.
  - intros H. apply (Permutation_in _ (sortBy_perm _ _)) in H.
    apply in_map_iff in H. destruct H as [[m' ims'] [[= -> ->] H]].
    apply filter_In in H. destruct H as [Hin Hle]. simpl in Hle.
    apply (In_get _ _ _ (buildIncomingMap_NoDup g)) in Hin.
    rewrite buildIncomingMap_get in Hin.
    destruct (Spec.importersOf g m) as [|x l] eqn:E; simpl in Hin; [discriminate|].
    injection Hin as <-. repeat split; [discriminate|lia].
  - intros (-> & Hne & Hle).
    apply (Permutation_in _ (Permutation_sym (sortBy_perm _ _))).
    apply in_map_iff. exists (m, Spec.importersOf g m). split; [reflexivity|].
    apply filter_In. split; [|simpl; lia].
    apply get_In. rewrite buildIncomingMap_get.
    destruct (Spec.importersOf g m); [congruence|reflexivity].
Qed.

Lemma hub_modules_NoDup g threshold :
  NoDup (map module (findTightlyCoupledModules g threshold)).
Proof.
  unfold findTightlyCoupledModules.
  eapply Permutation_NoDup.
  - apply Permutation_map, Permutation_sym, sortBy_perm.
  - rewrite map_map. simpl.
    pose proof (buildIncomingMap_NoDup g) as H. unfold JsMap.keys in H.
    induction (buildIncomingMap g) as [|e l IH]; simpl; [constructor|].
    inversion H as [|? ? Hnotin Hnd]; subst.
    destruct (threshold <=? _)%Z; simpl; [|now apply IH].
    constructor; [|now apply IH].
    intros Hin. apply Hnotin. apply in_map_iff in Hin.
    destruct Hin as [e' [He' Hin]]. apply filter_In in Hin.
    apply in_map_iff. exists e'. tauto.
Qed.

End Hubs.

(** C4.  On the graph A->B, A->C, D->B, E->B the hub detector with
    threshold 3 returns the single record for B with importers A, D, E,
    and with threshold 4 it returns nothing.  For every graph and
    threshold, a record is returned exactly for the modules that have an
    entry in the reverse adjacency (at least one importer) whose importer
    list, holding one importer per edge into the module, has length at
    least the threshold; no module gets two records. *)
Theorem hub_detector_selects_by_importer_count :
  let example := [("A", ["B"; "C"]); ("D", ["B"]); ("E", ["B"])] in
  findTightlyCoupledModules example 3 = [mkHub "B" ["A"; "D"; "E"]] /\
  findTightlyCoupledModules example 4 = [] /\
  forall (g : DependencyMap) (threshold : Z),
    NoDup (map module (findTightlyCoupledModules g threshold)) /\
    forall m ims,
      In (mkHub m ims) (findTightlyCoupledModules g threshold) <->
      (ims = Spec.importersOf g m /\ ims <> [] /\
       (threshold <= Z.of_nat (length ims))%Z).
Proof.
  split; [reflexivity|]. split; [reflexivity|].
  intros g threshold. split.
  - apply hub_modules_NoDup.
  - intros m ims. apply hub_record_iff.
Qed.

(* ================================================================= *)
(** ** Cycle detection *)

Section ArrayFacts.

Lemma indexOf_first (d : string) (l : list string) :
  In d l ->
  exists before after,
    l = before ++ d :: after /\ ~ In d before /\
    indexOf d l = Z.of_nat (length before).
Proof.
  induction l as [|y l IH]; simpl; [tauto|].
  intros Hin. destruct (String.eqb_spec y d) as [->|Hne].
  - exists [], l. simpl. tauto.
  - destruct Hin as [Heq|Hin]; [congruence|].
    destruct (IH Hin) as (before & after & -> & Hnotin & Hidx).
    exists (y :: before), after. simpl. rewrite Hidx.
    split; [reflexivity|]. split; [intros [H|H]; [congruence|tauto]|].
    destruct (Z.ltb_spec (Z.of_nat (length before)) 0); lia.
Qed.

Lemma slice_from_first (d : string) (l : list string) :
  In d l ->
  exists before after,
    l = before ++ d :: after /\ ~ In d before /\
    slice l (indexOf d l) = d :: after.
Proof.
  intros Hin. destruct (indexOf_first d l Hin) as (before & after & E & Hn & Hi).
  exists before, after. split; [exact E|]. split; [exact Hn|].
  rewrite Hi. unfold slice.
  destruct (Z.ltb_spec (Z.of_nat (length before)) 0); [lia|].
  rewrite Z.min_l.
  - rewrite Nat2Z.id, E, skipn_app, skipn_all, Nat.sub_diag. reflexivity.
  - rewrite E, length_app. simpl. lia.
Qed.

Lemma In_add (x y : string) (s : JsSet.t) :
  In x (JsSet.add y s) <-> x = y \/ In x s.
Proof.
  unfold JsSet.add. destruct (JsSet.has s y) eqn:E.
  - apply has_In in E. split; [tauto|]. intros [->|H]; assumption.
  - rewrite in_app_iff. simpl. split; [intros [H|[H|[]]]|intros [H|H]]; auto.
Qed.

Lemma add_absent (x : string) (s : JsSet.t) :
  ~ In x s -> JsSet.add x s = s ++ [x].
Proof.
  intros H. apply has_false in H. unfold JsSet.add. now rewrite H.
Qed.

Lemma delete_last (x : string) (s : JsSet.t) :
  ~ In x s -> JsSet.delete x (s ++ [x]) = s.
Proof.
  induction s as [|y s IH]; simpl; intros H.
  - now rewrite String.eqb_refl.
  - destruct (String.eqb_spec y x) as [->|Hne]; [tauto|].
    rewrite IH; tauto.
Qed.

End ArrayFacts.

Section Walks.

Variable g : DependencyMap.

Lemma walk_suffix (a b : list string) : Spec.walk g (a ++ b) -> Spec.walk g b.
Proof.
  induction a as [|x a IH]; simpl; [tauto|].
  destruct (a ++ b) eqn:E.
  - destruct a, b; simpl in *; try discriminate; tauto.
  - intros [_ H]. exact (IH H).
Qed.

Lemma walk_snoc (l : list string) (x y : string) :
  Spec.walk g (l ++ [x]) -> Spec.edge g x y -> Spec.walk g (l ++ [x; y]).
Proof.
  induction l as [|a l IH]; simpl.
  - tauto.
  - intros H Hxy.
    destruct l as [|b l]; simpl in *; [tauto|].
    split; [tauto|]. apply IH; tauto.
Qed.

Lemma walk_nth (p : list string) : Spec.walk g p ->
  forall i a b, nth_error p i = Some a -> nth_error p (S i) = Some b ->
                Spec.edge g a b.
Proof.
  induction p as [|x p IH]; intros Hw i a b Ha Hb.
  - destruct i; discriminate.
  - destruct p as [|y p]; [destruct i; discriminate|].
    destruct Hw as [Hxy Hw].
    destruct i as [|i]; simpl in Ha, Hb.
    + congruence.
    + exact (IH Hw i a b Ha Hb).
Qed.

End Walks.

Section Traversal.

Variable g : DependencyMap.

Lemma extends_refl st : Spec.extends g st st.
Proof.
  repeat split; try apply incl_refl.
  exists []. now rewrite app_nil_r.
Qed.

Lemma extends_trans st1 st2 st3 :
  Spec.extends g st1 st2 -> Spec.extends g st2 st3 -> Spec.extends g st1 st3.
Proof.
  intros (Hp & Hs & Hv & n1 & Hc & Hn1) (Hp' & Hs' & Hv' & n2 & Hc' & Hn2).
  repeat split; try congruence.
  - eapply incl_tran; eassumption.
  - exists (n1 ++ n2). rewrite Hc', Hc, app_assoc. split; [reflexivity|].
    apply Forall_app. tauto.
Qed.

Lemma extends_consistent st st' :
  Spec.consistent g st -> Spec.extends g st st' -> Spec.consistent g st'.
Proof.
  intros (Hs & Hnd & Hv & Hw) (Hp' & Hs' & Hv' & _).
  unfold Spec.consistent. rewrite Hp', Hs'.
  repeat split; try assumption. eapply incl_tran; eassumption.
Qed.

Lemma filter_length_mono {A} (p q : A -> bool) (l : list A) :
  (forall x, In x l -> q x = true -> p x = true) ->
  length (filter q l) <= length (filter p l).
Proof.
  induction l as [|x l IH]; simpl; intros H; [lia|].
  assert (IH' := IH (fun y Hy => H y (or_intror Hy))).
  specialize (H x (or_introl eq_refl)).
  destruct (q x), (p x); simpl; first [lia | discriminate (H eq_refl)].
Qed.

Lemma filter_length_lt {A} (p q : A -> bool) (l : list A) (a : A) :
  (forall x, In x l -> q x = true -> p x = true) ->
  In a l -> p a = true -> q a = false ->
  length (filter q l) < length (filter p l).
Proof.
  induction l as [|x l IH]; simpl; intros H Ha Hpa Hqa; [tauto|].
  assert (Hle := filter_length_mono p q l (fun y Hy => H y (or_intror Hy))).
  destruct Ha as [->|Ha].
  - rewrite Hpa, Hqa. simpl. lia.
  - assert (IH' := IH (fun y Hy => H y (or_intror Hy)) Ha Hpa Hqa).
    specialize (H x (or_introl eq_refl)).
    destruct (q x), (p x); simpl; first [lia | discriminate (H eq_refl)].
Qed.

Lemma unvisited_mono universe st st' :
  incl (visited st) (visited st') ->
  Spec.unvisited universe st' <= Spec.unvisited universe st.
Proof.
  intros Hv. apply filter_length_mono. intros x _ Hx.
  apply negb_true_iff, has_false in Hx.
  apply negb_true_iff, has_false. intros Hin. exact (Hx (Hv x Hin)).
Qed.

Lemma unvisited_enter universe node st :
  In node universe -> ~ In node (visited st) ->
  Spec.unvisited universe (enter node st) < Spec.unvisited universe st.
Proof.
  intros Hu Hv. apply filter_length_lt with (a := node).
  - intros x _ Hx. apply negb_true_iff, has_false in Hx.
    apply negb_true_iff, has_false. intros Hin. apply Hx. simpl.
    apply In_add. now right.
  - exact Hu.
  - now apply negb_true_iff, has_false.
  - apply negb_false_iff, has_In. simpl. apply In_add. now left.
Qed.

Lemma In_fold_add (l : list string) : forall (s : JsSet.t) (x : string),
  In x (fold_left (fun all d => JsSet.add d all) l s) <-> In x s \/ In x l.
Proof.
  induction l as [|d l IH]; intros s x; simpl; [tauto|].
  rewrite IH, In_add. intuition congruence.
Qed.

Lemma targets_in_allNodes (k d : string) (deps : list string) :
  In (k, deps) g -> In d deps -> In d (allNodes g).
Proof.
  unfold allNodes. generalize (JsSet.of_list (JsMap.keys g)).
  induction g as [|e g' IH]; simpl; [tauto|].
  intros s [->|Hin] Hd.
  - simpl.
    assert (H : In d (fold_left (fun all' dep => JsSet.add dep all') deps s))
      by (apply In_fold_add; now right).
    revert H. generalize (fold_left (fun all' dep => JsSet.add dep all') deps s).
    clear. induction g' as [|e g' IH]; simpl; [tauto|].
    intros s H. apply IH. apply In_fold_add. now left.
  - now apply IH.
Qed.

Lemma dependencies_in_allNodes (node d : string) :
  Spec.edge g node d -> In d (allNodes g).
Proof.
  unfold Spec.edge, dependenciesOf.
  destruct (JsMap.get g node) as [deps|] eqn:E; [|intros []].
  apply targets_in_allNodes with (k := node). now apply get_In.
Qed.

End Traversal.

Section Detection.

Variable g : DependencyMap.

Lemma suffix_ends_alike {A} (l1 l2 p : list A) (x : A) :
  l1 ++ l2 = p ++ [x] -> l2 <> [] -> exists q, l2 = q ++ [x].
Proof.
  intros E Hne. destruct (exists_last Hne) as (q & y & ->).
  rewrite app_assoc in E. apply app_inj_tail in E. destruct E as [_ ->].
  now exists q.
Qed.

(** At a back edge the record is the open path from the first
    occurrence of the dependency on, closed by the dependency. *)
Lemma back_edge_record st dependency :
  JsSet.has (recursionStack st) dependency = true ->
  recursionStack st = openPath st ->
  exists before after,
    openPath st = before ++ dependency :: after /\
    ~ In dependency before /\
    pushCycle st dependency =
    mkDfs (cycles st ++ [mkCycle (dependency :: after ++ [dependency])])
      (visited st) (recursionStack st) (openPath st).
Proof.
  intros Hhas Hstack. apply has_In in Hhas. rewrite Hstack in Hhas.
  destruct (slice_from_first _ _ Hhas) as (before & after & E & Hn & Hs).
  exists before, after. split; [exact E|]. split; [exact Hn|].
  unfold pushCycle, cyclePath. now rewrite Hs.
Qed.

Lemma back_edge_extends st p node dependency :
  Spec.consistent g st ->
  openPath st = p ++ [node] ->
  Spec.edge g node dependency ->
  JsSet.has (recursionStack st) dependency = true ->
  Spec.extends g st (pushCycle st dependency).
Proof.
  intros (Hstack & Hnd & Hv & Hw) Hp Hedge Hhas.
  destruct (back_edge_record st dependency Hhas Hstack)
    as (before & after & E & _ & ->).
  repeat split; try apply incl_refl.
  exists [mkCycle (dependency :: after ++ [dependency])].
  split; [reflexivity|]. constructor; [|constructor]. simpl.
  exists dependency, after. split; [reflexivity|].
  rewrite E in Hw, Hp. apply walk_suffix in Hw.
  destruct (suffix_ends_alike _ _ _ _ Hp) as [q Hq]; [discriminate|].
  change (dependency :: after ++ [dependency])
    with ((dependency :: after) ++ [dependency]).
  rewrite Hq in *. rewrite <- app_assoc. now apply walk_snoc.
Qed.

Section Loop.

Variable fuel : nat.

Hypothesis detectCycle_returns : forall node st,
  Spec.consistent g st ->
  In node (allNodes g) ->
  ~ In node (visited st) ->
  Spec.walk g (openPath st ++ [node]) ->
  Spec.unvisited (allNodes g) st <= fuel ->
  exists st', detectCycle g fuel node st = Some st' /\ Spec.extends g st st'.

Lemma forEachDependency_returns p node : forall dependencies st,
  Spec.consistent g st ->
  openPath st = p ++ [node] ->
  (forall d, In d dependencies -> Spec.edge g node d) ->
  Spec.unvisited (allNodes g) st <= fuel ->
  exists st',
    forEachDependency (detectCycle g fuel) dependencies st = Some st' /\
    Spec.extends g st st'.
Proof.
  induction dependencies as [|d rest IH]; intros st Hc Hp Hedges Hfuel; simpl.
  - exists st. split; [reflexivity|apply extends_refl].
  - assert (Hd : Spec.edge g node d) by (apply Hedges; now left).
    assert (Hstep : exists st1,
               visitDependency (detectCycle g fuel) d st = Some st1 /\
               Spec.extends g st st1).
    { unfold visitDependency.
      destruct (JsSet.has (recursionStack st) d) eqn:Estack.
      - eexists. split; [reflexivity|]. now apply back_edge_extends with p node.
      - destruct (JsSet.has (visited st) d) eqn:Evisited; simpl.
        + exists st. split; [reflexivity|apply extends_refl].
        + apply detectCycle_returns; try assumption.
          * now apply dependencies_in_allNodes with node.
          * now apply has_false.
          * rewrite Hp, <- app_assoc. apply walk_snoc; [|exact Hd].
            rewrite <- Hp. apply Hc. }
    destruct Hstep as (st1 & -> & Hext).
    destruct (IH st1) as (st2 & -> & Hext').
    + now apply extends_consistent with st.
    + destruct Hext as [-> _]. exact Hp.
    + intros d' Hd'. apply Hedges. now right.
    + destruct Hext as (_ & _ & Hv & _).
      pose proof (unvisited_mono (allNodes g) _ _ Hv). lia.
    + exists st2. split; [reflexivity|]. now apply extends_trans with st1.
Qed.

End Loop.

Lemma enter_consistent node st :
  Spec.consistent g st ->
  ~ In node (visited st) ->
  Spec.walk g (openPath st ++ [node]) ->
  Spec.consistent g (enter node st).
Proof.
  intros (Hstack & Hnd & Hv & Hw) Hnew Hwalk.
  assert (Hfresh : ~ In node (openPath st)) by (intros H; exact (Hnew (Hv _ H))).
  unfold Spec.consistent, enter. simpl. repeat split.
  - rewrite add_absent, Hstack; [reflexivity|now rewrite Hstack].
  - apply NoDup_app; [exact Hnd|repeat constructor; simpl; tauto|].
    intros x Hx [<-|[]]. exact (Hfresh Hx).
  - intros x Hx. apply In_add. apply in_app_iff in Hx.
    destruct Hx as [Hx|[<-|[]]]; [right; now apply Hv|now left].
  - exact Hwalk.
Qed.

Lemma leave_extends node st st' :
  Spec.consistent g st ->
  ~ In node (visited st) ->
  Spec.extends g (enter node st) st' ->
  Spec.extends g st (leave node st').
Proof.
  intros (Hstack & Hnd & Hv & Hw) Hnew (Hp & Hs & Hvis & new & Hc & Hnew').
  assert (Hfresh : ~ In node (recursionStack st))
    by (rewrite Hstack; intros H; exact (Hnew (Hv _ H))).
  unfold leave. repeat split; simpl.
  - rewrite Hp. simpl. apply removelast_last.
  - rewrite Hs. simpl. rewrite add_absent by exact Hfresh.
    now apply delete_last.
  - intros x Hx. apply Hvis. simpl. apply In_add. now right.
  - exists new. simpl in Hc. tauto.
Qed.

(** With as much [fuel] as there are unvisited nodes, [detectCycle]
    returns. *)
Lemma detectCycle_returns : forall fuel node st,
  Spec.consistent g st ->
  In node (allNodes g) ->
  ~ In node (visited st) ->
  Spec.walk g (openPath st ++ [node]) ->
  Spec.unvisited (allNodes g) st <= fuel ->
  exists st', detectCycle g fuel node st = Some st' /\ Spec.extends g st st'.
Proof.
  induction fuel as [|fuel IH]; intros node st Hc Hnode Hnew Hwalk Hfuel.
  - pose proof (unvisited_enter _ _ _ Hnode Hnew). lia.
  - simpl.
    destruct (forEachDependency_returns fuel IH (openPath st) node
                (dependenciesOf g node) (enter node st))
      as (st' & -> & Hext).
    + now apply enter_consistent.
    + reflexivity.
    + intros d Hd. exact Hd.
    + pose proof (unvisited_enter _ _ _ Hnode Hnew). lia.
    + exists (leave node st'). split; [reflexivity|].
      now apply leave_extends.
Qed.

Lemma forEachRoot_returns fuel : forall nodes st,
  length (allNodes g) <= fuel ->
  incl nodes (allNodes g) ->
  recursionStack st = [] ->
  Forall (fun c => Spec.closedWalk g (path c)) (cycles st) ->
  exists st',
    forEachRoot g fuel nodes st = Some st' /\
    Forall (fun c => Spec.closedWalk g (path c)) (cycles st').
Proof.
  induction nodes as [|node rest IH]; intros st Hfuel Hincl Hstack Hcycles; simpl.
  - now exists st.
  - assert (Hrest : incl rest (allNodes g))
      by (intros x Hx; apply Hincl; now right).
    destruct (JsSet.has (visited st) node) eqn:Evisited; simpl.
    + now apply IH.
    + set (root := {| cycles := cycles st; visited := visited st;
                      recursionStack := recursionStack st; openPath := [] |}).
      destruct (detectCycle_returns fuel node root) as (st' & -> & Hext).
      * unfold Spec.consistent, root. simpl.
        repeat split; [exact Hstack|constructor|intros x []].
      * apply Hincl. now left.
      * now apply has_false.
      * exact I.
      * unfold Spec.unvisited. etransitivity; [apply List.filter_length_le|exact Hfuel].
      * destruct Hext as (_ & Hs & _ & new & Hc & Hnew).
        apply IH; try assumption.
        -- rewrite Hs. exact Hstack.
        -- rewrite Hc. apply Forall_app. tauto.
Qed.

(** The cycle detector returns, and only closed walks. *)
Lemma findCircularDependencies_returns :
  exists found,
    findCircularDependencies g = Some found /\
    Forall (fun c => Spec.closedWalk g (path c)) found.
Proof.
  unfold findCircularDependencies.
  destruct (forEachRoot_returns (S (length (allNodes g))) (allNodes g) initialDfs)
    as (st & -> & H).
  - lia.
  - apply incl_refl.
  - reflexivity.
  - constructor.
  - now exists (cycles st).
Qed.

Lemma analyzeHeuristically_returns :
  exists result, analyzeHeuristically g = Some result.
Proof.
  unfold analyzeHeuristically.
  destruct findCircularDependencies_returns as (found & -> & _).
  now eexists.
Qed.

End Detection.

Section During.

Lemma during_stack st :
  Spec.during st ->
  recursionStack st = openPath st /\
  NoDup (openPath st) /\
  incl (openPath st) (visited st).
Proof.
  induction 1 as [|st node _ (Hs & Hnd & Hv) Hnew
                  |st d _ IH _
                  |st p node _ (Hs & Hnd & Hv) Hp].
  - repeat split; [constructor|intros x []].
  - apply has_false in Hnew.
    assert (Hfresh : ~ In node (openPath st)) by (intros H; exact (Hnew (Hv _ H))).
    simpl. repeat split.
    + rewrite add_absent, Hs; [reflexivity|now rewrite Hs].
    + apply NoDup_app; [exact Hnd|repeat constructor; simpl; tauto|].
      intros x Hx [<-|[]]. exact (Hfresh Hx).
    + intros x Hx. apply In_add. apply in_app_iff in Hx.
      destruct Hx as [Hx|[<-|[]]]; [right; now apply Hv|now left].
  - exact IH.
  - simpl. rewrite Hs, Hp, removelast_last. rewrite Hp in Hnd, Hv.
    apply NoDup_remove in Hnd. rewrite app_nil_r in Hnd.
    destruct Hnd as (Hnd & Hfresh).
    repeat split.
    + now apply delete_last.
    + exact Hnd.
    + intros x Hx. apply Hv, in_app_iff. now left.
Qed.

Variable g : DependencyMap.

Lemma forEachDependency_path rec :
  (forall d st st', rec d st = Some st' -> openPath st' = openPath st) ->
  forall dependencies st st',
    forEachDependency rec dependencies st = Some st' ->
    openPath st' = openPath st.
Proof.
  intros Hrec. induction dependencies as [|d rest IH]; intros st st'; simpl.
  - now intros [= <-].
  - unfold visitDependency.
    destruct (JsSet.has (recursionStack st) d).
    + intros H. now rewrite (IH _ _ H).
    + destruct (JsSet.has (visited st) d); simpl.
      * apply IH.
      * destruct (rec d st) as [st1|] eqn:E; [|discriminate].
        intros H. rewrite (IH _ _ H). now apply Hrec with d.
Qed.

Lemma detectCycle_path : forall fuel node st st',
  detectCycle g fuel node st = Some st' -> openPath st' = openPath st.
Proof.
  induction fuel as [|fuel IH]; intros node st st'; simpl; [discriminate|].
  destruct (forEachDependency _ _ _) as [st2|] eqn:E; [|discriminate].
  intros [= <-]. simpl.
  rewrite (forEachDependency_path _ (IH) _ _ _ E). simpl.
  apply removelast_last.
Qed.

Lemma forEachDependency_during rec :
  (forall d st st',
      Spec.during st -> JsSet.has (visited st) d = false ->
      rec d st = Some st' -> Spec.during st') ->
  forall dependencies st st',
    Spec.during st ->
    forEachDependency rec dependencies st = Some st' ->
    Spec.during st'.
Proof.
  intros Hrec. induction dependencies as [|d rest IH]; intros st st' Hd; simpl.
  - now intros [= <-].
  - unfold visitDependency.
    destruct (JsSet.has (recursionStack st) d) eqn:Es.
    + apply IH. now constructor.
    + destruct (JsSet.has (visited st) d) eqn:Ev; simpl.
      * now apply IH.
      * destruct (rec d st) as [st1|] eqn:E; [|discriminate].
        apply IH. now apply Hrec with d st.
Qed.

(** The calls of [detectCycle] stay within [Spec.during]. *)
Lemma detectCycle_during : forall fuel node st st',
  Spec.during st ->
  JsSet.has (visited st) node = false ->
  detectCycle g fuel node st = Some st' ->
  Spec.during st'.
Proof.
  induction fuel as [|fuel IH]; intros node st st' Hd Hnew; simpl; [discriminate|].
  destruct (forEachDependency _ _ _) as [st2|] eqn:E; [|discriminate].
  intros [= <-].
  apply Spec.during_leave with (openPath st).
  - eapply forEachDependency_during; [exact (IH)| |exact E].
    now constructor.
  - now rewrite (forEachDependency_path _ (detectCycle_path fuel) _ _ _ E).
Qed.

(** So do the root calls, each of which starts from an empty path. *)
Lemma forEachRoot_during fuel : forall nodes st st',
  Spec.during st ->
  openPath st = [] ->
  forEachRoot g fuel nodes st = Some st' ->
  Spec.during st' /\ openPath st' = [].
Proof.
  induction nodes as [|node rest IH]; intros st st' Hd Hp; simpl.
  - intros [= <-]. now split.
  - destruct (JsSet.has (visited st) node) eqn:Ev; simpl; [now apply IH|].
    replace {| cycles := cycles st; visited := visited st;
               recursionStack := recursionStack st; openPath := [] |}
      with st by (destruct st; simpl in Hp; now subst).
    destruct (detectCycle g fuel node st) as [st1|] eqn:E; [|discriminate].
    apply IH.
    + now apply detectCycle_during with fuel node st.
    + now rewrite (detectCycle_path _ _ _ _ E).
Qed.

End During.

(** C3.  Take any state the variables of the traversal go through, and
    a dependency that is on the recursion stack when the loop over the
    dependencies of a node reaches it.  The loop does not recurse: it
    appends exactly one record to [cycles] and goes on with the next
    dependency.  The record is the open path from the first occurrence
    of that dependency on, with the dependency appended again.  It is
    appended whatever [cycles] already holds: nothing is deduplicated,
    as the graph A->B, B->A, B->A shows, whose two back edges give the
    same record twice.  The calls of [detectCycle] never leave the
    states considered. *)
Theorem back_edge_emits_one_cycle_record :
  (forall (rec : string -> DfsState -> option DfsState)
          (dependency : string) (rest : list string) (st : DfsState),
      Spec.during st ->
      JsSet.has (recursionStack st) dependency = true ->
      exists before after,
        openPath st = before ++ dependency :: after /\
        ~ In dependency before /\
        forEachDependency rec (dependency :: rest) st =
        forEachDependency rec rest
          (mkDfs (cycles st ++ [mkCycle (dependency :: after ++ [dependency])])
             (visited st) (recursionStack st) (openPath st))) /\
  (forall (g : DependencyMap) (fuel : nat) (node : string) (st st' : DfsState),
      Spec.during st ->
      JsSet.has (visited st) node = false ->
      detectCycle g fuel node st = Some st' ->
      Spec.during st') /\
  findCircularDependencies [("A", ["B"]); ("B", ["A"; "A"])] =
  Some [mkCycle ["A"; "B"; "A"]; mkCycle ["A"; "B"; "A"]].
Proof.
  split; [|split; [exact detectCycle_during|reflexivity]].
  intros rec dependency rest st Hduring Hhas.
  destruct (back_edge_record st dependency Hhas (proj1 (during_stack st Hduring)))
    as (before & after & E & Hn & Hpush).
  exists before, after. split; [exact E|]. split; [exact Hn|].
  simpl. unfold visitDependency. now rewrite Hhas, Hpush.
Qed.

Lemma back_edge_emits_one_cycle_record_witness :
  let st := enter "B" (enter "A" (enter "X" initialDfs)) in
  exists before after,
    openPath st = before ++ "A" :: after /\
    ~ In "A" before /\
    forEachDependency (fun _ _ => None) ["A"; "C"] st =
    forEachDependency (fun _ _ => None) ["C"]
      (mkDfs (cycles st ++ [mkCycle ("A" :: after ++ ["A"])])
         (visited st) (recursionStack st) (openPath st)).
Proof.
  exact (proj1 back_edge_emits_one_cycle_record (fun _ _ => None) "A" ["C"]
           (enter "B" (enter "A" (enter "X" initialDfs)))
           (Spec.during_enter _ "B"
              (Spec.during_enter _ "A"
                 (Spec.during_enter _ "X" Spec.during_start eq_refl) eq_refl)
              eq_refl)
           eq_refl).
Defined.

Section Ranked.

Variable g : DependencyMap.
Variable rank : string -> nat.
Hypothesis edges_climb : forall a b, Spec.edge g a b -> rank a < rank b.

Lemma walk_climbs (l : list string) : forall x,
  Spec.walk g (x :: l) -> forall y, In y l -> rank x < rank y.
Proof.
  induction l as [|z l IH]; intros x Hw y Hy; [destruct Hy|].
  destruct Hw as [Hxz Hw]. apply edges_climb in Hxz.
  destruct Hy as [<-|Hy]; [exact Hxz|].
  specialize (IH z Hw y Hy). lia.
Qed.

(** A graph whose edges all climb in some ranking has no closed walk. *)
Lemma ranked_acyclic : Spec.acyclic g.
Proof.
  intros p (x & middle & -> & Hw).
  assert (H : rank x < rank x); [|lia].
  apply (walk_climbs _ _ Hw). apply in_app_iff. right. now left.
Qed.

End Ranked.

(** C7.  On a graph without a closed walk the cycle detector returns,
    and returns the empty list. *)
Theorem acyclic_graph_has_no_cycle_records (g : DependencyMap) :
  Spec.acyclic g -> findCircularDependencies g = Some [].
Proof.
  intros Hacyclic.
  destruct (findCircularDependencies_returns g) as (found & -> & Hfound).
  destruct found as [|c found]; [reflexivity|].
  inversion Hfound as [|? ? Hc _]; subst.
  destruct (Hacyclic _ Hc).
Qed.

Lemma acyclic_graph_has_no_cycle_records_witness :
  findCircularDependencies [("A", ["B"; "C"]); ("B", ["C"])] = Some [].
Proof.
  apply (acyclic_graph_has_no_cycle_records [("A", ["B"; "C"]); ("B", ["C"])]).
  apply ranked_acyclic
    with (rank := fun s => if String.eqb s "A" then 0
                           else if String.eqb s "B" then 1 else 2).
  intros a b. unfold Spec.edge, dependenciesOf. cbn [JsMap.get].
  destruct (String.eqb_spec "A" a) as [<-|_].
  - intros [<-|[<-|[]]]; simpl; lia.
  - destruct (String.eqb_spec "B" a) as [<-|_].
    + intros [<-|[]]; simpl; lia.
    + intros [].
Defined.

(** C10.  The cycle detector returns, and every record it returns is a
    closed walk of the graph: its path is non-empty, starts and ends with
    the same node, and each element but the first occurs in the edge
    list the graph holds for the element before it. *)
Theorem cycle_records_are_closed_walks (g : DependencyMap) :
  exists found,
    findCircularDependencies g = Some found /\
    forall c, In c found ->
      path c <> [] /\
      (exists x, nth_error (path c) 0 = Some x /\
                 nth_error (path c) (length (path c) - 1) = Some x) /\
      (forall i a b,
          nth_error (path c) i = Some a ->
          nth_error (path c) (S i) = Some b ->
          In b (dependenciesOf g a)).
Proof.
  destruct (findCircularDependencies_returns g) as (found & -> & Hfound).
  exists found. split; [reflexivity|]. intros c Hc.
  rewrite Forall_forall in Hfound.
  destruct (Hfound c Hc) as (x & middle & E & Hw). rewrite E.
  split; [discriminate|]. split.
  - exists x. split; [reflexivity|].
    change (x :: middle ++ [x]) with ((x :: middle) ++ [x]).
    rewrite length_app, nth_error_app2; simpl length.
    + replace (S (length middle) + 1 - 1 - S (length middle)) with 0 by lia.
      reflexivity.
    + lia.
  - rewrite <- E. intros i a b. now apply walk_nth.
Qed.

(* ================================================================= *)
(** ** Import resolution *)

Section Resolution.

Variable P : Path.Api.

Lemma collectDependencies_app relativeFilePath (l1 l2 : list string) :
  Parser.collectDependencies P relativeFilePath (l1 ++ l2) =
  Parser.collectDependencies P relativeFilePath l1 ++
  Parser.collectDependencies P relativeFilePath l2.
Proof.
  induction l1 as [|importPath l1 IH]; simpl; [reflexivity|].
  destruct (Parser.resolveImport P relativeFilePath importPath); simpl;
    now rewrite IH.
Qed.

Lemma replaceBackslashes_clean (s : string) :
  Spec.hasBackslash (Parser.replaceBackslashes s) = false.
Proof.
  unfold Spec.hasBackslash, Parser.replaceBackslashes, Path.chars, Path.str.
  rewrite list_ascii_of_string_of_list_ascii.
  induction (list_ascii_of_string s) as [|c cs IH]; cbn [existsb map];
    [reflexivity|].
  rewrite IH, orb_false_r.
  destruct (Ascii.eqb_spec c "\"%char) as [->|Hne]; [reflexivity|].
  apply Ascii.eqb_neq. congruence.
Qed.

Lemma parseDependencies_keys_clean (files : list Parser.SourceFile) :
  forallb (fun k => negb (Spec.hasBackslash k))
    (JsMap.keys (Parser.parseDependencies P files)) = true.
Proof.
  unfold Parser.parseDependencies.
  assert (H : forallb (fun k => negb (Spec.hasBackslash k))
                (JsMap.keys (@JsMap.empty (list string))) = true) by reflexivity.
  revert H. generalize (@JsMap.empty (list string)).
  induction files as [|[file content] files IH]; intros m H; simpl; [exact H|].
  apply IH. unfold Parser.parseFile. simpl.
  destruct content as [importPaths|]; [|exact H].
  rewrite keys_set. destruct (JsSet.has (JsMap.keys m) _); [exact H|].
  rewrite forallb_app, H. simpl. now rewrite replaceBackslashes_clean.
Qed.

End Resolution.

(** C5.  For every host, importing file and import target: a target
    whose extension is [.ts], [.tsx], [.js] or [.jsx] is joined, as it
    is, to the directory of the importing file and normalized; a target
    with any other extension resolves to nothing and adds nothing to the
    dependencies of the file; a target without extension gets [.ts]
    appended before it is joined and normalized.  So [./utils] imported
    from [src/core/parser] gives [src/core/utils.ts]. *)
Theorem import_resolution_by_extension :
  (forall (P : Path.Api) (relativeFilePath importPath : string),
      let directory := Path.dirname P relativeFilePath in
      (In (Path.extname P importPath) [".ts"; ".tsx"; ".js"; ".jsx"] ->
       Parser.resolveImport P relativeFilePath importPath =
       Some (Path.normalize P (Path.join P [directory; importPath]))) /\
      (Path.extname P importPath <> "" ->
       ~ In (Path.extname P importPath) [".ts"; ".tsx"; ".js"; ".jsx"] ->
       Parser.resolveImport P relativeFilePath importPath = None /\
       forall before after,
         Parser.collectDependencies P relativeFilePath
           (before ++ importPath :: after) =
         Parser.collectDependencies P relativeFilePath (before ++ after)) /\
      (Path.extname P importPath = "" ->
       Parser.resolveImport P relativeFilePath importPath =
       Some (Path.normalize P
               (Path.join P [directory; (importPath ++ ".ts")%string])))) /\
  Parser.resolveImport Path.posix "src/core/parser" "./utils" =
  Some "src/core/utils.ts".
Proof.
  split; [|reflexivity].
  intros P relativeFilePath importPath directory.
  unfold Parser.resolveImport. fold directory.
  assert (Hincl : Parser.includes Parser.sourceExtensions
                    (Path.extname P importPath) = true <->
                  In (Path.extname P importPath) [".ts"; ".tsx"; ".js"; ".jsx"]).
  { unfold Parser.includes. rewrite existsb_exists. split.
    - intros (x & Hx & E). apply String.eqb_eq in E. now subst.
    - intros H. eexists. split; [exact H|apply String.eqb_refl]. }
  split; [|split].
  - intros Hin. assert (Hext := proj2 Hincl Hin).
    destruct (String.eqb_spec (Path.extname P importPath) "") as [E|_].
    + rewrite E in Hin. simpl in Hin. intuition discriminate.
    + cbn [negb]. now rewrite Hext.
  - intros Hext Hnot.
    assert (Hnone : (if negb (Path.extname P importPath =? "")
                     then if Parser.includes Parser.sourceExtensions
                               (Path.extname P importPath)
                          then Some (Path.normalize P
                                       (Path.join P [directory; importPath]))
                          else None
                     else Some (Path.normalize P
                                  (Path.join P [directory;
                                                (importPath ++ ".ts")%string])))
                    = None).
    { destruct (String.eqb_spec (Path.extname P importPath) "") as [E|_];
        [contradiction|]. cbn [negb].
      destruct (Parser.includes _ _) eqn:E; [|reflexivity].
      exfalso. apply Hnot. now apply Hincl. }
    split; [exact Hnone|]. intros before after.
    rewrite !collectDependencies_app. simpl.
    unfold Parser.resolveImport at 1. fold directory. now rewrite Hnone.
  - intros ->. reflexivity.
Qed.

Lemma import_resolution_by_extension_witness :
  Parser.resolveImport Path.posix "src/core/server.ts" "./parser.js" =
  Some "src/core/parser.js" /\
  Parser.resolveImport Path.posix "src/core/server.ts" "./schema.json" = None /\
  Parser.resolveImport Path.posix "src/core/server.ts" "../analyzers/llmAnalyzer" =
  Some "src/analyzers/llmAnalyzer.ts".
Proof.
  pose proof (proj1 import_resolution_by_extension Path.posix "src/core/server.ts")
    as H.
  split; [|split].
  - apply (proj1 (H "./parser.js")). vm_compute. tauto.
  - apply (proj1 (proj2 (H "./schema.json"))).
    + vm_compute. discriminate.
    + vm_compute. intuition discriminate.
  - apply (proj2 (proj2 (H "../analyzers/llmAnalyzer"))). reflexivity.
Defined.

(** C6.  The keys of the graph never hold a backslash, whatever the
    host.  The edge targets are returned by [path.normalize] and are not
    rewritten: on a Windows host the import of [./parser] by
    [src\core\server.ts] is recorded under the key [src/core/server.ts]
    as the target [src\core\parser.ts]. *)
Theorem edge_targets_keep_host_separators :
  (forall (P : Path.Api) (files : list Parser.SourceFile),
      forallb (fun k => negb (Spec.hasBackslash k))
        (JsMap.keys (Parser.parseDependencies P files)) = true) /\
  Parser.parseDependencies Path.win32
    [("src\core\server.ts", Some ["./parser"])] =
  [("src/core/server.ts", ["src\core\parser.ts"])] /\
  Spec.hasBackslash "src\core\parser.ts" = true.
Proof.
  split; [|split; reflexivity].
  intros P files. apply parseDependencies_keys_clean.
Qed.

(* ================================================================= *)
(** ** Orchestration *)

Import Server.

Section Lookup.

Context {A : Type}.

Lemma lookup_app (l : list (nat * A)) (c call : nat) (a : A) :
  lookup (l ++ [(c, a)]) call =
  match lookup l call with
  | Some x => Some x
  | None => if (c =? call)%nat then Some a else None
  end.
Proof.
  induction l as [|[c' a'] l IH]; simpl; [reflexivity|].
  destruct (c' =? call)%nat; [reflexivity|exact IH].
Qed.

Lemma lookup_app_other (l : list (nat * A)) (c call : nat) (a : A) :
  c <> call -> lookup (l ++ [(c, a)]) call = lookup l call.
Proof.
  intros H. rewrite lookup_app. apply Nat.eqb_neq in H. rewrite H.
  now destruct (lookup l call).
Qed.

Lemma lookup_app_new (l : list (nat * A)) (call : nat) (a : A) :
  lookup l call = None -> lookup (l ++ [(call, a)]) call = Some a.
Proof.
  intros H. now rewrite lookup_app, H, Nat.eqb_refl.
Qed.

End Lookup.

Section Coherence.

Lemma running_lookup st call point :
  Spec.coherent st ->
  lookup (running st) call = Some point ->
  running st = [(call, point)] /\ isAnalysisRunning st = true /\
  call < nextCall st /\ lookup (settled st) call = None.
Proof.
  intros ([[E _]|(c & p & E & Hflag & Hlt & Hnone)] & _) Hl; rewrite E in Hl.
  - discriminate.
  - simpl in Hl. destruct (Nat.eqb_spec c call) as [->|_]; [|discriminate].
    injection Hl as ->. tauto.
Qed.

Lemma idle_no_run st :
  Spec.coherent st -> isAnalysisRunning st = false -> running st = [].
Proof.
  intros ([[E _]|(c & p & _ & Hflag & _)] & _) H; [exact E|congruence].
Qed.

Lemma waiting_In st call :
  existsb (Nat.eqb call) (waiting st) = true <-> In call (waiting st).
Proof.
  rewrite existsb_exists. split.
  - intros (x & Hx & E). apply Nat.eqb_eq in E. now subst.
  - intros H. exists call. split; [exact H|apply Nat.eqb_refl].
Qed.

Lemma coherent_initial : Spec.coherent initial.
Proof.
  split; [left; split; reflexivity|].
  split; [reflexivity|intros w []].
Qed.

Lemma coherent_call st : Spec.coherent st -> Spec.coherent (runFullAnalysis st).
Proof.
  intros Hr. pose proof Hr as (Hrun & Hnew & Hwait).
  unfold runFullAnalysis. destruct (isAnalysisRunning st) eqn:Eflag.
  - split; [|split]; simpl.
    + destruct Hrun as [[_ H]|(c & p & E & _ & Hlt & Hnone)]; [congruence|].
      right. exists c, p. repeat split; try assumption; lia.
    + intros call Hc. apply Hnew. lia.
    + intros w Hw. apply in_app_iff in Hw. destruct Hw as [Hw|[<-|[]]].
      * destruct (Hwait w Hw) as (? & ? & ?). repeat split; try assumption; lia.
      * split; [lia|]. split; [apply Hnew; lia|].
        destruct Hrun as [[E _]|(c & p & E & _ & Hlt & _)]; rewrite E; simpl;
          [reflexivity|].
        destruct (Nat.eqb_spec c (nextCall st)); [lia|reflexivity].
  - rewrite (idle_no_run st Hr Eflag). split; [|split]; simpl.
    + right. exists (nextCall st), AwaitParse.
      repeat split; [lia|apply Hnew; lia].
    + intros call Hc. apply Hnew. lia.
    + intros w Hw. destruct (Hwait w Hw) as (Hlt & Hnone & _).
      repeat split; try assumption; [lia|].
      destruct (Nat.eqb_spec (nextCall st) w); [lia|reflexivity].
Qed.

Lemma coherent_settle st call point (outcome : Settled FullAnalysisReport)
      (cache : option FullAnalysisReport) :
  Spec.coherent st ->
  lookup (running st) call = Some point ->
  Spec.coherent
    (mkState cache false (without call (running st)) (waiting st)
       (settled st ++ [(call, outcome)]) (nextCall st) (graphBuilds st)).
Proof.
  intros Hr Hl. destruct (running_lookup _ _ _ Hr Hl) as (E & Hflag & Hlt & Hnone).
  destruct Hr as (_ & Hnew & Hwait).
  assert (Egone : without call (running st) = []).
  { rewrite E. unfold without. simpl. now rewrite Nat.eqb_refl. }
  split; [|split]; simpl.
  - left. tauto.
  - intros c Hc. rewrite lookup_app_other by lia. now apply Hnew.
  - intros w Hw. destruct (Hwait w Hw) as (Hw1 & Hw2 & Hw3).
    rewrite Egone. repeat split; try assumption.
    rewrite lookup_app_other; [exact Hw2|]. intros <-. congruence.
Qed.

Lemma coherent_step st e : Spec.coherent st -> Spec.coherent (step st e).
Proof.
  intros Hr. destruct e as [| |call parsed|call llm now|call]; simpl.
  - now apply coherent_call.
  - unfold getAnalysis. destruct (cachedAnalysis st); [exact Hr|].
    destruct (isAnalysisRunning st); simpl; [exact Hr|now apply coherent_call].
  - unfold afterParse.
    destruct (lookup (running st) call) as [[|h]|] eqn:El; try exact Hr.
    destruct parsed as [dependencyMap|error].
    + destruct (JsMap.size dependencyMap =? 0)%nat;
        [now apply coherent_settle with AwaitParse|].
      destruct (Heuristic.analyzeHeuristically dependencyMap);
        [|now apply coherent_settle with AwaitParse].
      destruct (running_lookup _ _ _ Hr El) as (E & Hflag & Hlt & Hnone).
      destruct Hr as (_ & Hnew & Hwait).
      rewrite E. simpl. rewrite Nat.eqb_refl.
      split; [|split]; simpl.
      * right. exists call. eexists. repeat split; assumption.
      * exact Hnew.
      * intros w Hw. destruct (Hwait w Hw) as (Hw1 & Hw2 & Hw3).
        rewrite E in Hw3. simpl in Hw3.
        destruct (call =? w)%nat; [discriminate|tauto].
    + now apply coherent_settle with AwaitParse.
  - unfold afterAnalyses.
    destruct (lookup (running st) call) as [[|h]|] eqn:El; try exact Hr.
    destruct llm as [[llmResult|]|error];
      now apply coherent_settle with (AwaitAnalyses h).
  - unfold check.
    destruct (existsb (Nat.eqb call) (waiting st)) eqn:Ew; [|exact Hr].
    destruct (isAnalysisRunning st) eqn:Eflag; simpl; [exact Hr|].
    destruct (cachedAnalysis st) as [report|]; [|exact Hr].
    apply waiting_In in Ew. pose proof Hr as (_ & Hnew & Hwait).
    rewrite (idle_no_run st Hr Eflag).
    destruct (Hwait call Ew) as (Hlt & _ & _).
    split; [|split]; simpl.
    + left. tauto.
    + intros c Hc. rewrite lookup_app_other by lia. now apply Hnew.
    + intros w Hw. apply filter_In in Hw. destruct Hw as [Hw Hne].
      apply negb_true_iff, Nat.eqb_neq in Hne.
      destruct (Hwait w Hw) as (Hw1 & Hw2 & _).
      repeat split; try assumption.
      rewrite lookup_app_other; [exact Hw2|congruence].
Qed.

Lemma coherent_exec trace : forall st,
  Spec.coherent st -> Spec.coherent (exec st trace).
Proof.
  induction trace as [|e trace IH]; intros st Hr; simpl; [exact Hr|].
  apply IH. now apply coherent_step.
Qed.

End Coherence.

Section FailedRun.

Lemma settle_removes_run st c p call :
  Spec.coherent st ->
  lookup (running st) c = Some p ->
  lookup (without c (running st)) call = None.
Proof.
  intros Hr Hl. destruct (running_lookup _ _ _ Hr Hl) as (E & _).
  rewrite E. unfold without. simpl. now rewrite Nat.eqb_refl.
Qed.

(** Closes a case in which neither the suspended invocations nor the
    cache change. *)
Ltac untouched :=
  let H := fresh "H" in
  intros H; split; [eexists; exact H|simpl; congruence].

(** While an invocation stays suspended in the running branch, the
    cache is not written. *)
Lemma cache_kept_by_step st e call point' :
  Spec.coherent st ->
  call < nextCall st ->
  lookup (running (step st e)) call = Some point' ->
  (exists point, lookup (running st) call = Some point) /\
  cachedAnalysis (step st e) = cachedAnalysis st.
Proof.
  intros Hr Hlt.
  assert (Hcall : lookup (running (runFullAnalysis st)) call = Some point' ->
                  (exists point, lookup (running st) call = Some point) /\
                  cachedAnalysis (runFullAnalysis st) = cachedAnalysis st).
  { unfold runFullAnalysis. destruct (isAnalysisRunning st) eqn:Eflag; simpl.
    - untouched.
    - rewrite (idle_no_run st Hr Eflag). simpl.
      destruct (Nat.eqb_spec (nextCall st) call); [lia|discriminate]. }
  destruct e as [| |c parsed|c llm now|c]; simpl.
  - exact Hcall.
  - unfold getAnalysis. destruct (cachedAnalysis st) eqn:Ec; simpl.
    + untouched.
    + destruct (isAnalysisRunning st); simpl; [untouched|exact Hcall].
  - unfold afterParse.
    destruct (lookup (running st) c) as [[|h]|] eqn:El; try untouched.
    pose proof (settle_removes_run st c _ call Hr El) as Hgone.
    destruct parsed as [dependencyMap|error].
    + destruct (JsMap.size dependencyMap =? 0)%nat.
      * simpl. rewrite Hgone. discriminate.
      * destruct (Heuristic.analyzeHeuristically dependencyMap).
        -- simpl. destruct (running_lookup _ _ _ Hr El) as (E & _).
           rewrite E. simpl. rewrite Nat.eqb_refl. simpl.
           destruct (Nat.eqb_spec c call) as [->|]; [|discriminate].
           intros _. split; [now exists AwaitParse|reflexivity].
        -- simpl. rewrite Hgone. discriminate.
    + simpl. rewrite Hgone. discriminate.
  - unfold afterAnalyses.
    destruct (lookup (running st) c) as [[|h]|] eqn:El; try untouched.
    pose proof (settle_removes_run st c _ call Hr El) as Hgone.
    destruct llm as [[llmResult|]|error]; simpl; rewrite Hgone; discriminate.
  - unfold check. destruct (existsb (Nat.eqb c) (waiting st)); [|untouched].
    destruct (isAnalysisRunning st); simpl; [untouched|].
    destruct (cachedAnalysis st) eqn:Ec; simpl; untouched.
Qed.

Lemma nextCall_step st e : nextCall st <= nextCall (step st e).
Proof.
  destruct e as [| |c parsed|c llm now|c]; simpl.
  - unfold runFullAnalysis. destruct (isAnalysisRunning st); simpl; lia.
  - unfold getAnalysis. destruct (cachedAnalysis st); simpl; [lia|].
    destruct (isAnalysisRunning st); simpl; [lia|].
    unfold runFullAnalysis. destruct (isAnalysisRunning st); simpl; lia.
  - unfold afterParse. destruct (lookup (running st) c) as [[|h]|]; try lia.
    destruct parsed as [dependencyMap|error]; simpl; [|lia].
    destruct (JsMap.size dependencyMap =? 0)%nat; simpl; [lia|].
    destruct (Heuristic.analyzeHeuristically dependencyMap); simpl; lia.
  - unfold afterAnalyses. destruct (lookup (running st) c) as [[|h]|]; try lia.
    destruct llm as [[llmResult|]|error]; simpl; lia.
  - unfold check. destruct (existsb (Nat.eqb c) (waiting st)); [|lia].
    destruct (isAnalysisRunning st); simpl; [lia|].
    destruct (cachedAnalysis st); simpl; lia.
Qed.

Lemma trace_keeps_run trace : forall st call point',
  Spec.coherent st ->
  call < nextCall st ->
  lookup (running (exec st trace)) call = Some point' ->
  exists point, lookup (running st) call = Some point.
Proof.
  induction trace as [|e trace IH]; intros st call point' Hr Hlt Hl; simpl in Hl.
  - now exists point'.
  - assert (Hlt' : call < nextCall (step st e))
      by (pose proof (nextCall_step st e); lia).
    destruct (IH _ _ _ (coherent_step _ e Hr) Hlt' Hl) as [p Hp].
    now destruct (cache_kept_by_step st e call p Hr Hlt Hp).
Qed.

Lemma cache_kept_during_run trace : forall st call point',
  Spec.coherent st ->
  call < nextCall st ->
  lookup (running (exec st trace)) call = Some point' ->
  cachedAnalysis (exec st trace) = cachedAnalysis st.
Proof.
  induction trace as [|e trace IH]; intros st call point' Hr Hlt Hl; simpl;
    [reflexivity|].
  simpl in Hl.
  assert (Hlt' : call < nextCall (step st e))
    by (pose proof (nextCall_step st e); lia).
  destruct (trace_keeps_run trace (step st e) call point'
              (coherent_step _ e Hr) Hlt' Hl) as [p Hp].
  rewrite (IH (step st e) call point' (coherent_step _ e Hr) Hlt' Hl).
  now destruct (cache_kept_by_step st e call p Hr Hlt Hp).
Qed.

End FailedRun.

Section Failure.

(** The step at which a suspended run fails. *)
Lemma failing_step st call point e message :
  Spec.coherent st ->
  lookup (running st) call = Some point ->
  Spec.FailsAt call point e message ->
  step st e = fail call (ErrorObject message) st.
Proof.
  intros Hr Hl Hfail.
  destruct Hfail as [error|dependencyMap Hsize|h error now|h now]; simpl.
  - unfold afterParse. rewrite Hl. now destruct error.
  - unfold afterParse. rewrite Hl, Hsize. reflexivity.
  - unfold afterAnalyses. rewrite Hl. now destruct error.
  - unfold afterAnalyses. rewrite Hl. reflexivity.
Qed.

Lemma fail_rejects st call point error :
  Spec.coherent st ->
  lookup (running st) call = Some point ->
  lookup (settled (fail call error st)) call =
  Some (Rejected (ErrorObject (getErrorMessage error))).
Proof.
  intros Hr Hl. destruct (running_lookup _ _ _ Hr Hl) as (_ & _ & _ & Hnone).
  simpl. now apply lookup_app_new.
Qed.

End Failure.

(** C1.  Take a run started by a call of [runFullAnalysis] while no run
    was in flight, still suspended after any further events.  If it then
    fails -- the graph build rejects, the graph is empty, the external
    analyzer rejects or answers [null] -- its promise is rejected with an
    [Error] that carries the message of the failure, the flag is
    cleared, and the cache holds what it held when the run was started;
    a report cached then is what [GET /api/analysis] answers. *)
Theorem failed_run_keeps_cached_report :
  forall (before during : list Event) (point : Suspended) (e : Event)
         (message : string),
    let s0 := exec initial before in
    let call := nextCall s0 in
    let s1 := exec (runFullAnalysis s0) during in
    isAnalysisRunning s0 = false ->
    lookup (running s1) call = Some point ->
    Spec.FailsAt call point e message ->
    lookup (settled (step s1 e)) call = Some (Rejected (ErrorObject message)) /\
    isAnalysisRunning (step s1 e) = false /\
    cachedAnalysis (step s1 e) = cachedAnalysis s0 /\
    (forall report,
        cachedAnalysis s0 = Some report ->
        getAnalysis (step s1 e) = (Success report, step s1 e)).
Proof.
  intros before during point e message s0 call s1 Hidle Hl Hfail.
  assert (Hr0 : Spec.coherent s0) by apply coherent_exec, coherent_initial.
  assert (Hr0' : Spec.coherent (runFullAnalysis s0)) by now apply coherent_call.
  assert (Hr1 : Spec.coherent s1) by now apply coherent_exec.
  assert (Hlt : call < nextCall (runFullAnalysis s0)).
  { unfold runFullAnalysis. rewrite Hidle. simpl. unfold call. lia. }
  assert (Hcache : cachedAnalysis s1 = cachedAnalysis s0).
  { unfold s1. rewrite (cache_kept_during_run during _ call point Hr0' Hlt Hl).
    unfold runFullAnalysis. now rewrite Hidle. }
  rewrite (failing_step s1 call point e message Hr1 Hl Hfail).
  split; [exact (fail_rejects s1 call point (ErrorObject message) Hr1 Hl)|].
  split; [reflexivity|]. split; [exact Hcache|].
  intros report Hreport. unfold getAnalysis. simpl.
  now rewrite Hcache, Hreport.
Qed.

Lemma failed_run_keeps_cached_report_witness :
  let g := [("src/a.ts", ["src/b.ts"]); ("src/b.ts", ["src/a.ts"])] in
  let first := [Call; ParseSettles 0 (Fulfilled g);
                AnalysesSettle 0 (Fulfilled (Some (mkLlm [] [] []))) "t0"] in
  let s1 := exec (runFullAnalysis (exec initial first))
              [Call; ParseSettles 1 (Fulfilled g)] in
  let s2 := step s1 (AnalysesSettle 1 (Fulfilled None) "t1") in
  lookup (settled s2) 1 = Some (Rejected (ErrorObject "LLM analysis failed.")) /\
  isAnalysisRunning s2 = false /\
  cachedAnalysis s2 = cachedAnalysis (exec initial first) /\
  (forall report,
      cachedAnalysis (exec initial first) = Some report ->
      getAnalysis s2 = (Success report, s2)).
Proof.
  intros g first s1 s2.
  exact (failed_run_keeps_cached_report first
           [Call; ParseSettles 1 (Fulfilled g)]
           (AwaitAnalyses
              (mkHeuristic [mkCycle ["src/a.ts"; "src/b.ts"; "src/a.ts"]] []))
           (AnalysesSettle 1 (Fulfilled None) "t1") "LLM analysis failed."
           eq_refl eq_refl (Spec.analyzer_unavailable 1 _ "t1")).
Defined.

(** C8.  When the graph build of a suspended run settles with an empty
    graph -- which is what the builder yields for zero files -- the
    promise of the run is rejected, not fulfilled, with an [Error] whose
    message names the condition and differs from the message of an
    analyzer failure; the flag is cleared and no report is cached. *)
Theorem empty_graph_fails_the_run :
  (forall (before : list Event) (call : nat) (dependencyMap : DependencyMap),
      let s := exec initial before in
      let s' := step s (ParseSettles call (Fulfilled dependencyMap)) in
      lookup (running s) call = Some AwaitParse ->
      JsMap.size dependencyMap = 0 ->
      lookup (settled s') call =
      Some (Rejected (ErrorObject "Parser found no files or dependencies.")) /\
      isAnalysisRunning s' = false /\
      cachedAnalysis s' = cachedAnalysis s) /\
  (forall P : Path.Api, JsMap.size (Parser.parseDependencies P []) = 0) /\
  "Parser found no files or dependencies." <> "LLM analysis failed.".
Proof.
  split; [|split; [reflexivity|discriminate]].
  intros before call dependencyMap s s' Hl Hsize.
  assert (Hr : Spec.coherent s) by apply coherent_exec, coherent_initial.
  unfold s'.
  rewrite (failing_step s call AwaitParse _ _ Hr Hl
             (Spec.graph_is_empty call dependencyMap Hsize)).
  split; [exact (fail_rejects s call AwaitParse (ErrorObject _) Hr Hl)|].
  split; reflexivity.
Qed.

Lemma empty_graph_fails_the_run_witness :
  let s := exec initial [Call] in
  let s' := step s (ParseSettles 0 (Fulfilled (Parser.parseDependencies Path.posix []))) in
  lookup (settled s') 0 =
  Some (Rejected (ErrorObject "Parser found no files or dependencies.")) /\
  isAnalysisRunning s' = false /\
  cachedAnalysis s' = cachedAnalysis s.
Proof.
  exact (proj1 empty_graph_fails_the_run [Call] 0
           (Parser.parseDependencies Path.posix []) eq_refl eq_refl).
Defined.

Section Waiting.

Lemma settled_persists_step st e call outcome :
  lookup (settled st) call = Some outcome ->
  lookup (settled (step st e)) call = Some outcome.
Proof.
  intros H.
  assert (Happ : forall c o, lookup (settled st ++ [(c, o)]) call = Some outcome)
    by (intros c o; now rewrite lookup_app, H).
  destruct e as [| |c parsed|c llm now|c]; simpl.
  - unfold runFullAnalysis. now destruct (isAnalysisRunning st).
  - unfold getAnalysis. destruct (cachedAnalysis st); simpl; [exact H|].
    destruct (isAnalysisRunning st) eqn:E; simpl; [exact H|].
    unfold runFullAnalysis. now rewrite E.
  - unfold afterParse. destruct (lookup (running st) c) as [[|h]|]; try exact H.
    destruct parsed as [dependencyMap|error]; [|apply Happ].
    destruct (JsMap.size dependencyMap =? 0)%nat; [apply Happ|].
    destruct (Heuristic.analyzeHeuristically dependencyMap);
      [exact H|apply Happ].
  - unfold afterAnalyses.
    destruct (lookup (running st) c) as [[|h]|]; try exact H.
    destruct llm as [[llmResult|]|error]; apply Happ.
  - unfold check. destruct (existsb (Nat.eqb c) (waiting st)); [|exact H].
    destruct (isAnalysisRunning st); simpl; [exact H|].
    destruct (cachedAnalysis st); [apply Happ|exact H].
Qed.

Lemma settled_persists trace : forall st call outcome,
  lookup (settled st) call = Some outcome ->
  lookup (settled (exec st trace)) call = Some outcome.
Proof.
  induction trace as [|e trace IH]; intros st call outcome H; simpl;
    [exact H|].
  apply IH. now apply settled_persists_step.
Qed.

(** A waiting call stays waiting, unless the event is the firing of
    its interval while the flag is clear and a report is cached: then
    it is fulfilled with that report. *)
Lemma waiting_tick st e w :
  Spec.coherent st ->
  In w (waiting st) ->
  In w (waiting (step st e)) \/
  (e = IntervalFires w /\
   isAnalysisRunning st = false /\
   exists report,
     cachedAnalysis st = Some report /\
     lookup (settled (step st e)) w = Some (Fulfilled report)).
Proof.
  intros Hr Hw.
  assert (Hcall : In w (waiting (runFullAnalysis st))).
  { unfold runFullAnalysis. destruct (isAnalysisRunning st); simpl;
      [apply in_app_iff; now left|exact Hw]. }
  destruct e as [| |c parsed|c llm now|c]; simpl.
  - now left.
  - left. unfold getAnalysis. destruct (cachedAnalysis st); simpl; [exact Hw|].
    now destruct (isAnalysisRunning st).
  - left. unfold afterParse.
    destruct (lookup (running st) c) as [[|h]|]; try exact Hw.
    destruct parsed as [dependencyMap|error]; [|exact Hw].
    destruct (JsMap.size dependencyMap =? 0)%nat; [exact Hw|].
    now destruct (Heuristic.analyzeHeuristically dependencyMap).
  - left. unfold afterAnalyses.
    destruct (lookup (running st) c) as [[|h]|]; try exact Hw.
    now destruct llm as [[llmResult|]|error].
  - unfold check. destruct (existsb (Nat.eqb c) (waiting st)); [|now left].
    destruct (isAnalysisRunning st) eqn:Eflag; simpl; [now left|].
    destruct (cachedAnalysis st) as [report|]; [|now left].
    destruct (Nat.eqb_spec c w) as [->|Hne].
    + right. split; [reflexivity|]. split; [reflexivity|].
      exists report. split; [reflexivity|]. simpl.
      apply lookup_app_new. now apply Hr.
    + left. simpl. apply filter_In. split; [exact Hw|].
      apply negb_true_iff, Nat.eqb_neq. congruence.
Qed.

Lemma cache_written_by_success st e :
  isSuccess e = false -> cachedAnalysis (step st e) = cachedAnalysis st.
Proof.
  intros He. destruct e as [| |c parsed|c llm now|c]; simpl.
  - unfold runFullAnalysis. now destruct (isAnalysisRunning st).
  - unfold getAnalysis. destruct (cachedAnalysis st) eqn:Ec; simpl; [exact Ec|].
    destruct (isAnalysisRunning st) eqn:E; simpl; [exact Ec|].
    unfold runFullAnalysis. now rewrite E.
  - unfold afterParse. destruct (lookup (running st) c) as [[|h]|];
      try reflexivity.
    destruct parsed as [dependencyMap|error]; [|reflexivity].
    destruct (JsMap.size dependencyMap =? 0)%nat; [reflexivity|].
    now destruct (Heuristic.analyzeHeuristically dependencyMap).
  - unfold afterAnalyses.
    destruct (lookup (running st) c) as [[|h]|]; try reflexivity.
    destruct llm as [[llmResult|]|error]; [discriminate|reflexivity..].
  - unfold check. destruct (existsb (Nat.eqb c) (waiting st)); [|reflexivity].
    destruct (isAnalysisRunning st); simpl; [reflexivity|].
    destruct (cachedAnalysis st) eqn:Ec; simpl; congruence.
Qed.

Lemma cache_kept_without_success trace : forall st,
  forallb (fun e => negb (isSuccess e)) trace = true ->
  cachedAnalysis (exec st trace) = cachedAnalysis st.
Proof.
  induction trace as [|e trace IH]; intros st H; simpl; [reflexivity|].
  simpl in H. apply andb_true_iff in H. destruct H as [He H].
  rewrite (IH _ H). apply cache_written_by_success.
  now apply negb_true_iff.
Qed.

Lemma cache_stays_filled_step st e report :
  cachedAnalysis st = Some report ->
  exists report', cachedAnalysis (step st e) = Some report'.
Proof.
  intros Hc. destruct (isSuccess e) eqn:E.
  - destruct e as [| |c parsed|c llm now|c]; try discriminate. simpl.
    unfold afterAnalyses.
    destruct (lookup (running st) c) as [[|h]|]; try (now exists report).
    destruct llm as [[llmResult|]|error]; try discriminate.
    now eexists.
  - exists report. now rewrite cache_written_by_success.
Qed.

Lemma cache_stays_filled trace : forall st report,
  cachedAnalysis st = Some report ->
  exists report', cachedAnalysis (exec st trace) = Some report'.
Proof.
  induction trace as [|e trace IH]; intros st report Hc; simpl.
  - now exists report.
  - destruct (cache_stays_filled_step st e report Hc) as [r Hr].
    now apply IH with r.
Qed.

Lemma forallb_firstn {A} (f : A -> bool) (l : list A) (k : nat) :
  forallb f l = true -> forallb f (firstn k l) = true.
Proof.
  revert k. induction l as [|x l IH]; intros [|k] H; simpl; try reflexivity.
  simpl in H. apply andb_true_iff in H. destruct H as [-> H]. now apply IH.
Qed.

End Waiting.

Section Process.

Lemma serve_cons st e trace :
  serve st (e :: trace) = serve (handle st e) trace.
Proof. reflexivity. Qed.

Lemma serve_app st (t1 t2 : list Event) :
  serve st (t1 ++ t2) = serve (serve st t1) t2.
Proof. apply fold_left_app. Qed.

Lemma handle_alive st e : exited st = false -> handle st e = step st e.
Proof. intros H. unfold handle. now rewrite H. Qed.

Lemma handle_exited st e : exited st = true -> handle st e = st.
Proof. intros H. unfold handle. now rewrite H. Qed.

(** Once the process has ended nothing happens. *)
Lemma serve_exited trace : forall st, exited st = true -> serve st trace = st.
Proof.
  induction trace as [|e trace IH]; intros st H; [reflexivity|].
  rewrite serve_cons, handle_exited by exact H. now apply IH.
Qed.

(** The process handles a prefix of the events, each as [step] does:
    what holds of every state of [exec] holds of every state of the
    process. *)
Lemma serve_exec trace : forall st,
  exists k, serve st trace = exec st (firstn k trace).
Proof.
  induction trace as [|e trace IH]; intros st.
  - now exists 0.
  - destruct (exited st) eqn:E.
    + exists 0. now rewrite serve_exited by exact E.
    + destruct (IH (step st e)) as [k Hk]. exists (S k).
      rewrite serve_cons, handle_alive by exact E. exact Hk.
Qed.

Lemma settled_persists_serve trace st call outcome :
  lookup (settled st) call = Some outcome ->
  lookup (settled (serve st trace)) call = Some outcome.
Proof.
  intros H. destruct (serve_exec trace st) as [k ->].
  now apply settled_persists.
Qed.

Lemma startup_handle st e :
  Spec.coherent st -> Spec.startup st -> Spec.startup (handle st e).
Proof.
  unfold Spec.startup, startupCall.
  intros Hr [(point & Erun & Hcache)|[(report & Hs & Hcache)|(Hex & Hflag & Hcache)]].
  - assert (Hl : lookup (running st) 0 = Some point) by now rewrite Erun.
    destruct (running_lookup _ _ _ Hr Hl) as (_ & Hflag & _ & Hnone).
    assert (Halive : exited st = false)
      by (unfold exited, startupCall; now rewrite Hnone).
    rewrite handle_alive by exact Halive.
    assert (Hother : forall c, c <> 0 -> lookup (running st) c = None).
    { intros c Hc. rewrite Erun. cbn [lookup].
      destruct (Nat.eqb_spec 0 c); [congruence|reflexivity]. }
    assert (Hsame : (exists point0,
                        running st = [(0, point0)] /\ cachedAnalysis st = None) \/
                    (exists report,
                        lookup (settled st) 0 = Some (Fulfilled report) /\
                        cachedAnalysis st <> None) \/
                    exited st = true /\ isAnalysisRunning st = false /\
                    cachedAnalysis st = None)
      by (left; now exists point).
    assert (Hfail : forall error,
               (exists point0,
                   running (fail 0 error st) = [(0, point0)] /\
                   cachedAnalysis (fail 0 error st) = None) \/
               (exists report,
                   lookup (settled (fail 0 error st)) 0 =
                   Some (Fulfilled report) /\
                   cachedAnalysis (fail 0 error st) <> None) \/
               exited (fail 0 error st) = true /\
               isAnalysisRunning (fail 0 error st) = false /\
               cachedAnalysis (fail 0 error st) = None).
    { intros error. right; right. split; [|split; [reflexivity|exact Hcache]].
      unfold exited, startupCall, fail. cbn [settled].
      now rewrite lookup_app_new by exact Hnone. }
    destruct e as [| |c parsed|c llm now|c]; cbn [step].
    + left. exists point. unfold runFullAnalysis. rewrite Hflag.
      split; assumption.
    + unfold getAnalysis. rewrite Hcache, Hflag. exact Hsame.
    + destruct (Nat.eq_dec c 0) as [->|Hc].
      * unfold afterParse. rewrite Hl. destruct point as [|h]; [|exact Hsame].
        destruct parsed as [dependencyMap|error]; [|apply Hfail].
        destruct (JsMap.size dependencyMap =? 0)%nat; [apply Hfail|].
        destruct (Heuristic.analyzeHeuristically dependencyMap) as [h|];
          [|apply Hfail].
        left. exists (AwaitAnalyses h). cbn [running cachedAnalysis].
        rewrite Erun. split; [reflexivity|exact Hcache].
      * unfold afterParse. rewrite (Hother c Hc). exact Hsame.
    + destruct (Nat.eq_dec c 0) as [->|Hc].
      * unfold afterAnalyses. rewrite Hl. destruct point as [|h]; [exact Hsame|].
        destruct llm as [[llmResult|]|error]; [|apply Hfail..].
        right; left. eexists. unfold succeed. cbn [settled cachedAnalysis].
        split; [now apply lookup_app_new|discriminate].
      * unfold afterAnalyses. rewrite (Hother c Hc). exact Hsame.
    + unfold check. destruct (existsb (Nat.eqb c) (waiting st)); [|exact Hsame].
      rewrite Hflag. exact Hsame.
  - assert (Halive : exited st = false)
      by (unfold exited, startupCall; now rewrite Hs).
    rewrite handle_alive by exact Halive.
    right; left. exists report. split; [now apply settled_persists_step|].
    destruct (cachedAnalysis st) as [r|] eqn:E; [|congruence].
    destruct (cache_stays_filled_step st e r E) as [r' ->]. discriminate.
  - rewrite handle_exited by exact Hex. right; right. tauto.
Qed.

Lemma coherent_started : Spec.coherent started.
Proof. apply coherent_call, coherent_initial. Qed.

Lemma startup_started : Spec.startup started.
Proof. left. exists AwaitParse. split; reflexivity. Qed.

(** Every state of the process is coherent and accounts for the
    startup call. *)
Lemma process_invariant trace : forall st,
  Spec.coherent st -> Spec.startup st ->
  Spec.coherent (serve st trace) /\ Spec.startup (serve st trace).
Proof.
  induction trace as [|e trace IH]; intros st Hr Hk; [now split|].
  rewrite serve_cons. apply IH.
  - unfold handle. destruct (exited st); [exact Hr|now apply coherent_step].
  - now apply startup_handle.
Qed.

(** A process in which a run is in flight lives. *)
Lemma in_flight_alive st :
  Spec.coherent st -> Spec.startup st ->
  isAnalysisRunning st = true -> exited st = false.
Proof.
  intros Hr [(point & Erun & _)|[(report & Hs & _)|(_ & Hflag & _)]] H.
  - assert (Hl : lookup (running st) startupCall = Some point)
      by (rewrite Erun; reflexivity).
    destruct (running_lookup _ _ _ Hr Hl) as (_ & _ & _ & Hnone).
    unfold exited. now rewrite Hnone.
  - unfold exited. now rewrite Hs.
  - congruence.
Qed.

(** A process that has cached a report lives: the startup call was
    fulfilled. *)
Lemma cached_alive st :
  Spec.startup st -> cachedAnalysis st <> None ->
  exists report, lookup (settled st) startupCall = Some (Fulfilled report).
Proof.
  intros [(point & _ & Hc)|[(report & Hs & _)|(_ & _ & Hc)]] H;
    [congruence|now exists report|congruence].
Qed.

(** What becomes of a waiting call: it is still waiting, or it was
    fulfilled when its interval fired while the process lived, no run
    was in flight and a report was cached, with that report. *)
Lemma waiting_fate trace : forall st w,
  Spec.coherent st ->
  In w (waiting st) ->
  (In w (waiting (serve st trace)) /\
   lookup (settled (serve st trace)) w = None) \/
  exists earlier later report,
    trace = earlier ++ IntervalFires w :: later /\
    In w (waiting (serve st earlier)) /\
    isAnalysisRunning (serve st earlier) = false /\
    cachedAnalysis (serve st earlier) = Some report /\
    lookup (settled (serve st trace)) w = Some (Fulfilled report).
Proof.
  induction trace as [|e trace IH]; intros st w Hr Hw.
  - left. split; [exact Hw|]. now apply Hr.
  - rewrite serve_cons. destruct (exited st) eqn:Eex.
    + left. rewrite handle_exited, serve_exited by exact Eex.
      split; [exact Hw|]. now apply Hr.
    + rewrite handle_alive by exact Eex.
      destruct (waiting_tick st e w Hr Hw)
        as [Hw'|(-> & Hflag & report & Hc & Hs)].
      * destruct (IH _ w (coherent_step st e Hr) Hw')
          as [H|(earlier & later & report & -> & H1 & H2 & H3 & H4)];
          [now left|].
        right. exists (e :: earlier), later, report.
        rewrite serve_cons, handle_alive by exact Eex.
        repeat split; assumption.
      * right. exists [], trace, report.
        repeat split; try assumption. now apply settled_persists_serve.
Qed.

End Process.

(** C9, as the code has it.  A call of [runFullAnalysis] made while a
    run is in flight takes the waiting branch; its promise is never
    rejected.  When it has settled, it was fulfilled at a firing of its
    own interval at which no run was in flight, with the report cached
    at that moment.  If nothing was cached at the call, the run in
    flight is the startup call; once that run has been rejected the
    process has ended, the waiting call has not settled, and it never
    will, so the failure is never seen.  If a report was cached at the
    call, then as long as no run completes with a report the promise can
    only be fulfilled with that older report, and it is fulfilled with
    it when the interval fires while no run is in flight. *)
Theorem waiting_call_only_resolves_with_cached_report :
  forall (before trace : list Event),
    let s0 := serve started before in
    let w := nextCall s0 in
    let s := serve (runFullAnalysis s0) trace in
    isAnalysisRunning s0 = true ->
    (forall outcome,
        lookup (settled s) w = Some outcome ->
        exists report earlier later,
          trace = earlier ++ IntervalFires w :: later /\
          In w (waiting (serve (runFullAnalysis s0) earlier)) /\
          isAnalysisRunning (serve (runFullAnalysis s0) earlier) = false /\
          cachedAnalysis (serve (runFullAnalysis s0) earlier) = Some report /\
          outcome = Fulfilled report) /\
    (cachedAnalysis s0 = None ->
     (exists point, running s0 = [(startupCall, point)]) /\
     forall reason,
       lookup (settled s) startupCall = Some (Rejected reason) ->
       exited s = true /\
       lookup (settled s) w = None /\
       forall more, serve s more = s) /\
    (forall old,
        cachedAnalysis s0 = Some old ->
        forallb (fun e => negb (isSuccess e)) trace = true ->
        (forall outcome,
            lookup (settled s) w = Some outcome -> outcome = Fulfilled old) /\
        (isAnalysisRunning s = false ->
         lookup (settled (handle s (IntervalFires w))) w =
         Some (Fulfilled old))).
Proof.
  intros before trace s0 w s Hflag.
  destruct (process_invariant before started coherent_started startup_started)
    as [Hr0 Hk0]. fold s0 in Hr0, Hk0.
  assert (Halive0 : exited s0 = false) by now apply in_flight_alive.
  assert (Hr1 : Spec.coherent (runFullAnalysis s0)) by now apply coherent_call.
  assert (Hw : In w (waiting (runFullAnalysis s0))).
  { unfold runFullAnalysis. rewrite Hflag. simpl. apply in_app_iff.
    right. now left. }
  assert (Hcache1 : cachedAnalysis (runFullAnalysis s0) = cachedAnalysis s0).
  { unfold runFullAnalysis. now rewrite Hflag. }
  assert (Hk1 : Spec.startup (runFullAnalysis s0)).
  { pose proof (startup_handle s0 Call Hr0 Hk0) as H.
    now rewrite handle_alive in H by exact Halive0. }
  assert (Hinv : forall t, Spec.startup (serve (runFullAnalysis s0) t))
    by (intros t; now apply process_invariant).
  pose proof (waiting_fate trace _ w Hr1 Hw) as Hout. fold s in Hout.
  split; [|split].
  - intros outcome Hs.
    destruct Hout as [[_ Hnone]|(earlier & later & report & Ht & Hin & Hfl & Hc & Hs')];
      [congruence|].
    exists report, earlier, later. repeat split; try assumption. congruence.
  - intros Hnone0.
    destruct Hk0 as [(point & Erun & _)|[(report & _ & Hne)|(_ & Hfl & _)]];
      [|congruence..].
    split; [now exists point|]. intros reason Hrej.
    assert (Hex : exited s = true) by (unfold exited; now rewrite Hrej).
    split; [exact Hex|]. split; [|intros more; now apply serve_exited].
    destruct Hout as [[_ Hn]|(earlier & later & report & Ht & _ & _ & Hc & _)];
      [exact Hn|]. exfalso.
    assert (Hfilled : cachedAnalysis (serve (runFullAnalysis s0) earlier) <> None)
      by congruence.
    destruct (cached_alive _ (Hinv earlier) Hfilled) as [r Hr].
    apply (settled_persists_serve (IntervalFires w :: later)) in Hr.
    rewrite <- serve_app, <- Ht in Hr. fold s in Hr. congruence.
  - intros old Hold Hno.
    assert (Hkept : forall earlier later,
               trace = earlier ++ later ->
               cachedAnalysis (serve (runFullAnalysis s0) earlier) = Some old).
    { intros earlier later Ht.
      destruct (serve_exec earlier (runFullAnalysis s0)) as [k ->].
      rewrite cache_kept_without_success; [congruence|].
      apply forallb_firstn. rewrite Ht, forallb_app in Hno.
      now apply andb_true_iff in Hno. }
    assert (Hs : forall outcome,
               lookup (settled s) w = Some outcome -> outcome = Fulfilled old).
    { intros outcome Hs.
      destruct Hout as [[_ Hn]|(earlier & later & report & Ht & _ & _ & Hc & Hs')];
        [congruence|].
      rewrite (Hkept earlier _ Ht) in Hc. congruence. }
    split; [exact Hs|]. intros Hidle.
    assert (Hcache : cachedAnalysis s = Some old)
      by (apply (Hkept trace []); now rewrite app_nil_r).
    assert (Halive : exited s = false).
    { destruct (cached_alive s (Hinv trace)) as [r Hr]; [congruence|].
      unfold exited. now rewrite Hr. }
    rewrite handle_alive by exact Halive.
    destruct Hout as [[Hin Hnone]|(earlier & later & report & _ & _ & _ & _ & Hs')].
    + simpl. unfold check.
      rewrite (proj2 (waiting_In s w) Hin), Hidle, Hcache. simpl.
      now apply lookup_app_new.
    + apply settled_persists_step. rewrite Hs'. f_equal. now apply Hs.
Qed.

Lemma waiting_call_only_resolves_with_cached_report_witness :
  (let s := serve (runFullAnalysis (serve started []))
              [ParseSettles 0 (Rejected (ErrorObject "glob failed"));
               IntervalFires 1; Call; IntervalFires 1] in
   exited s = true /\
   lookup (settled s) 1 = None /\
   forall more, serve s more = s) /\
  (let g := [("src/a.ts", ["src/b.ts"])] in
   let first := [ParseSettles 0 (Fulfilled g);
                 AnalysesSettle 0 (Fulfilled (Some (mkLlm [] [] []))) "t0";
                 Call] in
   let s := serve (runFullAnalysis (serve started first))
              [ParseSettles 1 (Fulfilled g);
               AnalysesSettle 1 (Fulfilled None) "t1"] in
   forall old,
     cachedAnalysis (serve started first) = Some old ->
     lookup (settled (handle s (IntervalFires 2))) 2 = Some (Fulfilled old)).
Proof.
  split.
  - exact (proj2 (proj1 (proj2 (waiting_call_only_resolves_with_cached_report
                                  []
                                  [ParseSettles 0
                                     (Rejected (ErrorObject "glob failed"));
                                   IntervalFires 1; Call; IntervalFires 1]
                                  eq_refl))
                    eq_refl)
             (ErrorObject "glob failed") eq_refl).
  - intros g first s old Hold.
    exact (proj2 (proj2 (proj2 (waiting_call_only_resolves_with_cached_report
                                  first
                                  [ParseSettles 1 (Fulfilled g);
                                   AnalysesSettle 1 (Fulfilled None) "t1"]
                                  eq_refl))
                    old Hold eq_refl)
             eq_refl).
Defined.

(** C9, as stated, fails where it says that a waiting call resolves
    with the older report when the run in flight fails.  The startup
    call has cached a report; a refresh is in flight and a second one
    waits; the first fails.  A third refresh arrives before the interval
    of the waiting call fires, so that firing finds a run in flight; the
    third refresh completes, and the next firing fulfils the waiting
    call with the report of the third refresh, not with the older
    one. *)
Lemma waiting_call_gets_a_later_report :
  let g := [("src/a.ts", ["src/b.ts"])] in
  let llm := mkLlm [] [] [] in
  let s0 := serve started
              [ParseSettles 0 (Fulfilled g);
               AnalysesSettle 0 (Fulfilled (Some llm)) "t0";
               Call] in
  let w := nextCall s0 in
  let s := serve (runFullAnalysis s0)
             [ParseSettles 1 (Rejected (ErrorObject "glob failed"));
              Call;
              IntervalFires w;
              ParseSettles 3 (Fulfilled g);
              AnalysesSettle 3 (Fulfilled (Some llm)) "t3";
              IntervalFires w] in
  isAnalysisRunning s0 = true /\
  In w (waiting (runFullAnalysis s0)) /\
  (exists old, cachedAnalysis s0 = Some old /\ timestamp old = "t0") /\
  lookup (settled s) 1 = Some (Rejected (ErrorObject "glob failed")) /\
  exited s = false /\
  exists report,
    lookup (settled s) w = Some (Fulfilled report) /\
    timestamp report = "t3" /\
    cachedAnalysis s0 <> Some report.
Proof.
  repeat split.
  - now left.
  - eexists. split; reflexivity.
  - eexists. repeat split. discriminate.
Qed.

Section SingleFlight.

Variables n0 b0 : nat.

Lemma sharing_step st e :
  Spec.coherent st ->
  Spec.sharing n0 b0 st ->
  (isRequest e = true -> isAnalysisRunning st = true) ->
  Spec.sharing n0 b0 (step st e).
Proof.
  intros Hr Hsh Hreq.
  pose proof Hsh as (Hb & Hn & Hrun & Hnone & Hby & Hlate).
  assert (Hcall : isAnalysisRunning st = true ->
                  Spec.sharing n0 b0 (runFullAnalysis st)).
  { intros E. unfold runFullAnalysis. rewrite E.
    repeat split; simpl; auto. }
  assert (Hsettle : forall c point outcome cache,
             lookup (running st) c = Some point ->
             (forall report, cache = Some report ->
                             outcome = Fulfilled report) ->
             Spec.sharing n0 b0
               (mkState cache false (without c (running st)) (waiting st)
                  (settled st ++ [(c, outcome)]) (nextCall st) (graphBuilds st))).
  { intros c point outcome cache Hl Hcache.
    destruct (running_lookup _ _ _ Hr Hl) as (E & Hflag & Hlt & Hfresh).
    assert (Hc : c < n0) by exact (Hrun _ _ Hl).
    repeat split; simpl; auto.
    - intros call p. rewrite (settle_removes_run st c point call Hr Hl).
      discriminate.
    - discriminate.
    - intros report Hrep. exists c. split; [exact Hc|].
      rewrite (Hcache report Hrep). now apply lookup_app_new.
    - intros w outcome' Hw. rewrite lookup_app_other by lia. intros Hs.
      destruct (Hlate w outcome' Hw Hs) as (report & _ & Hrep).
      rewrite (Hnone Hflag) in Hrep. discriminate. }
  destruct e as [| |c parsed|c llm now|c]; simpl.
  - apply Hcall. now apply Hreq.
  - unfold getAnalysis. destruct (cachedAnalysis st); [exact Hsh|].
    rewrite (Hreq eq_refl). exact Hsh.
  - unfold afterParse.
    destruct (lookup (running st) c) as [[|h]|] eqn:El; try exact Hsh.
    destruct (running_lookup _ _ _ Hr El) as (E & Hflag & _).
    destruct parsed as [dependencyMap|error].
    + destruct (JsMap.size dependencyMap =? 0)%nat.
      * apply Hsettle with AwaitParse; [exact El|].
        intros report Hrep. rewrite (Hnone Hflag) in Hrep. discriminate.
      * destruct (Heuristic.analyzeHeuristically dependencyMap).
        -- repeat split; simpl; auto.
           intros call point. rewrite E. simpl. rewrite Nat.eqb_refl. simpl.
           destruct (Nat.eqb_spec c call) as [<-|]; [|discriminate].
           intros _. exact (Hrun _ _ El).
        -- apply Hsettle with AwaitParse; [exact El|].
           intros report Hrep. rewrite (Hnone Hflag) in Hrep. discriminate.
    + apply Hsettle with AwaitParse; [exact El|].
      intros report Hrep. rewrite (Hnone Hflag) in Hrep. discriminate.
  - unfold afterAnalyses.
    destruct (lookup (running st) c) as [[|h]|] eqn:El; try exact Hsh.
    destruct (running_lookup _ _ _ Hr El) as (E & Hflag & _).
    destruct llm as [[llmResult|]|error];
      apply Hsettle with (AwaitAnalyses h); try exact El;
      intros report Hrep; try congruence;
      rewrite (Hnone Hflag) in Hrep; discriminate.
  - unfold check. destruct (existsb (Nat.eqb c) (waiting st)); [|exact Hsh].
    destruct (isAnalysisRunning st) eqn:Eflag; simpl; [exact Hsh|].
    destruct (cachedAnalysis st) as [report|] eqn:Ec; [|exact Hsh].
    repeat split; simpl; auto.
    + intros report' Hrep. destruct (Hby report' Hrep) as (call & Hlt & Hs).
      exists call. split; [exact Hlt|]. now rewrite lookup_app, Hs.
    + intros w outcome Hw. rewrite lookup_app.
      destruct (lookup (settled st) w) as [x|] eqn:Es.
      * intros [= <-]. destruct (Hlate w x Hw Es) as (r & Hx & Hrep).
        exists r. split; [exact Hx|congruence].
      * destruct (c =? w)%nat; [|discriminate].
        intros [= <-]. now exists report.
Qed.

Lemma sharing_exec trace : forall st,
  Spec.coherent st ->
  Spec.sharing n0 b0 st ->
  requestsWhileRunning st trace = true ->
  Spec.sharing n0 b0 (exec st trace).
Proof.
  induction trace as [|e trace IH]; intros st Hr Hsh Hreq; simpl; [exact Hsh|].
  simpl in Hreq. apply andb_true_iff in Hreq. destruct Hreq as [He Hreq].
  apply IH; [now apply coherent_step| |exact Hreq].
  apply sharing_step; try assumption.
  intros E. rewrite E in He. exact He.
Qed.

End SingleFlight.

(** C2, as the code has it.  Take a state with a run in flight and
    nothing cached, and any events in which every request arrives while
    that run is in flight.  No further graph is built.  The calls of
    [runFullAnalysis] made meanwhile take the waiting branch, and any
    two of them that have settled were fulfilled with the same report,
    which is the cached one and the one the run in flight was fulfilled
    with.  Once the flag is clear and a report is cached, a waiting call
    is fulfilled with it when its interval fires.  [GET /api/analysis]
    does not call [runFullAnalysis] in such a state: it answers 503. *)
Theorem calls_in_flight_share_one_run :
  forall (before trace : list Event),
    let s0 := exec initial before in
    let s := exec s0 trace in
    isAnalysisRunning s0 = true ->
    cachedAnalysis s0 = None ->
    requestsWhileRunning s0 trace = true ->
    graphBuilds s = graphBuilds s0 /\
    (forall w1 w2 r1 r2,
        nextCall s0 <= w1 -> nextCall s0 <= w2 ->
        lookup (settled s) w1 = Some (Fulfilled r1) ->
        lookup (settled s) w2 = Some (Fulfilled r2) ->
        r1 = r2 /\ cachedAnalysis s = Some r1 /\
        exists call,
          call < nextCall s0 /\ lookup (settled s) call = Some (Fulfilled r1)) /\
    (forall w report,
        In w (waiting s) ->
        isAnalysisRunning s = false ->
        cachedAnalysis s = Some report ->
        lookup (settled (step s (IntervalFires w))) w = Some (Fulfilled report)) /\
    fst (getAnalysis s0) = Pending503.
Proof.
  intros before trace s0 s Hflag Hcache Hreq.
  assert (Hr0 : Spec.coherent s0) by apply coherent_exec, coherent_initial.
  assert (Hr : Spec.coherent s) by now apply coherent_exec.
  assert (Hsh0 : Spec.sharing (nextCall s0) (graphBuilds s0) s0).
  { repeat split; auto.
    - intros call point Hl. now apply (running_lookup _ _ _ Hr0 Hl).
    - intros report Hrep. congruence.
    - intros w outcome Hw Hs.
      destruct Hr0 as (_ & Hnew & _). rewrite (Hnew w Hw) in Hs. discriminate. }
  destruct (sharing_exec _ _ trace s0 Hr0 Hsh0 Hreq)
    as (Hb & _ & _ & _ & Hby & Hlate).
  fold s in Hb, Hby, Hlate.
  split; [exact Hb|]. split; [|split].
  - intros w1 w2 r1 r2 Hw1 Hw2 Hs1 Hs2.
    destruct (Hlate w1 _ Hw1 Hs1) as (x1 & [= <-] & Hc1).
    destruct (Hlate w2 _ Hw2 Hs2) as (x2 & [= <-] & Hc2).
    split; [congruence|]. split; [exact Hc1|]. now apply Hby.
  - intros w report Hw Hidle Hrep. simpl. unfold check.
    rewrite (proj2 (waiting_In s w) Hw), Hidle, Hrep. simpl.
    apply lookup_app_new. now apply Hr.
  - unfold getAnalysis. now rewrite Hcache, Hflag.
Qed.

Lemma calls_in_flight_share_one_run_witness :
  let g := [("src/a.ts", ["src/b.ts"])] in
  let s0 := exec initial [Call] in
  let s := exec s0 [Call; ParseSettles 0 (Fulfilled g); Call; Get;
                    IntervalFires 1;
                    AnalysesSettle 0 (Fulfilled (Some (mkLlm [] [] []))) "t0";
                    IntervalFires 2; IntervalFires 1] in
  graphBuilds s = 1 /\
  (forall r1 r2,
      lookup (settled s) 1 = Some (Fulfilled r1) ->
      lookup (settled s) 2 = Some (Fulfilled r2) ->
      r1 = r2 /\ cachedAnalysis s = Some r1 /\
      exists call, call < 1 /\ lookup (settled s) call = Some (Fulfilled r1)) /\
  (exists r1 r2, lookup (settled s) 1 = Some (Fulfilled r1) /\
                 lookup (settled s) 2 = Some (Fulfilled r2)).
Proof.
  intros g s0 s.
  pose proof (calls_in_flight_share_one_run [Call]
                [Call; ParseSettles 0 (Fulfilled g); Call; Get;
                 IntervalFires 1;
                 AnalysesSettle 0 (Fulfilled (Some (mkLlm [] [] []))) "t0";
                 IntervalFires 2; IntervalFires 1]
                eq_refl eq_refl eq_refl) as (Hb & Hsame & _).
  split; [exact Hb|]. split.
  - intros r1 r2. apply Hsame; simpl; lia.
  - do 2 eexists. split; reflexivity.
Defined.

(** C2, as stated, fails twice.  The requests that get the report or
    compute it on demand do not wait: while the first run is in flight
    and nothing is cached, [GET /api/analysis] answers 503 at once, twice
    in a row, and leaves no promise that the run could settle.  And two
    calls of [runFullAnalysis] made during that run need not share its
    report: when a refresh arrives after the run has ended and before the
    interval of the second call fires, a second graph is built and the
    second call is fulfilled with the report of the refresh. *)
Lemma requests_in_flight_need_not_share :
  (let s := exec initial [Call] in
   isAnalysisRunning s = true /\ cachedAnalysis s = None /\
   getAnalysis s = (Pending503, s) /\
   getAnalysis (snd (getAnalysis s)) = (Pending503, s)) /\
  (let g := [("src/a.ts", ["src/b.ts"])] in
   let s := exec initial
              [Call; Call; Call;
               ParseSettles 0 (Fulfilled g);
               AnalysesSettle 0 (Fulfilled (Some (mkLlm [] [] []))) "t0";
               IntervalFires 1;
               Call;
               IntervalFires 2;
               ParseSettles 3 (Fulfilled g);
               AnalysesSettle 3 (Fulfilled (Some (mkLlm [] [] []))) "t3";
               IntervalFires 2] in
   graphBuilds s = 2 /\
   exists r1 r2,
     lookup (settled s) 1 = Some (Fulfilled r1) /\
     lookup (settled s) 2 = Some (Fulfilled r2) /\
     timestamp r1 = "t0" /\ timestamp r2 = "t3" /\ r1 <> r2).
Proof.
  split.
  - repeat split.
  - split; [reflexivity|]. do 2 eexists.
    split; [reflexivity|]. split; [reflexivity|].
    split; [reflexivity|]. split; [reflexivity|]. discriminate.
Qed.

(* ================================================================= *)
(** ** Further properties of the orchestration *)

Section Invocations.

(** The invocations in flight, waiting and settled, by number. *)
Lemma invocations_step st e :
  Spec.coherent st ->
  Permutation (map fst (running st) ++ waiting st ++ map fst (settled st))
    (seq 0 (nextCall st)) ->
  Permutation
    (map fst (running (step st e)) ++ waiting (step st e)
       ++ map fst (settled (step st e)))
    (seq 0 (nextCall (step st e))).
Proof.
  intros Hc Hp.
  assert (Hcall : Permutation
            (map fst (running (runFullAnalysis st)) ++ waiting (runFullAnalysis st)
               ++ map fst (settled (runFullAnalysis st)))
            (seq 0 (nextCall (runFullAnalysis st)))).
  { unfold runFullAnalysis.
    destruct (isAnalysisRunning st);
      cbn [running waiting settled nextCall]; rewrite seq_S, Nat.add_0_l, <- Hp.
    - rewrite <- !app_assoc.
      apply Permutation_app_head, Permutation_app_head.
      apply Permutation_app_comm with (l := [nextCall st]).
    - rewrite map_app, <- !app_assoc. cbn [map fst].
      apply Permutation_app_head. rewrite (app_assoc (waiting st)).
      apply (Permutation_cons_append _ (nextCall st)). }
  assert (Hsettle : forall c point outcome cache,
             lookup (running st) c = Some point ->
             Permutation
               (map fst (running
                  (mkState cache false (without c (running st)) (waiting st)
                     (settled st ++ [(c, outcome)]) (nextCall st) (graphBuilds st)))
                ++ waiting st ++ map fst (settled st ++ [(c, outcome)]))
               (seq 0 (nextCall st))).
  { intros c point outcome cache Hl.
    destruct (running_lookup _ _ _ Hc Hl) as (E & _).
    rewrite <- Hp, E. simpl. unfold without. simpl. rewrite Nat.eqb_refl. simpl.
    rewrite map_app. simpl. rewrite app_assoc.
    apply Permutation_sym, Permutation_cons_app. now rewrite app_nil_r. }
  destruct e as [| |c parsed|c llm now|c]; simpl.
  - exact Hcall.
  - unfold getAnalysis. destruct (cachedAnalysis st); [exact Hp|].
    destruct (isAnalysisRunning st) eqn:E; simpl; [exact Hp|exact Hcall].
  - unfold afterParse.
    destruct (lookup (running st) c) as [[|h]|] eqn:El; try exact Hp.
    destruct parsed as [dependencyMap|error]; [|now apply Hsettle with AwaitParse].
    destruct (JsMap.size dependencyMap =? 0)%nat;
      [now apply Hsettle with AwaitParse|].
    destruct (Heuristic.analyzeHeuristically dependencyMap);
      [|now apply Hsettle with AwaitParse].
    simpl. destruct (running_lookup _ _ _ Hc El) as (E & _).
    rewrite E in *. simpl. now rewrite Nat.eqb_refl.
  - unfold afterAnalyses.
    destruct (lookup (running st) c) as [[|h]|] eqn:El; try exact Hp.
    destruct llm as [[llmResult|]|error];
      now apply Hsettle with (AwaitAnalyses h).
  - unfold check.
    destruct (existsb (Nat.eqb c) (waiting st)) eqn:Ew; [|exact Hp].
    destruct (isAnalysisRunning st) eqn:Eflag; simpl; [exact Hp|].
    destruct (cachedAnalysis st) as [report|]; [|exact Hp]. simpl.
    apply waiting_In in Ew.
    assert (Hnd : NoDup (waiting st)).
    { assert (H : NoDup (seq 0 (nextCall st))) by apply seq_NoDup.
      apply (Permutation_NoDup (Permutation_sym Hp)) in H.
      apply NoDup_app_remove_l in H. now apply NoDup_app_remove_r in H. }
    assert (Hout : Permutation
              (filter (fun w => negb (w =? c)%nat) (waiting st) ++ [c])
              (waiting st)).
    { clear - Ew Hnd. induction (waiting st) as [|w l IH]; [destruct Ew|].
      inversion Hnd as [|? ? Hnotin Hnd']; subst. simpl.
      destruct (Nat.eqb_spec w c) as [->|Hne]; simpl.
      - replace (filter (fun w => negb (w =? c)%nat) l) with l.
        + apply Permutation_sym, Permutation_cons_append.
        + symmetry. apply forallb_filter_id. apply forallb_forall.
          intros x Hx. apply negb_true_iff, Nat.eqb_neq. congruence.
      - constructor. apply IH; [|exact Hnd'].
        destruct Ew as [Ew|Ew]; [congruence|exact Ew]. }
    rewrite <- Hp, map_app. cbn [map fst].
    apply Permutation_app_head.
    rewrite <- Hout at 2. rewrite <- !app_assoc.
    apply Permutation_app_head, Permutation_app_comm.
Qed.

End Invocations.

(** X1.  In every state the server reaches, the calls of
    [runFullAnalysis] made so far are, each exactly once, suspended in
    the running branch, polling in the waiting branch, or settled: no
    promise is lost and none settles twice. *)
Theorem every_invocation_is_accounted_for :
  forall trace : list Event,
    let s := exec initial trace in
    Permutation (map fst (running s) ++ waiting s ++ map fst (settled s))
      (seq 0 (nextCall s)).
Proof.
  intros trace.
  assert (H : forall st,
             Spec.coherent st ->
             Permutation (map fst (running st) ++ waiting st ++ map fst (settled st))
               (seq 0 (nextCall st)) ->
             Permutation
               (map fst (running (exec st trace)) ++ waiting (exec st trace)
                  ++ map fst (settled (exec st trace)))
               (seq 0 (nextCall (exec st trace)))).
  { induction trace as [|e trace IH]; intros st Hc Hp; simpl; [exact Hp|].
    apply IH; [now apply coherent_step|now apply invocations_step]. }
  apply H; [apply coherent_initial|reflexivity].
Qed.

(** X2.  In every state the server reaches at most one invocation is
    suspended in the running branch, and the flag is set exactly when
    there is one. *)
Theorem at_most_one_run_in_flight :
  forall trace : list Event,
    let s := exec initial trace in
    length (running s) <= 1 /\
    (isAnalysisRunning s = true <-> running s <> []).
Proof.
  intros trace s.
  assert (Hc : Spec.coherent s) by apply coherent_exec, coherent_initial.
  destruct Hc as ([[E Hflag]|(c & p & E & Hflag & _)] & _); rewrite E, Hflag.
  - split; [simpl; lia|]. split; [discriminate|congruence].
  - split; [simpl; lia|]. split; [discriminate|reflexivity].
Qed.

Section Cache.

Lemma lookup_In {A} (l : list (nat * A)) call a :
  lookup l call = Some a -> In (call, a) l.
Proof.
  induction l as [|[c x] l IH]; simpl; [discriminate|].
  destruct (Nat.eqb_spec c call) as [->|_].
  - intros [= ->]. now left.
  - intros H. right. now apply IH.
Qed.

(** Every rejection recorded so far carries an [Error]. *)
Lemma rejections_step st e :
  Forall (fun entry => forall reason,
              snd entry = Rejected reason -> exists message,
                reason = ErrorObject message) (settled st) ->
  Forall (fun entry => forall reason,
              snd entry = Rejected reason -> exists message,
                reason = ErrorObject message) (settled (step st e)).
Proof.
  intros H.
  assert (Hfail : forall c error,
             Forall (fun entry => forall reason,
                         snd entry = Rejected reason -> exists message,
                           reason = ErrorObject message)
               (settled (fail c error st))).
  { intros c error. simpl. apply Forall_app. split; [exact H|].
    constructor; [|constructor]. simpl. intros reason [= <-]. now eexists. }
  assert (Hok : forall c report,
             Forall (fun entry => forall reason,
                         snd entry = Rejected reason -> exists message,
                           reason = ErrorObject message)
               (settled st ++ [(c, Fulfilled report)])).
  { intros c report. apply Forall_app. split; [exact H|].
    constructor; [|constructor]. simpl. discriminate. }
  destruct e as [| |c parsed|c llm now|c]; simpl.
  - unfold runFullAnalysis. now destruct (isAnalysisRunning st).
  - unfold getAnalysis. destruct (cachedAnalysis st); simpl; [exact H|].
    destruct (isAnalysisRunning st) eqn:E; simpl; [exact H|].
    unfold runFullAnalysis. now rewrite E.
  - unfold afterParse. destruct (lookup (running st) c) as [[|h]|]; try exact H.
    destruct parsed as [dependencyMap|error]; [|apply Hfail].
    destruct (JsMap.size dependencyMap =? 0)%nat; [apply Hfail|].
    destruct (Heuristic.analyzeHeuristically dependencyMap);
      [exact H|apply Hfail].
  - unfold afterAnalyses.
    destruct (lookup (running st) c) as [[|h]|]; try exact H.
    destruct llm as [[llmResult|]|error]; [apply Hok|apply Hfail..].
  - unfold check. destruct (existsb (Nat.eqb c) (waiting st)); [|exact H].
    destruct (isAnalysisRunning st); simpl; [exact H|].
    destruct (cachedAnalysis st); [apply Hok|exact H].
Qed.

Lemma provenance_step st e :
  Spec.coherent st ->
  (forall call h, lookup (running st) call = Some (AwaitAnalyses h) -> Notions.analysed h) ->
  (forall report, cachedAnalysis st = Some report ->
                  Notions.analysed (heuristicAnalysis report) /\
                  exists call, lookup (settled st) call = Some (Fulfilled report)) ->
  (forall call h, lookup (running (step st e)) call = Some (AwaitAnalyses h) ->
                  Notions.analysed h) /\
  (forall report, cachedAnalysis (step st e) = Some report ->
                  Notions.analysed (heuristicAnalysis report) /\
                  exists call,
                    lookup (settled (step st e)) call = Some (Fulfilled report)).
Proof.
  intros Hc Hrun Hcache.
  assert (Hkeep : forall report,
             cachedAnalysis st = Some report ->
             Notions.analysed (heuristicAnalysis report) /\
             exists call,
               lookup (settled (step st e)) call = Some (Fulfilled report)).
  { intros report Hr. destruct (Hcache report Hr) as (Ha & call & Hs).
    split; [exact Ha|]. exists call. now apply settled_persists_step. }
  destruct (isSuccess e) eqn:Esucc.
  - destruct e as [| |c parsed|c llm now|c]; try discriminate.
    destruct llm as [[llmResult|]|error]; try discriminate.
    simpl in *. unfold afterAnalyses in *.
    destruct (lookup (running st) c) as [[|h]|] eqn:El;
      try (split; [exact Hrun|exact Hkeep]).
    split.
    + intros call h'. simpl.
      rewrite (settle_removes_run st c _ call Hc El). discriminate.
    + intros report. simpl. intros [= <-]. simpl.
      split; [now apply Hrun with c|]. exists c.
      apply lookup_app_new. now apply (running_lookup _ _ _ Hc El).
  - split.
    + destruct e as [| |c parsed|c llm now|c]; simpl.
      * unfold runFullAnalysis. destruct (isAnalysisRunning st) eqn:E; simpl;
          [exact Hrun|].
        rewrite (idle_no_run st Hc E). simpl. intros call h.
        destruct (nextCall st =? call)%nat; discriminate.
      * unfold getAnalysis. destruct (cachedAnalysis st); simpl; [exact Hrun|].
        destruct (isAnalysisRunning st) eqn:E; simpl; [exact Hrun|].
        unfold runFullAnalysis. rewrite E. simpl.
        rewrite (idle_no_run st Hc E). simpl. intros call h.
        destruct (nextCall st =? call)%nat; discriminate.
      * unfold afterParse.
        destruct (lookup (running st) c) as [[|h]|] eqn:El; try exact Hrun.
        assert (Hnone : forall cache outcome call h,
                   lookup (running
                      (mkState cache false (without c (running st)) (waiting st)
                         (settled st ++ [(c, outcome)]) (nextCall st)
                         (graphBuilds st))) call = Some (AwaitAnalyses h) ->
                   Notions.analysed h).
        { intros cache outcome call h. simpl.
          rewrite (settle_removes_run st c _ call Hc El). discriminate. }
        destruct parsed as [dependencyMap|error]; [|apply Hnone].
        destruct (JsMap.size dependencyMap =? 0)%nat eqn:Esize; [apply Hnone|].
        destruct (Heuristic.analyzeHeuristically dependencyMap) as [h|] eqn:Eh;
          [|apply Hnone].
        simpl. destruct (running_lookup _ _ _ Hc El) as (E & _).
        rewrite E. simpl. rewrite Nat.eqb_refl. simpl. intros call h'.
        destruct (c =? call)%nat; [|discriminate].
        intros [= <-]. exists dependencyMap. split; [|exact Eh].
        now apply Nat.eqb_neq.
      * unfold afterAnalyses.
        destruct (lookup (running st) c) as [[|h]|] eqn:El; try exact Hrun.
        destruct llm as [[llmResult|]|error]; try discriminate;
          intros call h'; simpl;
          rewrite (settle_removes_run st c _ call Hc El); discriminate.
      * unfold check. destruct (existsb (Nat.eqb c) (waiting st)); [|exact Hrun].
        destruct (isAnalysisRunning st); simpl; [exact Hrun|].
        now destruct (cachedAnalysis st).
    + rewrite (cache_written_by_success st e Esucc). exact Hkeep.
Qed.

End Cache.

(** X3.  The cache is never emptied: once a report is cached, every
    later state holds a report, the same one as long as no run completes
    with a new one, and [GET /api/analysis] answers it without touching
    the state. *)
Theorem cached_report_is_never_dropped :
  forall (before trace : list Event) (report : FullAnalysisReport),
    let s0 := exec initial before in
    let s := exec s0 trace in
    cachedAnalysis s0 = Some report ->
    exists report',
      cachedAnalysis s = Some report' /\
      getAnalysis s = (Success report', s) /\
      step s Get = s /\
      (forallb (fun e => negb (isSuccess e)) trace = true -> report' = report).
Proof.
  intros before trace report s0 s Hc.
  destruct (cache_stays_filled trace s0 report Hc) as [r Hr]. fold s in Hr.
  exists r. split; [exact Hr|].
  assert (Hget : getAnalysis s = (Success r, s))
    by (unfold getAnalysis; now rewrite Hr).
  split; [exact Hget|]. split; [simpl; now rewrite Hget|].
  intros Hno. unfold s in Hr.
  rewrite cache_kept_without_success in Hr by exact Hno. congruence.
Qed.

Lemma cached_report_is_never_dropped_witness :
  let g := [("src/a.ts", ["src/b.ts"])] in
  let before := [Call; ParseSettles 0 (Fulfilled g);
                 AnalysesSettle 0 (Fulfilled (Some (mkLlm [] [] []))) "t0"] in
  let s := exec (exec initial before)
             [Call; ParseSettles 1 (Rejected (StringValue "no disk")); Get] in
  exists report',
    cachedAnalysis s = Some report' /\
    getAnalysis s = (Success report', s) /\
    step s Get = s /\
    (true = true ->
     report' = mkReport "t0" (mkLlm [] [] []) (mkHeuristic [] [])).
Proof.
  intros g before.
  exact (cached_report_is_never_dropped before
           [Call; ParseSettles 1 (Rejected (StringValue "no disk")); Get]
           (mkReport "t0" (mkLlm [] [] []) (mkHeuristic [] [])) eq_refl).
Defined.

(** X4.  Whatever was thrown inside a run, the promise of
    [runFullAnalysis] is rejected with an [Error] object: every
    rejection recorded in a state the server reaches carries a
    message. *)
Theorem rejections_carry_an_error :
  forall (trace : list Event) (call : nat) (reason : Thrown),
    lookup (settled (exec initial trace)) call = Some (Rejected reason) ->
    exists message, reason = ErrorObject message.
Proof.
  intros trace call reason H. apply lookup_In in H.
  assert (Hall : forall st,
             Forall (fun entry => forall reason,
                         snd entry = Rejected reason -> exists message,
                           reason = ErrorObject message) (settled st) ->
             Forall (fun entry => forall reason,
                         snd entry = Rejected reason -> exists message,
                           reason = ErrorObject message)
               (settled (exec st trace))).
  { clear H. induction trace as [|e trace IH]; intros st Hst; simpl;
      [exact Hst|].
    apply IH. now apply rejections_step. }
  specialize (Hall initial (Forall_nil _)).
  rewrite Forall_forall in Hall. exact (Hall _ H reason eq_refl).
Qed.

Lemma rejections_carry_an_error_witness :
  exists message, ErrorObject "An unknown error occurred." = ErrorObject message.
Proof.
  exact (rejections_carry_an_error [Call; ParseSettles 0 (Rejected OtherValue)] 0
           (ErrorObject "An unknown error occurred.") eq_refl).
Defined.

(** X5.  A cached report always comes from a run: some invocation was
    fulfilled with it, and its heuristic part is the heuristic analysis
    of a graph that is not empty. *)
Theorem cached_report_comes_from_a_run :
  forall (trace : list Event) (report : FullAnalysisReport),
    let s := exec initial trace in
    cachedAnalysis s = Some report ->
    (exists call, lookup (settled s) call = Some (Fulfilled report)) /\
    exists g : DependencyMap,
      JsMap.size g <> 0 /\
      analyzeHeuristically g = Some (heuristicAnalysis report).
Proof.
  intros trace report s.
  assert (H : forall st,
             Spec.coherent st ->
             (forall call h, lookup (running st) call = Some (AwaitAnalyses h) ->
                             Notions.analysed h) ->
             (forall report, cachedAnalysis st = Some report ->
                             Notions.analysed (heuristicAnalysis report) /\
                             exists call,
                               lookup (settled st) call = Some (Fulfilled report)) ->
             forall report, cachedAnalysis (exec st trace) = Some report ->
                            Notions.analysed (heuristicAnalysis report) /\
                            exists call,
                              lookup (settled (exec st trace)) call =
                              Some (Fulfilled report)).
  { induction trace as [|e trace IH]; intros st Hc Hrun Hcache; simpl;
      [exact Hcache|].
    destruct (provenance_step st e Hc Hrun Hcache) as [Hrun' Hcache'].
    apply IH; [now apply coherent_step|exact Hrun'|exact Hcache']. }
  intros Hr.
  destruct (H initial coherent_initial) with (report := report) as [Ha Hs];
    try discriminate; [exact Hr|].
  split; [exact Hs|exact Ha].
Qed.

Lemma cached_report_comes_from_a_run_witness :
  let g := [("src/a.ts", ["src/b.ts"]); ("src/b.ts", ["src/a.ts"])] in
  let s := exec initial [Call; ParseSettles 0 (Fulfilled g);
                         AnalysesSettle 0 (Fulfilled (Some (mkLlm [] [] []))) "t0"] in
  let report := mkReport "t0" (mkLlm [] [] [])
                  (mkHeuristic [mkCycle ["src/a.ts"; "src/b.ts"; "src/a.ts"]] []) in
  (exists call, lookup (settled s) call = Some (Fulfilled report)) /\
  exists g' : DependencyMap,
    JsMap.size g' <> 0 /\
    analyzeHeuristically g' = Some (heuristicAnalysis report).
Proof.
  intros g s report.
  exact (cached_report_comes_from_a_run
           [Call; ParseSettles 0 (Fulfilled g);
            AnalysesSettle 0 (Fulfilled (Some (mkLlm [] [] []))) "t0"]
           report eq_refl).
Defined.

(* ================================================================= *)
(** ** Further properties of the graph construction *)

Section Builder.

Variable P : Path.Api.

Lemma parseFile_keys (m : DependencyMap) (file : Parser.SourceFile) :
  JsMap.keys (Parser.parseFile P m file) =
  match snd file with
  | Some _ => JsSet.add (Parser.replaceBackslashes (fst file)) (JsMap.keys m)
  | None => JsMap.keys m
  end.
Proof.
  unfold Parser.parseFile. destruct (snd file); [|reflexivity].
  apply keys_set.
Qed.

Lemma add_NoDup (x : string) (s : JsSet.t) : NoDup s -> NoDup (JsSet.add x s).
Proof.
  intros H. unfold JsSet.add. destruct (JsSet.has s x) eqn:E; [exact H|].
  apply has_false in E.
  apply NoDup_app; [exact H|repeat constructor; simpl; tauto|].
  intros y Hy [<-|[]]. exact (E Hy).
Qed.

Lemma parse_keys (files : list Parser.SourceFile) : forall m : DependencyMap,
  (NoDup (JsMap.keys m) ->
   NoDup (JsMap.keys (fold_left (Parser.parseFile P) files m))) /\
  forall k,
    In k (JsMap.keys (fold_left (Parser.parseFile P) files m)) <->
    In k (JsMap.keys m) \/
    exists f importPaths,
      In (f, Some importPaths) files /\ k = Parser.replaceBackslashes f.
Proof.
  induction files as [|[f content] files IH]; intros m; simpl.
  - split; [tauto|]. intros k. split; [tauto|].
    intros [H|(f & i & [] & _)]. exact H.
  - destruct (IH (Parser.parseFile P m (f, content))) as [IHnd IHin].
    rewrite parseFile_keys in IHnd, IHin. simpl in IHnd, IHin.
    split.
    + intros Hnd. apply IHnd. destruct content; [now apply add_NoDup|exact Hnd].
    + intros k. rewrite IHin. destruct content as [importPaths|].
      * rewrite In_add. split.
        -- intros [[->|H]|(f' & i & Hin & ->)].
           ++ right. exists f, importPaths. split; [now left|reflexivity].
           ++ now left.
           ++ right. exists f', i. split; [now right|reflexivity].
        -- intros [H|(f' & i & [[= -> ->]|Hin] & ->)].
           ++ left. now right.
           ++ left. now left.
           ++ right. exists f', i. now split.
      * split.
        -- intros [H|(f' & i & Hin & ->)]; [now left|].
           right. exists f', i. split; [now right|reflexivity].
        -- intros [H|(f' & i & [[=]|Hin] & ->)]; [now left|].
           right. exists f', i. now split.
Qed.

Lemma parse_get_other (files : list Parser.SourceFile) (k : string) :
  forall m : DependencyMap,
    (forall f importPaths,
        In (f, Some importPaths) files -> Parser.replaceBackslashes f <> k) ->
    JsMap.get (fold_left (Parser.parseFile P) files m) k = JsMap.get m k.
Proof.
  induction files as [|[f content] files IH]; intros m H; simpl; [reflexivity|].
  rewrite IH by (intros f' i Hin; apply (H f' i); now right).
  unfold Parser.parseFile. simpl. destruct content as [importPaths|];
    [|reflexivity].
  rewrite get_set.
  destruct (String.eqb_spec (Parser.replaceBackslashes f) k) as [E|_];
    [|reflexivity].
  exfalso. apply (H f importPaths); [now left|exact E].
Qed.

Lemma collect_In relativeFilePath (importPaths : list string) (d : string) :
  In d (Parser.collectDependencies P relativeFilePath importPaths) <->
  exists importPath,
    In importPath importPaths /\
    Parser.resolveImport P relativeFilePath importPath = Some d.
Proof.
  induction importPaths as [|i l IH]; simpl.
  - split; [tauto|]. intros (x & [] & _).
  - destruct (Parser.resolveImport P relativeFilePath i) as [d'|] eqn:E; simpl.
    + rewrite IH. split.
      * intros [<-|(x & Hx & Hr)]; [exists i; tauto|exists x; tauto].
      * intros (x & [<-|Hx] & Hr); [left; congruence|right; now exists x].
    + rewrite IH. split.
      * intros (x & Hx & Hr). exists x. tauto.
      * intros (x & [<-|Hx] & Hr); [congruence|now exists x].
Qed.

Lemma collect_length relativeFilePath (importPaths : list string) :
  length (Parser.collectDependencies P relativeFilePath importPaths) =
  length (filter
            (fun importPath =>
               String.eqb (Path.extname P importPath) ""
               || Parser.includes Parser.sourceExtensions
                    (Path.extname P importPath))
            importPaths).
Proof.
  induction importPaths as [|i l IH]; [reflexivity|].
  cbn [Parser.collectDependencies filter].
  unfold Parser.resolveImport.
  destruct (String.eqb (Path.extname P i) ""); cbn [negb orb length];
    [now rewrite IH|].
  destruct (Parser.includes Parser.sourceExtensions (Path.extname P i));
    cbn [length]; now rewrite IH.
Qed.

End Builder.

(** X6.  The keys of the graph are exactly the paths, with forward
    slashes, of the files that could be read, each key once: a file
    whose read fails leaves no key, a file without imports still has
    one. *)
Theorem graph_keys_are_the_readable_files :
  forall (P : Path.Api) (files : list Parser.SourceFile),
    NoDup (JsMap.keys (Parser.parseDependencies P files)) /\
    forall k,
      In k (JsMap.keys (Parser.parseDependencies P files)) <->
      exists f importPaths,
        In (f, Some importPaths) files /\ k = Parser.replaceBackslashes f.
Proof.
  intros P files. unfold Parser.parseDependencies.
  destruct (parse_keys P files JsMap.empty) as [Hnd Hin].
  split; [apply Hnd; constructor|].
  intros k. rewrite Hin. simpl. tauto.
Qed.

(** X7.  The edge list recorded for a file is the one computed from its
    own imports, unless a file read later has the same key; then the
    later one replaces it. *)
Theorem last_readable_file_defines_the_entry :
  forall (P : Path.Api) (before after : list Parser.SourceFile)
         (f : string) (importPaths : list string),
    (forall f' importPaths',
        In (f', Some importPaths') after ->
        Parser.replaceBackslashes f' <> Parser.replaceBackslashes f) ->
    JsMap.get
      (Parser.parseDependencies P (before ++ (f, Some importPaths) :: after))
      (Parser.replaceBackslashes f) =
    Some (Parser.collectDependencies P f importPaths).
Proof.
  intros P before after f importPaths H. unfold Parser.parseDependencies.
  rewrite fold_left_app. simpl.
  rewrite parse_get_other by exact H.
  unfold Parser.parseFile. simpl. now rewrite get_set, String.eqb_refl.
Qed.

Lemma last_readable_file_defines_the_entry_witness :
  JsMap.get
    (Parser.parseDependencies Path.posix
       ([("src/a.ts", Some ["./b"]); ("src/c.ts", None)]
          ++ ("src/utils/x.ts", Some ["./y"; "./z.json"; "./../a.js"])
          :: [("src/b.ts", Some [])]))
    (Parser.replaceBackslashes "src/utils/x.ts") =
  Some (Parser.collectDependencies Path.posix "src/utils/x.ts"
          ["./y"; "./z.json"; "./../a.js"]).
Proof.
  apply (last_readable_file_defines_the_entry Path.posix
           [("src/a.ts", Some ["./b"]); ("src/c.ts", None)]
           [("src/b.ts", Some [])] "src/utils/x.ts"
           ["./y"; "./z.json"; "./../a.js"]).
  intros f' i [[= <- <-]|[]]. vm_compute. discriminate.
Defined.

(** The loop pushes one target for each import it keeps, in the order
    of the imports. *)
Lemma collect_in_order (P : Path.Api) (relativeFilePath : string)
    (importPaths : list string) :
  Parser.collectDependencies P relativeFilePath importPaths =
  map (fun importPath =>
         Path.normalize P
           (Path.join P
              [Path.dirname P relativeFilePath;
               if String.eqb (Path.extname P importPath) ""
               then (importPath ++ ".ts")%string else importPath]))
    (filter
       (fun importPath =>
          String.eqb (Path.extname P importPath) ""
          || Parser.includes Parser.sourceExtensions
               (Path.extname P importPath))
       importPaths).
Proof.
  induction importPaths as [|i l IH]; [reflexivity|].
  cbn [Parser.collectDependencies filter]. unfold Parser.resolveImport.
  destruct (String.eqb (Path.extname P i) "") eqn:E; cbn [negb orb].
  - cbn [map]. rewrite E. now rewrite IH.
  - destruct (Parser.includes Parser.sourceExtensions (Path.extname P i));
      [cbn [map]; rewrite E|]; now rewrite IH.
Qed.

(** X8.  The edges of a file follow its imports, in order and with
    repetitions: the edge list is the list of the imports whose path
    has no extension or a source extension, each replaced by its
    target, the normalized join of the directory of the file and the
    import path, with [.ts] appended when there is no extension.  So a
    path is an edge target exactly when some import resolves to it, and
    there is one edge for each import that is kept. *)
Theorem edges_follow_the_imports :
  forall (P : Path.Api) (relativeFilePath : string) (importPaths : list string),
    Parser.collectDependencies P relativeFilePath importPaths =
    map (fun importPath =>
           Path.normalize P
             (Path.join P
                [Path.dirname P relativeFilePath;
                 if String.eqb (Path.extname P importPath) ""
                 then (importPath ++ ".ts")%string else importPath]))
      (filter
         (fun importPath =>
            String.eqb (Path.extname P importPath) ""
            || Parser.includes Parser.sourceExtensions
                 (Path.extname P importPath))
         importPaths) /\
    (forall d,
        In d (Parser.collectDependencies P relativeFilePath importPaths) <->
        exists importPath,
          In importPath importPaths /\
          Parser.resolveImport P relativeFilePath importPath = Some d) /\
    length (Parser.collectDependencies P relativeFilePath importPaths) =
    length (filter
              (fun importPath =>
                 String.eqb (Path.extname P importPath) ""
                 || Parser.includes Parser.sourceExtensions
                      (Path.extname P importPath))
              importPaths).
Proof.
  intros P relativeFilePath importPaths. split; [|split].
  - apply collect_in_order.
  - intros d. apply collect_In.
  - apply collect_length.
Qed.

(** X9.  The graph is empty exactly when no file could be read, be it
    that there was none or that every read failed; a run that resumes
    with such a graph is rejected with the error for no files. *)
Theorem unreadable_files_count_as_no_files :
  forall (P : Path.Api) (files : list Parser.SourceFile),
    (JsMap.size (Parser.parseDependencies P files) = 0 <->
     forall f content, In (f, content) files -> content = None) /\
    forall (before : list Event) (call : nat),
      let s := exec initial before in
      (forall f content, In (f, content) files -> content = None) ->
      lookup (running s) call = Some AwaitParse ->
      lookup
        (settled
           (step s (ParseSettles call
                      (Fulfilled (Parser.parseDependencies P files)))))
        call =
      Some (Rejected (ErrorObject "Parser found no files or dependencies.")).
Proof.
  intros P files.
  assert (Hempty : JsMap.size (Parser.parseDependencies P files) = 0 <->
                   forall f content, In (f, content) files -> content = None).
  { assert (Hin : forall k,
               In k (JsMap.keys (Parser.parseDependencies P files)) <->
               exists f importPaths,
                 In (f, Some importPaths) files /\
                 k = Parser.replaceBackslashes f).
    { intros k. unfold Parser.parseDependencies.
      rewrite (proj2 (parse_keys P files JsMap.empty) k). simpl. tauto. }
    unfold JsMap.size. rewrite <- (length_map fst).
    change (map fst (Parser.parseDependencies P files))
      with (JsMap.keys (Parser.parseDependencies P files)).
    split.
    - intros Hlen f [importPaths|] Hf; [|reflexivity].
      apply length_zero_iff_nil in Hlen.
      assert (H : In (Parser.replaceBackslashes f)
                    (JsMap.keys (Parser.parseDependencies P files)))
        by (apply Hin; now exists f, importPaths).
      rewrite Hlen in H. destruct H.
    - intros Hnone.
      destruct (JsMap.keys (Parser.parseDependencies P files)) as [|k l] eqn:E;
        [reflexivity|].
      assert (H : In k (k :: l)) by now left.
      apply Hin in H. destruct H as (f & importPaths & Hf & _).
      discriminate (Hnone _ _ Hf). }
  split; [exact Hempty|].
  intros before call s Hnone Hl.
  assert (Hc : Spec.coherent s) by apply coherent_exec, coherent_initial.
  rewrite (failing_step s call AwaitParse _ _ Hc Hl
             (Spec.graph_is_empty call _ (proj2 Hempty Hnone))).
  exact (fail_rejects s call AwaitParse (ErrorObject _) Hc Hl).
Qed.

Lemma unreadable_files_count_as_no_files_witness :
  let files := [("src/a.ts", None); ("src/b.ts", None)] in
  lookup
    (settled
       (step (exec initial [Call])
          (ParseSettles 0
             (Fulfilled (Parser.parseDependencies Path.posix files)))))
    0 =
  Some (Rejected (ErrorObject "Parser found no files or dependencies.")).
Proof.
  intros files.
  apply (proj2 (unreadable_files_count_as_no_files Path.posix files) [Call] 0).
  - intros f content [[= <- <-]|[[= <- <-]|[]]]; reflexivity.
  - reflexivity.
Defined.

(* ================================================================= *)
(** ** Further properties of the hub detection *)

Section HubOrder.

Lemma insertBy_In {A} (cmp : A -> A -> Z) x y l :
  In y (insertBy cmp x l) <-> y = x \/ In y l.
Proof.
  split.
  - intros H. apply (Permutation_in _ (insertBy_perm cmp x l)) in H.
    destruct H as [<-|H]; tauto.
  - intros H. apply (Permutation_in _ (Permutation_sym (insertBy_perm cmp x l))).
    destruct H as [->|H]; [now left|now right].
Qed.

Lemma insertBy_sorted x l :
  StronglySorted Notions.moreImporters l ->
  StronglySorted Notions.moreImporters
    (insertBy (fun a b => (importerCount b - importerCount a)%Z) x l).
Proof.
  induction 1 as [|y l Hs IH Hy]; simpl.
  - repeat constructor.
  - destruct (Z.leb_spec (importerCount y - importerCount x) 0).
    + constructor; [now constructor|].
      constructor; [unfold Notions.moreImporters; lia|].
      rewrite Forall_forall in Hy |- *. intros z Hz.
      specialize (Hy z Hz). unfold Notions.moreImporters in *. lia.
    + constructor; [exact IH|].
      rewrite Forall_forall in Hy |- *. intros z Hz.
      apply insertBy_In in Hz. destruct Hz as [->|Hz]; [|now apply Hy].
      unfold Notions.moreImporters. lia.
Qed.

Lemma sortBy_sorted l :
  StronglySorted Notions.moreImporters
    (sortBy (fun a b => (importerCount b - importerCount a)%Z) l).
Proof.
  induction l as [|x l IH]; simpl; [constructor|].
  now apply insertBy_sorted.
Qed.

Lemma insertBy_ties (n : Z) x l :
  filter (fun h => (importerCount h =? n)%Z)
    (insertBy (fun a b => (importerCount b - importerCount a)%Z) x l) =
  filter (fun h => (importerCount h =? n)%Z) (x :: l).
Proof.
  induction l as [|y l IH]; [reflexivity|].
  cbn [insertBy].
  destruct (Z.leb_spec (importerCount y - importerCount x) 0); [reflexivity|].
  cbn [filter] in *. rewrite IH.
  destruct (Z.eqb_spec (importerCount x) n), (Z.eqb_spec (importerCount y) n);
    try reflexivity.
  lia.
Qed.

Lemma sortBy_ties (n : Z) l :
  filter (fun h => (importerCount h =? n)%Z)
    (sortBy (fun a b => (importerCount b - importerCount a)%Z) l) =
  filter (fun h => (importerCount h =? n)%Z) l.
Proof.
  induction l as [|x l IH]; [reflexivity|].
  cbn [sortBy fold_right]. rewrite insertBy_ties. cbn [filter].
  fold (sortBy (fun a b => (importerCount b - importerCount a)%Z) l).
  now rewrite IH.
Qed.

Lemma incoming_keys_of_file importer deps : forall incoming : JsMap.t (list string),
  JsMap.keys (fold_left (addImporter importer) deps incoming) =
  fold_left (fun s d => JsSet.add d s) deps (JsMap.keys incoming).
Proof.
  induction deps as [|d deps IH]; intros incoming; simpl; [reflexivity|].
  rewrite IH. unfold addImporter. now rewrite keys_set.
Qed.

Lemma incoming_keys (g : DependencyMap) :
  JsMap.keys (buildIncomingMap g) = JsSet.of_list (flat_map snd g).
Proof.
  unfold buildIncomingMap, JsSet.of_list.
  change JsSet.empty with (JsMap.keys (@JsMap.empty (list string))).
  generalize (@JsMap.empty (list string)).
  induction g as [|[importer deps] g IH]; intros incoming; simpl; [reflexivity|].
  now rewrite IH, fold_left_app, incoming_keys_of_file.
Qed.

Lemma incoming_entries (g : DependencyMap) (e : string * list string) :
  In e (buildIncomingMap g) -> snd e = Spec.importersOf g (fst e).
Proof.
  destruct e as [m ims]. intros H.
  apply (In_get _ _ _ (buildIncomingMap_NoDup g)) in H.
  rewrite buildIncomingMap_get in H. simpl.
  destruct (Spec.importersOf g m); simpl in H; congruence.
Qed.

End HubOrder.

(** X10.  The hub records come out in descending order of importer
    count: no record is followed, at any distance, by one with more
    importers. *)
Theorem hubs_are_sorted_by_importer_count :
  forall (g : DependencyMap) (threshold : Z),
    StronglySorted
      (fun a b => (importerCount b <= importerCount a)%Z)
      (findTightlyCoupledModules g threshold).
Proof.
  intros g threshold. unfold findTightlyCoupledModules. apply sortBy_sorted.
Qed.

(** X11.  Among hubs with the same number of importers the order is the
    one in which the modules are first imported, going through the
    files and their imports in order: the sort is stable over the
    insertion order of the reverse map. *)
Theorem tied_hubs_keep_first_import_order :
  forall (g : DependencyMap) (threshold n : Z),
    map module
      (filter (fun h => (importerCount h =? n)%Z)
         (findTightlyCoupledModules g threshold)) =
    filter
      (fun m =>
         (threshold <=? n)%Z
         && (Z.of_nat (length (Spec.importersOf g m)) =? n)%Z)
      (JsSet.of_list (flat_map snd g)).
Proof.
  intros g threshold n. unfold findTightlyCoupledModules.
  rewrite sortBy_ties, <- incoming_keys. unfold JsMap.keys.
  pose proof (incoming_entries g) as Hentries.
  induction (buildIncomingMap g) as [|e l IH]; [reflexivity|].
  assert (He : snd e = Spec.importersOf g (fst e)) by (apply Hentries; now left).
  assert (IH' := IH (fun e' H => Hentries e' (or_intror H))).
  cbn [filter map].
  destruct (Z.leb_spec threshold (Z.of_nat (length (snd e)))) as [Hle|Hgt];
    cbn [filter map].
  - unfold importerCount at 1. cbn [importedBy]. rewrite <- He.
    destruct (Z.eqb_spec (Z.of_nat (length (snd e))) n) as [<-|Hne];
      cbn [map module].
    + destruct (Z.leb_spec threshold (Z.of_nat (length (snd e)))); [|lia].
      cbn [andb]. now rewrite IH'.
    + rewrite andb_false_r. exact IH'.
  - rewrite <- He.
    destruct (Z.eqb_spec (Z.of_nat (length (snd e))) n) as [<-|Hne].
    + destruct (Z.leb_spec threshold (Z.of_nat (length (snd e)))); [lia|].
      exact IH'.
    + rewrite andb_false_r. exact IH'.
Qed.

(* ================================================================= *)
(** ** Further properties of the cycle detection *)

Section Records.

Variable g : DependencyMap.

Lemma forEachDependency_cycles rec :
  (forall d st st', rec d st = Some st' ->
                    exists new, cycles st' = cycles st ++ new) ->
  forall dependencies st st',
    forEachDependency rec dependencies st = Some st' ->
    exists new, cycles st' = cycles st ++ new.
Proof.
  intros Hrec. induction dependencies as [|d rest IH]; intros st st'; simpl.
  - intros [= <-]. exists []. now rewrite app_nil_r.
  - destruct (visitDependency rec d st) as [st1|] eqn:E; [|discriminate].
    intros H. destruct (IH _ _ H) as [n2 Hn2].
    assert (H1 : exists n1, cycles st1 = cycles st ++ n1).
    { unfold visitDependency in E.
      destruct (JsSet.has (recursionStack st) d).
      - injection E as <-. now eexists.
      - destruct (JsSet.has (visited st) d); simpl in E.
        + injection E as <-. exists []. now rewrite app_nil_r.
        + now apply Hrec with d. }
    destruct H1 as [n1 Hn1]. exists (n1 ++ n2).
    now rewrite Hn2, Hn1, app_assoc.
Qed.

Lemma detectCycle_cycles : forall fuel node st st',
  detectCycle g fuel node st = Some st' ->
  exists new, cycles st' = cycles st ++ new.
Proof.
  induction fuel as [|fuel IH]; intros node st st'; simpl; [discriminate|].
  destruct (forEachDependency _ _ _) as [st2|] eqn:E; [|discriminate].
  intros [= <-]. exact (forEachDependency_cycles _ (IH) _ _ _ E).
Qed.

Lemma nothing_added {A} (l n1 n2 : list A) :
  (l ++ n1) ++ n2 = l -> n1 = [] /\ n2 = [].
Proof.
  intros H. rewrite <- app_assoc in H.
  rewrite <- (app_nil_r l) in H at 2. apply app_inv_head in H.
  now apply app_eq_nil in H.
Qed.

Lemma forEachDependency_stack rec :
  (forall d st st', rec d st = Some st' -> recursionStack st' = recursionStack st) ->
  forall dependencies st st',
    forEachDependency rec dependencies st = Some st' ->
    recursionStack st' = recursionStack st.
Proof.
  intros Hrec. induction dependencies as [|d rest IH]; intros st st'; simpl.
  - now intros [= <-].
  - unfold visitDependency.
    destruct (JsSet.has (recursionStack st) d).
    + intros H. now rewrite (IH _ _ H).
    + destruct (JsSet.has (visited st) d); simpl.
      * apply IH.
      * destruct (rec d st) as [st1|] eqn:E; [|discriminate].
        intros H. rewrite (IH _ _ H). now apply Hrec with d.
Qed.

Section Quiet.

Variable fuel : nat.

Hypothesis quiet_call : forall node st st' finished,
  Notions.leftBehind g st finished ->
  ~ In node (visited st) ->
  detectCycle g fuel node st = Some st' ->
  cycles st' = cycles st ->
  recursionStack st' = recursionStack st /\
  exists newer,
    Notions.leftBehind g st' (newer ++ finished) /\ In node (newer ++ finished).

Lemma quiet_loop : forall dependencies st st' finished,
  Notions.leftBehind g st finished ->
  forEachDependency (detectCycle g fuel) dependencies st = Some st' ->
  cycles st' = cycles st ->
  recursionStack st' = recursionStack st /\
  exists newer,
    Notions.leftBehind g st' (newer ++ finished) /\
    forall d, In d dependencies -> In d (newer ++ finished).
Proof.
  induction dependencies as [|d rest IH]; intros st st' finished Hl; simpl.
  - intros [= <-] _. split; [reflexivity|]. exists []. split; [exact Hl|].
    intros d [].
  - destruct (visitDependency (detectCycle g fuel) d st) as [st1|] eqn:E;
      [|discriminate].
    intros Hrest Hsame.
    destruct (forEachDependency_cycles _ (detectCycle_cycles fuel) _ _ _ Hrest)
      as [n2 Hn2].
    unfold visitDependency in E.
    destruct (JsSet.has (recursionStack st) d) eqn:Es.
    + injection E as <-. simpl in Hn2. rewrite Hn2 in Hsame.
      apply nothing_added in Hsame. destruct Hsame as [[=] _].
    + destruct (JsSet.has (visited st) d) eqn:Ev; simpl in E.
      * injection E as <-.
        destruct (IH _ _ _ Hl Hrest Hsame) as (Hstack & newer & Hl' & Hin).
        split; [exact Hstack|]. exists newer. split; [exact Hl'|].
        intros d' [<-|Hd']; [|now apply Hin].
        apply in_app_iff. right.
        apply has_In in Ev. apply has_false in Es.
        destruct Hl as (Hv & _). apply Hv in Ev. tauto.
      * destruct (detectCycle_cycles _ _ _ _ E) as [n1 Hn1].
        rewrite Hn2, Hn1 in Hsame. apply nothing_added in Hsame.
        destruct Hsame as [-> ->]. rewrite app_nil_r in Hn1, Hn2.
        apply has_false in Ev.
        destruct (quiet_call d st st1 finished Hl Ev E Hn1)
          as (Hs1 & newer1 & Hl1 & Hd).
        destruct (IH _ _ _ Hl1 Hrest Hn2) as (Hs2 & newer2 & Hl2 & Hin).
        split; [congruence|]. exists (newer2 ++ newer1).
        rewrite <- app_assoc. split; [exact Hl2|].
        intros d' [<-|Hd']; [|now apply Hin].
        apply in_app_iff. now right.
Qed.

End Quiet.

Lemma finished_cons node finished :
  Notions.finishedIn g finished ->
  (forall v, Spec.edge g node v -> In v finished) ->
  Notions.finishedIn g (node :: finished).
Proof.
  intros Hf Hnode before u after E v Hv.
  destruct before as [|b before]; simpl in E; injection E as E1 E2; subst.
  - now apply Hnode.
  - now apply (Hf before u after).
Qed.

(** A call of [detectCycle] that adds no record leaves its node, and
    all it entered, finished. *)
Lemma quiet_call : forall fuel node st st' finished,
  Notions.leftBehind g st finished ->
  ~ In node (visited st) ->
  detectCycle g fuel node st = Some st' ->
  cycles st' = cycles st ->
  recursionStack st' = recursionStack st /\
  exists newer,
    Notions.leftBehind g st' (newer ++ finished) /\ In node (newer ++ finished).
Proof.
  induction fuel as [|fuel IH]; intros node st st' finished Hl Hnew; simpl;
    [discriminate|].
  destruct (forEachDependency _ _ _) as [st2|] eqn:E; [|discriminate].
  intros [= <-] Hsame. simpl in Hsame.
  pose proof Hl as (Hv & Hdisj & Hfin).
  assert (Hfresh : ~ In node (recursionStack st))
    by (intros H; apply Hnew, Hv; now left).
  assert (Hentered : Notions.leftBehind g (enter node st) finished).
  { split; [|split; [|exact Hfin]]; simpl.
    - intros x. rewrite !In_add, Hv. tauto.
    - intros x Hx. apply In_add in Hx. destruct Hx as [->|Hx]; [|now apply Hdisj].
      intros H. apply Hnew, Hv. now right. }
  destruct (quiet_loop fuel IH _ _ _ _ Hentered E Hsame)
    as (Hstack & newer & (Hv2 & Hdisj2 & Hfin2) & Hdeps).
  simpl in Hstack. rewrite (add_absent _ _ Hfresh) in Hstack.
  assert (Hleft : JsSet.delete node (recursionStack st2) = recursionStack st)
    by (rewrite Hstack; now apply delete_last).
  split; [exact Hleft|].
  exists (node :: newer). split; [|now left].
  split; [|split]; simpl.
  - intros x. rewrite Hleft, Hv2, Hstack, in_app_iff. simpl. tauto.
  - rewrite Hleft. intros x Hx [<-|H]; [exact (Hfresh Hx)|].
    apply (Hdisj2 x); [|exact H]. rewrite Hstack. apply in_app_iff. now left.
  - apply finished_cons; [exact Hfin2|]. intros v Hedge. now apply Hdeps.
Qed.

Lemma quiet_roots fuel : forall nodes st st' finished,
  Notions.leftBehind g st finished ->
  recursionStack st = [] ->
  forEachRoot g fuel nodes st = Some st' ->
  cycles st' = cycles st ->
  exists newer,
    Notions.leftBehind g st' (newer ++ finished) /\
    recursionStack st' = [] /\
    forall n, In n nodes -> In n (newer ++ finished).
Proof.
  induction nodes as [|node rest IH]; intros st st' finished Hl Hempty; simpl.
  - intros [= <-] _. exists []. repeat split; [apply Hl..|exact Hempty|].
    intros n [].
  - destruct (JsSet.has (visited st) node) eqn:Ev; simpl.
    + intros Hrest Hsame.
      destruct (IH _ _ _ Hl Hempty Hrest Hsame) as (newer & Hl' & He & Hin).
      exists newer. split; [exact Hl'|]. split; [exact He|].
      intros n [<-|Hn]; [|now apply Hin].
      apply in_app_iff. right. apply has_In in Ev.
      destruct Hl as (Hv & _). apply Hv in Ev. rewrite Hempty in Ev.
      destruct Ev as [[]|Ev]. exact Ev.
    + set (root := {| cycles := cycles st; visited := visited st;
                      recursionStack := recursionStack st; openPath := [] |}).
      destruct (detectCycle g fuel node root) as [st1|] eqn:E; [|discriminate].
      intros Hrest Hsame.
      destruct (detectCycle_cycles _ _ _ _ E) as [n1 Hn1].
      assert (Hgrow : exists n2, cycles st' = cycles st1 ++ n2).
      { clear - Hrest. revert st1 Hrest.
        induction rest as [|r rest IHr]; intros st1; simpl.
        - intros [= <-]. exists []. now rewrite app_nil_r.
        - destruct (JsSet.has (visited st1) r); simpl; [apply IHr|].
          destruct (detectCycle g fuel r _) as [st2|] eqn:E; [|discriminate].
          intros H. destruct (IHr _ H) as [n2 Hn2].
          destruct (detectCycle_cycles _ _ _ _ E) as [n1 Hn1]. simpl in Hn1.
          exists (n1 ++ n2). now rewrite Hn2, Hn1, app_assoc. }
      destruct Hgrow as [n2 Hn2]. simpl in Hn1.
      rewrite Hn2, Hn1 in Hsame. apply nothing_added in Hsame.
      destruct Hsame as [-> ->]. rewrite app_nil_r in Hn1, Hn2.
      apply has_false in Ev.
      destruct (quiet_call fuel node root st1 finished Hl Ev E Hn1)
        as (Hs1 & newer1 & Hl1 & Hnode).
      simpl in Hs1. rewrite Hempty in Hs1.
      destruct (IH _ _ _ Hl1 Hs1 Hrest Hn2) as (newer2 & Hl2 & He & Hin).
      exists (newer2 ++ newer1). rewrite <- app_assoc.
      split; [exact Hl2|]. split; [exact He|].
      intros n [<-|Hn]; [|now apply Hin].
      apply in_app_iff. now right.
Qed.

Lemma walk_into_finished finished :
  Notions.finishedIn g finished ->
  forall l u before after,
    finished = before ++ u :: after ->
    Spec.walk g (u :: l) ->
    forall y, In y l -> In y after.
Proof.
  intros Hf. induction l as [|v l IH]; intros u before after E Hw y Hy;
    [destruct Hy|].
  destruct Hw as [Huv Hw].
  assert (Hv : In v after) by exact (Hf _ _ _ E v Huv).
  destruct Hy as [<-|Hy]; [exact Hv|].
  destruct (in_split _ _ Hv) as (b' & a' & ->).
  assert (H : In y a').
  { apply (IH v (before ++ u :: b') a'); [|exact Hw|exact Hy].
    rewrite E, <- app_assoc. reflexivity. }
  apply in_app_iff. right. now right.
Qed.

Lemma in_split_last {A} (x : A) (l : list A) :
  (forall a b : A, {a = b} + {a <> b}) ->
  In x l -> exists before after, l = before ++ x :: after /\ ~ In x after.
Proof.
  intros dec. induction l as [|y l IH]; [intros []|].
  intros H. destruct (in_dec dec x l) as [Hin|Hnot].
  - destruct (IH Hin) as (b & a & -> & Ha). now exists (y :: b), a.
  - destruct H as [->|H]; [|contradiction]. now exists [], l.
Qed.

Lemma leftBehind_start : Notions.leftBehind g initialDfs [].
Proof.
  split; [|split]; simpl.
  - tauto.
  - tauto.
  - intros before u after H. destruct (app_cons_not_nil _ _ _ H).
Qed.

(** When the detector returns no record, the graph has no closed walk. *)
Lemma no_record_no_cycle :
  findCircularDependencies g = Some [] -> Spec.acyclic g.
Proof.
  unfold findCircularDependencies.
  destruct (forEachRoot _ _ _ _) as [st|] eqn:E; [|discriminate].
  intros [= Hnone].
  destruct (quiet_roots _ _ _ _ [] leftBehind_start eq_refl E Hnone)
    as (finished & (_ & _ & Hfin) & _ & Hall).
  rewrite app_nil_r in Hfin, Hall.
  intros p (x & middle & -> & Hw).
  assert (Hx : In x finished).
  { apply Hall.
    destruct (exists_last (l := x :: middle) ltac:(discriminate)) as (q & y & Eq).
    change (x :: middle ++ [x]) with ((x :: middle) ++ [x]) in Hw.
    rewrite Eq, <- app_assoc in Hw. apply walk_suffix in Hw.
    apply dependencies_in_allNodes with y. apply Hw. }
  destruct (in_split_last x finished string_dec Hx) as (b & a & E' & Hlast).
  apply Hlast.
  apply (walk_into_finished finished Hfin (middle ++ [x]) x b a E' Hw).
  apply in_app_iff. right. now left.
Qed.

End Records.

Section RecordShape.

Lemma during_simple st :
  Spec.during st ->
  Forall (fun c => NoDup (removelast (path c))) (cycles st).
Proof.
  induction 1 as [|st node _ IH _|st d Hd IH Hs|st p node _ IH _];
    [constructor|exact IH| |exact IH].
  - destruct (during_stack st Hd) as (Hstack & Hnd & _).
    destruct (back_edge_record st d Hs Hstack) as (before & after & E & _ & ->).
    cbn [cycles]. apply Forall_app. split; [exact IH|].
    constructor; [|constructor]. cbn [path].
    change (d :: after ++ [d]) with ((d :: after) ++ [d]).
    rewrite removelast_last. rewrite E in Hnd.
    now apply NoDup_app_remove_l in Hnd.
Qed.

Lemma walk_has_next (g : DependencyMap) (l : list string) (y n : string) :
  Spec.walk g (l ++ [y]) -> In n l -> exists b, Spec.edge g n b.
Proof.
  induction l as [|a l IH]; [intros _ []|].
  intros Hw [<-|Hn].
  - destruct l as [|b l]; simpl in Hw; [exists y|exists b]; tauto.
  - apply IH; [|exact Hn]. now apply (walk_suffix g [a]).
Qed.

Lemma edge_from_key (g : DependencyMap) (a b : string) :
  Spec.edge g a b -> In a (JsMap.keys g).
Proof.
  unfold Spec.edge, dependenciesOf.
  destruct (JsMap.get g a) as [deps|] eqn:E; [|intros []].
  intros _. apply get_In in E. exact (in_map fst _ _ E).
Qed.

End RecordShape.

(** X12.  The detector misses no cyclic graph: whenever the graph has a
    closed walk, at least one cycle record is returned. *)
Theorem cyclic_graph_gets_a_cycle_record :
  forall (g : DependencyMap) (p : list string),
    Spec.closedWalk g p ->
    exists record others,
      findCircularDependencies g = Some (record :: others).
Proof.
  intros g p Hp.
  destruct (findCircularDependencies_returns g) as (found & Hfound & _).
  destruct found as [|record others]; [|now exists record, others].
  destruct (no_record_no_cycle g Hfound p Hp).
Qed.

Lemma cyclic_graph_gets_a_cycle_record_witness :
  exists record others,
    findCircularDependencies
      [("src/a.ts", ["src/b.ts"]); ("src/b.ts", ["src/c.ts"]);
       ("src/c.ts", ["src/b.ts"])] = Some (record :: others).
Proof.
  apply (cyclic_graph_gets_a_cycle_record _ ["src/c.ts"; "src/b.ts"; "src/c.ts"]).
  exists "src/c.ts", ["src/b.ts"]. split; [reflexivity|].
  simpl. unfold Spec.edge. simpl. tauto.
Defined.

(** X13.  Every cycle record is a simple cycle: apart from the last
    element, which repeats the first, no module occurs twice in its
    path. *)
Theorem cycle_records_are_simple :
  forall g : DependencyMap,
    exists found,
      findCircularDependencies g = Some found /\
      forall c, In c found -> NoDup (removelast (path c)).
Proof.
  intros g.
  destruct (findCircularDependencies_returns g) as (found & Hfound & _).
  exists found. split; [exact Hfound|].
  unfold findCircularDependencies in Hfound.
  destruct (forEachRoot _ _ _ _) as [st|] eqn:E; [|discriminate].
  injection Hfound as <-.
  destruct (forEachRoot_during g _ _ _ _ Spec.during_start eq_refl E) as [Hd _].
  apply Forall_forall. now apply during_simple.
Qed.

(** X14.  Every module on a reported cycle is a key of the graph, that
    is a file that was scanned: an import into a file that was not
    scanned is never part of a cycle record. *)
Theorem cycle_records_stay_among_the_keys :
  forall g : DependencyMap,
    exists found,
      findCircularDependencies g = Some found /\
      forall c n, In c found -> In n (path c) -> In n (JsMap.keys g).
Proof.
  intros g.
  destruct (findCircularDependencies_returns g) as (found & Hfound & Hwalks).
  exists found. split; [exact Hfound|]. intros c n Hc Hn.
  rewrite Forall_forall in Hwalks.
  destruct (Hwalks c Hc) as (x & middle & E & Hw). rewrite E in Hn, Hw.
  change (x :: middle ++ [x]) with ((x :: middle) ++ [x]) in Hn, Hw.
  assert (Hin : In n (x :: middle)).
  { apply in_app_iff in Hn. destruct Hn as [Hn|[<-|[]]]; [exact Hn|now left]. }
  destruct (walk_has_next g _ _ _ Hw Hin) as [b Hb].
  now apply edge_from_key with b.
Qed.


(* ================================================================= *)
(** ** Properties of the unwrapping of the answer of the model *)

Section Unwrapping.

Lemma startsWith_app (p t : list ascii) : Llm.startsWith p (p ++ t) = true.
Proof.
  induction p as [|c p IH]; simpl; [now destruct t|].
  now rewrite Ascii.eqb_refl, IH.
Qed.

Lemma lastOccurrence_from_start (p t : list ascii) :
  Llm.startsWith p t = true -> exists j, Llm.lastOccurrence p t = Some j.
Proof.
  intros H. destruct t as [|c t]; cbn [Llm.lastOccurrence].
  - rewrite H. now exists 0.
  - destruct (Llm.lastOccurrence p t) as [j|]; [now exists (S j)|].
    rewrite H. now exists 0.
Qed.

Lemma lastOccurrence_app (p a b : list ascii) (j : nat) :
  Llm.lastOccurrence p b = Some j ->
  Llm.lastOccurrence p (a ++ b) = Some (length a + j).
Proof.
  intros H. induction a as [|c a IH]; [exact H|].
  cbn [app Llm.lastOccurrence length]. now rewrite IH.
Qed.

Lemma lastOccurrence_char_none (c : ascii) (t : list ascii) :
  ~ In c t -> Llm.lastOccurrence [c] t = None.
Proof.
  induction t as [|x t IH]; intros H; cbn [Llm.lastOccurrence Llm.startsWith].
  - reflexivity.
  - rewrite IH by (intros Hin; apply H; now right).
    destruct (Ascii.eqb_spec c x) as [->|_]; [|reflexivity].
    exfalso. apply H. now left.
Qed.

Lemma lastOccurrence_char (c : ascii) (t : list ascii) :
  match Llm.lastOccurrence [c] t with
  | Some j => exists a b, t = a ++ c :: b /\ length a = j /\ ~ In c b
  | None => ~ In c t
  end.
Proof.
  induction t as [|x t IH]; cbn [Llm.lastOccurrence Llm.startsWith].
  - intros [].
  - destruct (Llm.lastOccurrence [c] t) as [j|].
    + destruct IH as (a & b & -> & <- & Hb). now exists (x :: a), b.
    + destruct (Ascii.eqb_spec c x) as [->|Hne]; cbn [andb].
      * now exists [], t.
      * intros [H|H]; [congruence|contradiction].
Qed.

Lemma firstn_within {A} (n : nat) (l : list A) (x : A) :
  In x (firstn n l) -> In x l.
Proof.
  intros H. rewrite <- (firstn_skipn n l). apply in_app_iff. now left.
Qed.

Lemma matchFence_skip (pre t : list ascii) :
  ~ In "`"%char pre -> Llm.matchFence (pre ++ t) = Llm.matchFence t.
Proof.
  induction pre as [|c pre IH]; intros H; [reflexivity|].
  cbn [app Llm.matchFence].
  replace (Llm.startsWith Llm.fenceOpen (c :: pre ++ t)) with false.
  - apply IH. intros Hin. apply H. now right.
  - symmetry. unfold Llm.fenceOpen. cbn [list_ascii_of_string Llm.startsWith].
    destruct (Ascii.eqb_spec "`"%char c) as [<-|_]; [|reflexivity].
    exfalso. apply H. now left.
Qed.

Lemma matchFence_at (rest : list ascii) (j : nat) :
  Llm.lastOccurrence Llm.fenceClose rest = Some j ->
  Llm.matchFence (Llm.fenceOpen ++ rest) = Some (firstn j rest).
Proof.
  intros H.
  assert (Hskip : skipn (length Llm.fenceOpen) (Llm.fenceOpen ++ rest) = rest).
  { rewrite skipn_app, skipn_all, Nat.sub_diag. reflexivity. }
  pose proof (startsWith_app Llm.fenceOpen rest) as Hstart.
  destruct (Llm.fenceOpen ++ rest) as [|c t] eqn:E; [discriminate|].
  cbn [Llm.matchFence]. now rewrite Hstart, Hskip, H.
Qed.

Lemma matchFence_inside (t g : list ascii) :
  Llm.matchFence t = Some g -> exists a c, t = a ++ g ++ c.
Proof.
  induction t as [|x t IH]; [discriminate|].
  cbn [Llm.matchFence].
  assert (Hrec : Llm.matchFence t = Some g -> exists a c, x :: t = a ++ g ++ c).
  { intros H. destruct (IH H) as (a & c & ->). now exists (x :: a), c. }
  destruct (Llm.startsWith Llm.fenceOpen (x :: t)); [|exact Hrec].
  destruct (Llm.lastOccurrence _ _) as [j|]; [|exact Hrec].
  intros [= <-].
  exists (firstn (length Llm.fenceOpen) (x :: t)),
         (skipn j (skipn (length Llm.fenceOpen) (x :: t))).
  now rewrite !firstn_skipn.
Qed.

Lemma matchObject_shape (t o : list ascii) :
  Llm.matchObject t = Some o ->
  exists a middle c,
    t = a ++ o ++ c /\ o = "{"%char :: middle ++ ["}"%char].
Proof.
  induction t as [|x t IH]; [discriminate|].
  cbn [Llm.matchObject].
  assert (Hrec : Llm.matchObject t = Some o ->
                 exists a middle c,
                   x :: t = a ++ o ++ c /\ o = "{"%char :: middle ++ ["}"%char]).
  { intros H. destruct (IH H) as (a & m & c & -> & Ho).
    now exists (x :: a), m, c. }
  destruct (Ascii.eqb_spec x "{"%char) as [->|_]; [|exact Hrec].
  pose proof (lastOccurrence_char "}"%char t) as Hlast.
  destruct (Llm.lastOccurrence ["}"%char] t) as [j|]; [|exact Hrec].
  destruct Hlast as (a & b & -> & <- & _). intros H.
  assert (Ho : o = "{"%char :: firstn (S (length a)) (a ++ "}"%char :: b))
    by congruence.
  clear H IH Hrec.
  rewrite firstn_app, Nat.sub_succ_l, Nat.sub_diag, firstn_all2 in Ho by lia.
  cbn [firstn] in Ho. subst o.
  exists [], a, b. split; [|reflexivity].
  cbn [app]. now rewrite <- app_assoc.
Qed.

Lemma matchObject_none (t : list ascii) :
  Llm.matchObject t = None -> ~ Notions.hasObject t.
Proof.
  induction t as [|x t IH]; intros H (a & b & c & E).
  - destruct a; discriminate.
  - cbn [Llm.matchObject] in H.
    assert (Htail : Llm.matchObject t = None -> a <> [] -> False).
    { intros Ht Ha. destruct a as [|y a]; [congruence|].
      injection E as _ ->. apply (IH Ht). now exists a, b, c. }
    destruct (Ascii.eqb_spec x "{"%char) as [->|Hne].
    + pose proof (lastOccurrence_char "}"%char t) as Hlast.
      destruct (Llm.lastOccurrence ["}"%char] t); [discriminate|].
      destruct a as [|y a]; [|now apply Htail].
      injection E as ->. apply Hlast, in_app_iff. right. now left.
    + destruct a as [|y a]; [injection E as -> _; congruence|now apply Htail].
Qed.

Lemma matchObject_span (w1 middle rest : list ascii) :
  ~ In "{"%char w1 ->
  ~ In "}"%char rest ->
  Llm.matchObject (w1 ++ "{"%char :: middle ++ "}"%char :: rest) =
  Some ("{"%char :: middle ++ ["}"%char]).
Proof.
  intros Hw Hr. induction w1 as [|x w1 IH]; cbn [app Llm.matchObject].
  - rewrite Ascii.eqb_refl.
    rewrite (lastOccurrence_app ["}"%char] middle ("}"%char :: rest) 0).
    + rewrite Nat.add_0_r, firstn_app, Nat.sub_succ_l, Nat.sub_diag,
        firstn_all2 by lia.
      reflexivity.
    + cbn [Llm.lastOccurrence Llm.startsWith].
      rewrite lastOccurrence_char_none by exact Hr.
      now rewrite Ascii.eqb_refl.
  - destruct (Ascii.eqb_spec x "{"%char) as [->|_].
    + exfalso. apply Hw. now left.
    + apply IH. intros H. apply Hw. now right.
Qed.

End Unwrapping.

(** X15.  An object inside a [```json] fence is recovered: when nothing
    before the fence holds a backtick, nothing between the fence and
    the object holds an opening brace, and nothing after the object
    holds a closing brace, the text given to [JSON.parse] is the object,
    whatever the object contains and whatever else follows the closing
    fence. *)
Theorem fenced_object_is_recovered :
  forall pre w1 middle w2 tail : list ascii,
    ~ In "`"%char pre ->
    ~ In "{"%char w1 ->
    ~ In "}"%char w2 ->
    ~ In "}"%char tail ->
    Llm.unwrapResponse
      (pre ++ Llm.fenceOpen ++ w1 ++ "{"%char :: middle ++ "}"%char :: w2
           ++ Llm.fenceClose ++ tail) =
    "{"%char :: middle ++ ["}"%char].
Proof.
  intros pre w1 middle w2 tail Hpre Hw1 Hw2 Htail.
  unfold Llm.unwrapResponse.
  rewrite matchFence_skip by exact Hpre.
  destruct (lastOccurrence_from_start Llm.fenceClose (Llm.fenceClose ++ tail)
              (startsWith_app _ _)) as [j Hj].
  set (body := w1 ++ "{"%char :: middle ++ "}"%char :: w2).
  replace (w1 ++ "{"%char :: middle ++ "}"%char :: w2 ++ Llm.fenceClose ++ tail)
    with (body ++ Llm.fenceClose ++ tail)
    by (unfold body; now rewrite <- app_assoc, <- !app_comm_cons, <- app_assoc).
  rewrite (matchFence_at _ _ (lastOccurrence_app _ body _ _ Hj)).
  rewrite firstn_app_2.
  assert (Hgroup : body ++ firstn j (Llm.fenceClose ++ tail) =
                   w1 ++ "{"%char :: middle ++ "}"%char
                      :: (w2 ++ firstn j (Llm.fenceClose ++ tail))).
  { unfold body. now rewrite <- app_assoc, <- !app_comm_cons, <- app_assoc. }
  rewrite Hgroup.
  assert (Hobject : Llm.matchObject
                      (w1 ++ "{"%char :: middle ++ "}"%char
                          :: (w2 ++ firstn j (Llm.fenceClose ++ tail))) =
                    Some ("{"%char :: middle ++ ["}"%char])).
  { apply matchObject_span; [exact Hw1|].
    intros H. apply in_app_iff in H. destruct H as [H|H]; [exact (Hw2 H)|].
    apply firstn_within, in_app_iff in H. destruct H as [H|H]; [|exact (Htail H)].
    unfold Llm.fenceClose in H. simpl in H. intuition discriminate. }
  destruct w1 as [|c w1]; cbn [app] in *; now rewrite Hobject.
Qed.

Lemma fenced_object_is_recovered_witness :
  Llm.unwrapResponse
    (list_ascii_of_string "Here is the analysis: "
       ++ Llm.fenceOpen ++ list_ascii_of_string " "
       ++ "{"%char :: list_ascii_of_string " a: {b: '```'} "
       ++ "}"%char :: list_ascii_of_string " "
       ++ Llm.fenceClose ++ list_ascii_of_string " Anything else? ```") =
  "{"%char :: list_ascii_of_string " a: {b: '```'} " ++ ["}"%char].
Proof.
  apply (fenced_object_is_recovered
           (list_ascii_of_string "Here is the analysis: ")
           (list_ascii_of_string " ")
           (list_ascii_of_string " a: {b: '```'} ")
           (list_ascii_of_string " ")
           (list_ascii_of_string " Anything else? ```"));
    simpl; intuition discriminate.
Defined.

(** X16.  A bare object is recovered as well: in a text without
    backticks, with no opening brace before the object and no closing
    brace after it, the text given to [JSON.parse] is the object; what
    surrounds it is dropped. *)
Theorem bare_object_is_recovered :
  forall w1 middle w2 : list ascii,
    ~ In "`"%char (w1 ++ "{"%char :: middle ++ "}"%char :: w2) ->
    ~ In "{"%char w1 ->
    ~ In "}"%char w2 ->
    Llm.unwrapResponse (w1 ++ "{"%char :: middle ++ "}"%char :: w2) =
    "{"%char :: middle ++ ["}"%char].
Proof.
  intros w1 middle w2 Hticks Hw1 Hw2. unfold Llm.unwrapResponse.
  rewrite <- (app_nil_r (w1 ++ "{"%char :: middle ++ "}"%char :: w2)) at 1.
  rewrite matchFence_skip by exact Hticks. cbn [Llm.matchFence].
  now rewrite matchObject_span.
Qed.

Lemma bare_object_is_recovered_witness :
  Llm.unwrapResponse
    (list_ascii_of_string "Sure: "
       ++ "{"%char :: list_ascii_of_string " x: [1, {y: 2}] "
       ++ "}"%char :: list_ascii_of_string " (done)") =
  "{"%char :: list_ascii_of_string " x: [1, {y: 2}] " ++ ["}"%char].
Proof.
  apply (bare_object_is_recovered
           (list_ascii_of_string "Sure: ")
           (list_ascii_of_string " x: [1, {y: 2}] ")
           (list_ascii_of_string " (done)"));
    simpl; intuition discriminate.
Defined.

(** X17.  Unwrapping only cuts: the text given to [JSON.parse] is a
    contiguous part of the text of the response.  It starts with an
    opening brace and ends with a closing one, unless it holds no
    opening brace with a closing brace after it, as when the answer is
    an array, or empty. *)
Theorem unwrapping_only_cuts :
  forall text : list ascii,
    (exists before after, text = before ++ Llm.unwrapResponse text ++ after) /\
    ((exists middle,
         Llm.unwrapResponse text = "{"%char :: middle ++ ["}"%char]) \/
     ~ Notions.hasObject (Llm.unwrapResponse text)).
Proof.
  intros text. unfold Llm.unwrapResponse.
  set (unfenced := match Llm.matchFence text with
                   | Some (c :: group) => c :: group
                   | _ => text
                   end).
  assert (Hunfenced : exists a c, text = a ++ unfenced ++ c).
  { unfold unfenced. destruct (Llm.matchFence text) as [[|x group]|] eqn:E.
    - exists [], []. now rewrite app_nil_r.
    - now apply matchFence_inside.
    - exists [], []. now rewrite app_nil_r. }
  destruct Hunfenced as (a & c & Htext).
  destruct (Llm.matchObject unfenced) as [object|] eqn:E.
  - destruct (matchObject_shape _ _ E) as (a' & middle & c' & Hu & Ho).
    split; [|left; now exists middle].
    exists (a ++ a'), (c' ++ c). rewrite Htext, Hu.
    now rewrite <- !app_assoc.
  - split; [now exists a, c|]. right. now apply matchObject_none.
Qed.

(* ================================================================= *)
(** ** The number of cycle records *)

Section RecordCount.

Variable g : DependencyMap.

Lemma edgesFrom_app (l1 l2 : list string) :
  Notions.edgesFrom g (l1 ++ l2) =
  Notions.edgesFrom g l1 + Notions.edgesFrom g l2.
Proof.
  unfold Notions.edgesFrom. now rewrite map_app, list_sum_app.
Qed.

Section Counting.

Variable fuel : nat.

Hypothesis counted_call : forall node st st',
  ~ In node (visited st) ->
  detectCycle g fuel node st = Some st' ->
  exists entered,
    visited st' = visited st ++ entered /\
    length (cycles st') <= length (cycles st) + Notions.edgesFrom g entered.

Lemma counted_loop : forall dependencies st st',
  forEachDependency (detectCycle g fuel) dependencies st = Some st' ->
  exists entered,
    visited st' = visited st ++ entered /\
    length (cycles st') <=
    length (cycles st) + length dependencies + Notions.edgesFrom g entered.
Proof.
  induction dependencies as [|d rest IH]; intros st st'; simpl.
  - intros [= <-]. exists []. rewrite app_nil_r. split; [reflexivity|].
    unfold Notions.edgesFrom. simpl. lia.
  - unfold visitDependency.
    destruct (JsSet.has (recursionStack st) d).
    + intros H. destruct (IH _ _ H) as (e & Hv & Hc).
      exists e. split; [exact Hv|]. simpl in Hc. rewrite length_app in Hc.
      simpl in Hc. lia.
    + destruct (JsSet.has (visited st) d) eqn:Ev; simpl.
      * intros H. destruct (IH _ _ H) as (e & Hv & Hc).
        exists e. split; [exact Hv|]. lia.
      * destruct (detectCycle g fuel d st) as [st1|] eqn:E; [|discriminate].
        intros H. apply has_false in Ev.
        destruct (counted_call d st st1 Ev E) as (e1 & Hv1 & Hc1).
        destruct (IH _ _ H) as (e2 & Hv2 & Hc2).
        exists (e1 ++ e2). rewrite Hv2, Hv1, <- app_assoc, edgesFrom_app.
        split; [reflexivity|]. lia.
Qed.

End Counting.

(** A call of [detectCycle] adds at most one record for each edge that
    leaves a node it enters. *)
Lemma counted_call : forall fuel node st st',
  ~ In node (visited st) ->
  detectCycle g fuel node st = Some st' ->
  exists entered,
    visited st' = visited st ++ entered /\
    length (cycles st') <= length (cycles st) + Notions.edgesFrom g entered.
Proof.
  induction fuel as [|fuel IH]; intros node st st' Hnew; simpl; [discriminate|].
  destruct (forEachDependency _ _ _) as [st2|] eqn:E; [|discriminate].
  intros [= <-]. simpl.
  destruct (counted_loop fuel IH _ _ _ E) as (e & Hv & Hc).
  simpl in Hv, Hc. rewrite (add_absent _ _ Hnew) in Hv.
  exists (node :: e). rewrite Hv, <- app_assoc. split; [reflexivity|].
  unfold Notions.edgesFrom in *. simpl. lia.
Qed.

Lemma counted_roots fuel : forall nodes st st',
  forEachRoot g fuel nodes st = Some st' ->
  exists entered,
    visited st' = visited st ++ entered /\
    length (cycles st') <= length (cycles st) + Notions.edgesFrom g entered.
Proof.
  induction nodes as [|node rest IH]; intros st st'; simpl.
  - intros [= <-]. exists []. rewrite app_nil_r. split; [reflexivity|].
    unfold Notions.edgesFrom. simpl. lia.
  - destruct (JsSet.has (visited st) node) eqn:Ev; simpl; [apply IH|].
    destruct (detectCycle g fuel node _) as [st1|] eqn:E; [|discriminate].
    intros H. apply has_false in Ev.
    destruct (counted_call fuel node
                (mkDfs (cycles st) (visited st) (recursionStack st) [])
                st1 Ev E) as (e1 & Hv1 & Hc1).
    destruct (IH _ _ H) as (e2 & Hv2 & Hc2). simpl in Hv1, Hc1.
    exists (e1 ++ e2). rewrite Hv2, Hv1, <- app_assoc, edgesFrom_app.
    split; [reflexivity|]. lia.
Qed.

Lemma visited_NoDup_call : forall fuel node st st',
  NoDup (visited st) ->
  detectCycle g fuel node st = Some st' ->
  NoDup (visited st').
Proof.
  induction fuel as [|fuel IH]; intros node st st' Hnd; simpl; [discriminate|].
  destruct (forEachDependency _ _ _) as [st2|] eqn:E; [|discriminate].
  intros [= <-]. simpl.
  assert (H1 : NoDup (visited (enter node st))) by (simpl; now apply add_NoDup).
  revert E H1. generalize (enter node st). generalize (dependenciesOf g node).
  induction l as [|d rest IHl]; intros st1; simpl.
  - now intros [= <-].
  - unfold visitDependency.
    destruct (JsSet.has (recursionStack st1) d).
    { intros H H1. now apply (IHl _ H). }
    destruct (JsSet.has (visited st1) d); simpl; [apply IHl|].
    destruct (detectCycle g fuel d st1) as [st3|] eqn:E3; [|discriminate].
    intros H H1. apply (IHl _ H). now apply IH with d st1.
Qed.

Lemma visited_NoDup_roots fuel : forall nodes st st',
  NoDup (visited st) ->
  forEachRoot g fuel nodes st = Some st' ->
  NoDup (visited st').
Proof.
  induction nodes as [|node rest IH]; intros st st' Hnd; simpl.
  - now intros [= <-].
  - destruct (JsSet.has (visited st) node); simpl; [now apply IH|].
    destruct (detectCycle g fuel node _) as [st1|] eqn:E; [|discriminate].
    apply IH.
    now apply (visited_NoDup_call fuel node
                 (mkDfs (cycles st) (visited st) (recursionStack st) []) st1).
Qed.

End RecordCount.

Lemma dependenciesOf_cons (k : string) (deps : list string)
  (g : DependencyMap) (n : string) :
  dependenciesOf ((k, deps) :: g) n =
  if String.eqb k n then deps else dependenciesOf g n.
Proof.
  unfold dependenciesOf. cbn [JsMap.get]. now destruct (String.eqb k n).
Qed.

Lemma edgesFrom_cons (k : string) (deps : list string) (g : DependencyMap) :
  forall nodes : list string,
    NoDup nodes ->
    Notions.edgesFrom ((k, deps) :: g) nodes <=
    length deps + Notions.edgesFrom g nodes.
Proof.
  unfold Notions.edgesFrom.
  induction nodes as [|n nodes IH]; intros Hnd; [simpl; lia|].
  inversion Hnd as [|? ? Hnotin Hnd']; subst.
  cbn [map list_sum fold_right]. rewrite dependenciesOf_cons.
  destruct (String.eqb_spec k n) as [->|Hne].
  - assert (Hrest :
      map (fun n0 => length (dependenciesOf ((n, deps) :: g) n0)) nodes =
      map (fun n0 => length (dependenciesOf g n0)) nodes).
    { apply map_ext_in. intros x Hx. rewrite dependenciesOf_cons.
      destruct (String.eqb_spec n x) as [->|_]; [contradiction|reflexivity]. }
    rewrite Hrest. unfold list_sum. lia.
  - specialize (IH Hnd'). unfold list_sum in *. lia.
Qed.

(** Distinct nodes share no entry of the graph. *)
Lemma edgesFrom_bound : forall (g : DependencyMap) (nodes : list string),
  NoDup nodes -> Notions.edgesFrom g nodes <= Notions.edgeCount g.
Proof.
  induction g as [|[k deps] g IH]; intros nodes Hnd.
  - unfold Notions.edgesFrom, Notions.edgeCount, dependenciesOf. simpl.
    clear Hnd. induction nodes as [|n nodes IHn]; simpl; [lia|exact IHn].
  - pose proof (edgesFrom_cons k deps g nodes Hnd) as H.
    specialize (IH nodes Hnd).
    unfold Notions.edgeCount in *. cbn [map list_sum fold_right snd].
    unfold list_sum in *. lia.
Qed.


(** X18.  The detector returns at most one cycle record for each edge
    of the graph: there can be more records than modules, but never
    more than imports. *)
Theorem cycle_records_are_bounded_by_the_edges :
  forall g : DependencyMap,
    exists found,
      findCircularDependencies g = Some found /\
      length found <= list_sum (map (fun entry => length (snd entry)) g).
Proof.
  intros g.
  destruct (findCircularDependencies_returns g) as (found & Hfound & _).
  exists found. split; [exact Hfound|].
  unfold findCircularDependencies in Hfound.
  destruct (forEachRoot _ _ _ _) as [st|] eqn:E; [|discriminate].
  injection Hfound as <-.
  destruct (counted_roots g _ _ _ _ E) as (entered & Hv & Hc).
  assert (Hnd : NoDup (visited st)).
  { eapply visited_NoDup_roots; [|exact E]. apply NoDup_nil. }
  simpl in Hv, Hc. rewrite Hv in Hnd.
  pose proof (edgesFrom_bound g entered Hnd). unfold Notions.edgeCount in *. lia.
Qed.
